(** * Fervian component compiler view: the tree provider of [extension.js]

    A shallow embedding of the tree data provider ([FFHTMLTreeDataProvider]),
    of the two file commands ([createFilePrompt], [deleteFilePrompt]) and of
    the parts of the Node.js platform they call ([path], [fs]), followed by
    the properties of the folder merge and of the path resolution. *)

From Stdlib Require Import String Ascii List Bool Arith Lia.
Import ListNotations.
Open Scope string_scope.
Open Scope list_scope.

Set Warnings "-register-all".

(** ** Outcomes of a JavaScript call

    A call returns a value or throws.  The recursive scans are written with a
    recursion budget; [OutOfFuel] is the budget running out, which the
    lemmas on the budget below exclude for every budget above the height of
    the disk as it is modelled here. *)

Inductive error : Type :=
| TypeError      (* property access or call on undefined *)
| SyntaxError    (* JSON.parse on malformed text *)
| ENOENT         (* no such file or directory *)
| ENOTDIR        (* a directory operation on something that is a file *)
| EISDIR         (* a file operation on a directory *)
| EEXIST         (* mkdir over an existing file *)
| EBUSY.         (* removal of the file system root *)

Inductive result (A : Type) : Type :=
| Ok (a : A)
| Throw (e : error)
| OutOfFuel.

Arguments Ok {A} a.
Arguments Throw {A} e.
Arguments OutOfFuel {A}.

Definition bind {A B : Type} (r : result A) (k : A -> result B) : result B :=
  match r with
  | Ok a => k a
  | Throw e => Throw e
  | OutOfFuel => OutOfFuel
  end.

Notation "x <- r ;; k" := (bind r (fun x => k))
  (at level 61, r at next level, right associativity).

(** [Array.prototype.forEach] with a callback that may throw, threading the
    state the callback mutates. *)
Fixpoint forEach {A S : Type} (f : S -> A -> result S) (l : list A) (s : S)
  : result S :=
  match l with
  | [] => Ok s
  | a :: l' => s' <- f s a ;; forEach f l' s'
  end.

(** A loop that builds one value per element, stopping at the first throw. *)
Fixpoint mapM {A B : Type} (f : A -> result B) (l : list A) : result (list B) :=
  match l with
  | [] => Ok []
  | a :: l' => b <- f a ;; bs <- mapM f l' ;; Ok (b :: bs)
  end.

(** JavaScript truthiness of a value that is a string or undefined. *)
Definition truthy (s : option string) : bool :=
  match s with
  | Some s => negb (s =? "")
  | None => false
  end.

(** ** The [path] module (POSIX flavour) *)

Definition slash : ascii := "/"%char.

(** [s.split('/')] *)
Fixpoint split_slash (s : string) : list string :=
  match s with
  | EmptyString => [EmptyString]
  | String c s' =>
      if Ascii.eqb c slash then EmptyString :: split_slash s'
      else match split_slash s' with
           | [] => [String c EmptyString]
           | h :: t => String c h :: t
           end
  end.

Definition isAbsolute (p : string) : bool :=
  match p with
  | String c _ => Ascii.eqb c slash
  | EmptyString => false
  end.

Fixpoint last_char (s : string) : option ascii :=
  match s with
  | EmptyString => None
  | String c EmptyString => Some c
  | String _ s' => last_char s'
  end.

Definition trailingSeparator (p : string) : bool :=
  match last_char p with
  | Some c => Ascii.eqb c slash
  | None => false
  end.

(** One segment of [normalizeString]; the segments kept so far are held last
    first. *)
Definition normalize_step (allowAboveRoot : bool) (res : list string)
  (seg : string) : list string :=
  if (seg =? "") || (seg =? ".") then res
  else if seg =? ".." then
    match res with
    | [] => if allowAboveRoot then [".."] else []
    | top :: rest =>
        if top =? ".." then (if allowAboveRoot then ".." :: res else res)
        else rest
    end
  else seg :: res.

(** [normalizeString]: resolves [.] and [..] segments and drops empty ones;
    returns the segments that remain, in order. *)
Definition normalizeString (segs : list string) (allowAboveRoot : bool)
  : list string :=
  rev (fold_left (normalize_step allowAboveRoot) segs []).

(** [path.normalize] *)
Definition path_normalize (p : string) : string :=
  if p =? "" then "."
  else
    let abs := isAbsolute p in
    let trail := trailingSeparator p in
    let body := String.concat "/" (normalizeString (split_slash p) (negb abs)) in
    if body =? "" then
      (if abs then "/" else if trail then "./" else ".")
    else
      let body := if trail then (body ++ "/")%string else body in
      if abs then ("/" ++ body)%string else body.

(** [path.join]: the non-empty arguments joined by [/], then normalized. *)
Definition path_join (args : list string) : string :=
  match filter (fun a => negb (a =? "")) args with
  | [] => "."
  | parts => path_normalize (String.concat "/" parts)
  end.

(** [process.cwd()]: the working directory of the extension host.  Every path
    the extension handles is built from the absolute workspace root, so the
    choice is immaterial; the file system root is taken. *)
Definition process_cwd : string := "/".

(** The segments of [path.resolve(p)], from the file system root. *)
Definition resolve_segments (p : string) : list string :=
  if isAbsolute p then normalizeString (split_slash p) false
  else normalizeString (split_slash (process_cwd ++ "/" ++ p)%string) false.

(** [path.resolve] of one argument. *)
Definition path_resolve (p : string) : string :=
  ("/" ++ String.concat "/" (resolve_segments p))%string.

(** The two lists after their longest common prefix. *)
Fixpoint drop_common (l1 l2 : list string) : list string * list string :=
  match l1, l2 with
  | a :: l1', b :: l2' => if a =? b then drop_common l1' l2' else (l1, l2)
  | _, _ => (l1, l2)
  end.

(** [path.relative]: one [..] for every segment of [from] below the common
    ancestor, then the segments of [to] below it. *)
Definition path_relative (from to : string) : string :=
  let '(up, down) := drop_common (resolve_segments from) (resolve_segments to) in
  String.concat "/" (map (fun _ => "..") up ++ down).

Fixpoint string_of_chars (l : list ascii) : string :=
  match l with
  | [] => EmptyString
  | c :: l' => String c (string_of_chars l')
  end.

Fixpoint chars_of_string (s : string) : list ascii :=
  match s with
  | EmptyString => []
  | String c s' => c :: chars_of_string s'
  end.

Fixpoint drop_while {A : Type} (f : A -> bool) (l : list A) : list A :=
  match l with
  | [] => []
  | a :: l' => if f a then drop_while f l' else l
  end.

Fixpoint take_while {A : Type} (f : A -> bool) (l : list A) : list A :=
  match l with
  | [] => []
  | a :: l' => if f a then a :: take_while f l' else []
  end.

Definition is_slash (c : ascii) : bool := Ascii.eqb c slash.

(** [path.dirname]: the path up to the separator before its last segment;
    the scan runs from the right and never looks at the first character. *)
Definition path_dirname (p : string) : string :=
  match p with
  | EmptyString => "."
  | String c0 rest =>
      let hasRoot := is_slash c0 in
      let r := drop_while is_slash (rev (chars_of_string rest)) in
      match drop_while (fun c => negb (is_slash c)) r with
      | [] => if hasRoot then "/" else "."
      | _ :: before =>
          if hasRoot && (length before =? 0)%nat then "//"
          else String c0 (string_of_chars (rev before))
      end
  end.

(** [path.basename]: the last segment, trailing separators ignored. *)
Definition path_basename (p : string) : string :=
  let r := drop_while is_slash (rev (chars_of_string p)) in
  string_of_chars (rev (take_while (fun c => negb (is_slash c)) r)).

(** [String.prototype.startsWith] and [endsWith] *)
Definition startsWith (s pre : string) : bool := String.prefix pre s.

Definition endsWith (s suf : string) : bool :=
  String.prefix (string_of_chars (rev (chars_of_string suf)))
                (string_of_chars (rev (chars_of_string s))).

(** ** The [fs] module

    The disk is a tree of named entries; a directory lists its entries in the
    order [readdirSync] reports them.  Files carry their text.  The disk
    holds regular files and directories only: symbolic links, permissions
    and devices are not part of it.  A listed name can therefore always be
    inspected, and no directory is reached twice; on a disk with links
    neither need hold.  The properties of the merge are for that reason
    stated for the merges that return, and none of them says that a merge
    returns or how deep it goes. *)

Inductive entry : Type :=
| File (content : string)
| Dir (entries : list (string * entry)).

Fixpoint find_child (name : string) (es : list (string * entry))
  : option entry :=
  match es with
  | [] => None
  | (n, e) :: es' => if n =? name then Some e else find_child name es'
  end.

Fixpoint walk (e : entry) (segs : list string) : option entry :=
  match segs with
  | [] => Some e
  | s :: segs' =>
      match e with
      | Dir es =>
          match find_child s es with
          | Some c => walk c segs'
          | None => None
          end
      | File _ => None
      end
  end.

Definition fs_lookup (disk : entry) (p : string) : option entry :=
  walk disk (resolve_segments p).

(** The error of a lookup that fails: [ENOTDIR] where a regular file stands
    in the way, [ENOENT] where a name is missing. *)
Fixpoint walk_error (e : entry) (segs : list string) : error :=
  match segs with
  | [] => ENOENT
  | s :: segs' =>
      match e with
      | File _ => ENOTDIR
      | Dir es =>
          match find_child s es with
          | Some c => walk_error c segs'
          | None => ENOENT
          end
      end
  end.

(** What a path leads to, as the system calls resolve it: the empty path
    leads nowhere, and a path written with a trailing separator leads to
    nothing but a directory. *)
Definition fs_stat (disk : entry) (p : string) : result entry :=
  if p =? "" then Throw ENOENT
  else
    match fs_lookup disk p with
    | Some (Dir es) => Ok (Dir es)
    | Some (File c) =>
        if trailingSeparator p then Throw ENOTDIR else Ok (File c)
    | None => Throw (walk_error disk (resolve_segments p))
    end.

Definition existsSync (disk : entry) (p : string) : bool :=
  match fs_stat disk p with
  | Ok _ => true
  | Throw _ | OutOfFuel => false
  end.

Record Stats : Type := { stats_isDirectory : bool }.

Definition statSync (disk : entry) (p : string) : result Stats :=
  e <- fs_stat disk p ;;
  match e with
  | Dir _ => Ok {| stats_isDirectory := true |}
  | File _ => Ok {| stats_isDirectory := false |}
  end.

Definition readdirSync (disk : entry) (p : string) : result (list string) :=
  e <- fs_stat disk p ;;
  match e with
  | Dir es => Ok (map fst es)
  | File _ => Throw ENOTDIR
  end.

Record Dirent : Type :=
  { dirent_name : string; dirent_isFile : bool; dirent_isDirectory : bool }.

Definition dirent_of (ne : string * entry) : Dirent :=
  match snd ne with
  | File _ => {| dirent_name := fst ne; dirent_isFile := true;
                 dirent_isDirectory := false |}
  | Dir _ => {| dirent_name := fst ne; dirent_isFile := false;
                dirent_isDirectory := true |}
  end.

(** [fs.readdirSync(dir, { withFileTypes: true })] *)
Definition readdirSync_withFileTypes (disk : entry) (p : string)
  : result (list Dirent) :=
  e <- fs_stat disk p ;;
  match e with
  | Dir es => Ok (map dirent_of es)
  | File _ => Throw ENOTDIR
  end.

Definition readFileSync (disk : entry) (p : string) : result string :=
  e <- fs_stat disk p ;;
  match e with
  | File c => Ok c
  | Dir _ => Throw EISDIR
  end.

Fixpoint set_child (name : string) (c : entry) (es : list (string * entry))
  : list (string * entry) :=
  match es with
  | [] => []
  | (n, e) :: es' =>
      if n =? name then (n, c) :: es' else (n, e) :: set_child name c es'
  end.

Fixpoint remove_child (name : string) (es : list (string * entry))
  : list (string * entry) :=
  match es with
  | [] => []
  | (n, e) :: es' =>
      if n =? name then es' else (n, e) :: remove_child name es'
  end.

(** [fs.mkdirSync(p, { recursive: true })] along the segments of [p]. *)
Fixpoint mkdir_segments (e : entry) (segs : list string) : result entry :=
  match segs with
  | [] => match e with
          | Dir _ => Ok e
          | File _ => Throw EEXIST
          end
  | s :: segs' =>
      match e with
      | File _ => Throw ENOTDIR
      | Dir es =>
          match find_child s es with
          | Some c =>
              c' <- mkdir_segments c segs' ;; Ok (Dir (set_child s c' es))
          | None =>
              c' <- mkdir_segments (Dir []) segs' ;; Ok (Dir (es ++ [(s, c')]))
          end
      end
  end.

Definition mkdirSync_recursive (disk : entry) (p : string) : result entry :=
  if p =? "" then Throw ENOENT
  else mkdir_segments disk (resolve_segments p).

(** [fs.writeFileSync(p, text, 'utf8')] along the segments of [p]. *)
Fixpoint write_segments (e : entry) (segs : list string) (text : string)
  : result entry :=
  match segs with
  | [] => match e with
          | File _ => Ok (File text)
          | Dir _ => Throw EISDIR
          end
  | s :: segs' =>
      match e with
      | File _ => Throw ENOTDIR
      | Dir es =>
          match find_child s es with
          | Some c =>
              c' <- write_segments c segs' text ;; Ok (Dir (set_child s c' es))
          | None =>
              match segs' with
              | [] => Ok (Dir (es ++ [(s, File text)]))
              | _ :: _ => Throw ENOENT
              end
          end
      end
  end.

Definition writeFileSync (disk : entry) (p text : string) : result entry :=
  if p =? "" then Throw ENOENT
  else
    d <- write_segments disk (resolve_segments p) text ;;
    if trailingSeparator p then
      Throw (match fs_lookup disk p with
             | Some (File _) => ENOTDIR
             | Some (Dir _) | None => EISDIR
             end)
    else Ok d.

(** Removal of the entry at the end of the segments: of a directory with all
    it holds ([wantDir]), or of a file. *)
Fixpoint remove_segments (wantDir : bool) (e : entry) (segs : list string)
  : result entry :=
  match segs with
  | [] => Throw EBUSY
  | s :: segs' =>
      match e with
      | File _ => Throw ENOTDIR
      | Dir es =>
          match find_child s es with
          | None => Throw ENOENT
          | Some c =>
              match segs' with
              | [] =>
                  match c with
                  | Dir _ => if wantDir then Ok (Dir (remove_child s es))
                             else Throw EISDIR
                  | File _ => if wantDir then Throw ENOTDIR
                              else Ok (Dir (remove_child s es))
                  end
              | _ :: _ =>
                  c' <- remove_segments wantDir c segs' ;;
                  Ok (Dir (set_child s c' es))
              end
          end
      end
  end.

(** [fs.rmdirSync(p, { recursive: true })] *)
Definition rmdirSync_recursive (disk : entry) (p : string) : result entry :=
  _ <- fs_stat disk p ;;
  remove_segments true disk (resolve_segments p).

(** [fs.unlinkSync(p)] *)
Definition unlinkSync (disk : entry) (p : string) : result entry :=
  _ <- fs_stat disk p ;;
  remove_segments false disk (resolve_segments p).

(** The number of directory levels below an entry. *)
Fixpoint height (e : entry) : nat :=
  match e with
  | File _ => 0
  | Dir es =>
      S ((fix heights (l : list (string * entry)) : nat :=
            match l with
            | [] => 0
            | (_, c) :: l' => Nat.max (height c) (heights l')
            end) es)
  end.

(** What a directory listing never holds: the empty name, [.], [..], a name
    with a separator in it, or the same name twice. *)
Definition valid_name (n : string) : bool :=
  negb (n =? "") && negb (n =? ".") && negb (n =? "..")
  && negb (existsb is_slash (chars_of_string n)).

Fixpoint mem_string (s : string) (l : list string) : bool :=
  match l with
  | [] => false
  | x :: l' => (x =? s) || mem_string s l'
  end.

Fixpoint nodup_strings (l : list string) : bool :=
  match l with
  | [] => true
  | x :: l' => negb (mem_string x l') && nodup_strings l'
  end.

Fixpoint wf_entry (e : entry) : bool :=
  match e with
  | File _ => true
  | Dir es =>
      forallb valid_name (map fst es) && nodup_strings (map fst es)
      && (fix wf_all (l : list (string * entry)) : bool :=
            match l with
            | [] => true
            | (_, c) :: l' => wf_entry c && wf_all l'
            end) es
  end.

Definition wf_disk (disk : entry) : bool :=
  match disk with
  | Dir _ => wf_entry disk
  | File _ => false
  end.

(** ** Tree items *)

Inductive TreeItemCollapsibleState : Type :=
| CollapsibleNone
| Collapsed
| Expanded.

Record Command : Type :=
  { cmd_command : string; cmd_title : string; cmd_arguments : list string }.

(** The transient [_mergePaths] property: never set on a file item, an array
    on a directory item while its level is scanned, [null] afterwards. *)
Inductive MergePaths : Type :=
| mp_undefined
| mp_null
| mp_array (paths : list string).

(** A [vscode.TreeItem] with the properties the extension adds to it.  A
    [resourceUri] is held as its [fsPath]. *)
Inductive TreeItem : Type :=
  mkTreeItem {
    label : string;
    collapsibleState : TreeItemCollapsibleState;
    resourceUri : option string;
    command : option Command;
    _mergePaths : MergePaths;
    children : option (list TreeItem);
    _fccwPath : option string
  }.

(** [new vscode.TreeItem(label, collapsibleState)] *)
Definition new_TreeItem (l : string) (c : TreeItemCollapsibleState) : TreeItem :=
  {| label := l; collapsibleState := c; resourceUri := None; command := None;
     _mergePaths := mp_undefined; children := None; _fccwPath := None |}.

Definition set_resourceUri (it : TreeItem) (p : string) : TreeItem :=
  {| label := label it; collapsibleState := collapsibleState it;
     resourceUri := Some p; command := command it;
     _mergePaths := _mergePaths it; children := children it;
     _fccwPath := _fccwPath it |}.

Definition set_command (it : TreeItem) (c : Command) : TreeItem :=
  {| label := label it; collapsibleState := collapsibleState it;
     resourceUri := resourceUri it; command := Some c;
     _mergePaths := _mergePaths it; children := children it;
     _fccwPath := _fccwPath it |}.

Definition set_mergePaths (it : TreeItem) (m : MergePaths) : TreeItem :=
  {| label := label it; collapsibleState := collapsibleState it;
     resourceUri := resourceUri it; command := command it;
     _mergePaths := m; children := children it;
     _fccwPath := _fccwPath it |}.

Definition set_children (it : TreeItem) (cs : list TreeItem) : TreeItem :=
  {| label := label it; collapsibleState := collapsibleState it;
     resourceUri := resourceUri it; command := command it;
     _mergePaths := _mergePaths it; children := Some cs;
     _fccwPath := _fccwPath it |}.

Definition set_fccwPath (it : TreeItem) (p : string) : TreeItem :=
  {| label := label it; collapsibleState := collapsibleState it;
     resourceUri := resourceUri it; command := command it;
     _mergePaths := _mergePaths it; children := children it;
     _fccwPath := Some p |}.

(** ** A JavaScript [Map] from names to items, in insertion order *)

Definition ItemMap : Type := list (string * TreeItem).

Fixpoint map_get (m : ItemMap) (k : string) : option TreeItem :=
  match m with
  | [] => None
  | (k', v) :: m' => if k' =? k then Some v else map_get m' k
  end.

Definition map_has (m : ItemMap) (k : string) : bool :=
  match map_get m k with
  | Some _ => true
  | None => false
  end.

(** [m.set(k, v)]: a known key keeps its place, a new key goes last. *)
Fixpoint map_set (m : ItemMap) (k : string) (v : TreeItem) : ItemMap :=
  match m with
  | [] => [(k, v)]
  | (k', v') :: m' =>
      if k' =? k then (k', v) :: m' else (k', v') :: map_set m' k v
  end.

Definition map_values (m : ItemMap) : list TreeItem := map snd m.

(** ** The parsed configuration *)

Module json.
(** The three fields the extension reads from a parsed [.fccw] file; a
    field is a string or is absent. *)
Record t : Type :=
  { sourceDirectory : option string;
    resourcesDirectory : option string;
    includeDirectory : option string }.
End json.

(** ** The tree data provider *)

Record FFHTMLTreeDataProvider : Type :=
  { workspaceRoot : string;
    sourceDirectory : string;
    includeDirectory : string;
    resourcesDirectory : string }.

(** [new FFHTMLTreeDataProvider(workspaceRoot)] *)
Definition constructor (root : string) : FFHTMLTreeDataProvider :=
  {| workspaceRoot := root;
     sourceDirectory := path_join [root; "web-src"];
     includeDirectory := path_join [root; "include"];
     resourcesDirectory := path_join [root; "res"] |}.

Section Provider.

(** The disk the provider reads, and [JSON.parse] followed by the reading
    of the three fields. *)
Variable disk : entry.
Variable JSON_parse : string -> result json.t.
Variable this : FFHTMLTreeDataProvider.

(** The item made for a name seen for the first time (lines 211-225). *)
Definition new_file_item (f filePath : string) (isDir : bool) : TreeItem :=
  let item :=
    new_TreeItem f (if isDir then Collapsed else CollapsibleNone) in
  let item := set_resourceUri item filePath in
  let item :=
    if negb isDir then
      set_command item {| cmd_command := "vscode.open";
                          cmd_title := "Open File";
                          cmd_arguments := [filePath] |}
    else item in
  if isDir then set_mergePaths item (mp_array [filePath]) else item.

(** The callback of [files.forEach] (lines 202-226). *)
Definition scan_file (folderPath : string) (merged : ItemMap) (f : string)
  : result ItemMap :=
  let filePath := path_join [folderPath; f] in
  st <- statSync disk filePath ;;
  let isDir := stats_isDirectory st in
  match map_get merged f with
  | Some seen =>
      if isDir then
        match _mergePaths seen with
        | mp_array paths =>
            Ok (map_set merged f
                  (set_mergePaths seen (mp_array (paths ++ [filePath]))))
        | mp_undefined | mp_null => Throw TypeError
        end
      else Ok merged
  | None => Ok (map_set merged f (new_file_item f filePath isDir))
  end.

Definition folderPath_of (isFullPath : bool) (folderName : string) : string :=
  if isFullPath then folderName
  else path_join [workspaceRoot this; folderName].

(** The callback of [folderNames.forEach] (lines 196-227). *)
Definition scan_folder (isFullPath : bool) (merged : ItemMap)
  (folderName : option string) : result ItemMap :=
  match folderName with
  | None => Ok merged
  | Some name =>
      if name =? "" then Ok merged
      else
        let folderPath := folderPath_of isFullPath name in
        if negb (existsSync disk folderPath) then Ok merged
        else
          files <- readdirSync disk folderPath ;;
          forEach (scan_file folderPath) files merged
  end.

(** The body of the closing loop (lines 229-235), given the recursive
    call. *)
Definition expand_item
  (recur : list (option string) -> bool -> result (list TreeItem))
  (kv : string * TreeItem) : result (string * TreeItem) :=
  match _mergePaths (snd kv) with
  | mp_array paths =>
      cs <- recur (map Some paths) true ;;
      Ok (fst kv, set_children (set_mergePaths (snd kv) mp_null) cs)
  | mp_undefined | mp_null => Ok kv
  end.

(** [_getFilesFromFolders(folderNames, isFullPath)]: every caller passes an
    array, whose elements are strings or undefined. *)
Fixpoint _getFilesFromFolders (fuel : nat)
  (folderNames : list (option string)) (isFullPath : bool)
  : result (list TreeItem) :=
  match fuel with
  | 0 => OutOfFuel
  | S fuel' =>
      merged <- forEach (scan_folder isFullPath) folderNames [] ;;
      merged <- mapM (expand_item (_getFilesFromFolders fuel')) merged ;;
      Ok (map_values merged)
  end.

(** [_findFCCWFiles(dir)] *)
Fixpoint _findFCCWFiles (fuel : nat) (dir : string) : result (list string) :=
  match fuel with
  | 0 => OutOfFuel
  | S fuel' =>
      items <- readdirSync_withFileTypes disk dir ;;
      forEach
        (fun fccwFiles item =>
           let fullPath := path_join [dir; dirent_name item] in
           if dirent_isFile item && endsWith (dirent_name item) ".fccw"
           then Ok (fccwFiles ++ [fullPath])
           else if dirent_isDirectory item then
             found <- _findFCCWFiles fuel' fullPath ;;
             Ok (fccwFiles ++ found)
           else Ok fccwFiles)
        items []
  end.

(** [_getFoldersFromConfig(json)] *)
Definition _getFoldersFromConfig (fuel : nat) (j : json.t)
  : result (list TreeItem) :=
  sections <-
    (if truthy (json.sourceDirectory j) || truthy (json.resourcesDirectory j)
     then
       cs <- _getFilesFromFolders fuel
               [json.sourceDirectory j; json.resourcesDirectory j] false ;;
       Ok [set_children (new_TreeItem "Combined source" Collapsed) cs]
     else Ok []) ;;
  if truthy (json.includeDirectory j) then
    cs <- _getFilesFromFolders fuel [json.includeDirectory j] false ;;
    Ok (sections ++ [set_children (new_TreeItem "Includes" Collapsed) cs])
  else Ok sections.

(** The sections of the configuration file at [fccwPath]. *)
Definition sections_of_file (fuel : nat) (fccwPath : string)
  : result (list TreeItem) :=
  text <- readFileSync disk fccwPath ;;
  j <- JSON_parse text ;;
  _getFoldersFromConfig fuel j.

(** The item shown for one of several configuration files (lines 142-147). *)
Definition config_item (file : string) : TreeItem :=
  set_fccwPath (new_TreeItem (path_basename file) Collapsed) file.

(** [getChildren(element)] *)
Definition getChildren (fuel : nat) (element : option TreeItem)
  : result (list TreeItem) :=
  if workspaceRoot this =? "" then Ok []
  else
    match element with
    | None =>
        fccwFiles <- _findFCCWFiles fuel (workspaceRoot this) ;;
        match fccwFiles with
        | [] =>
            Ok [new_TreeItem "No .fccw workspace found" CollapsibleNone]
        | [fccwPath] => sections_of_file fuel fccwPath
        | _ :: _ :: _ => Ok (map config_item fccwFiles)
        end
    | Some el =>
        if truthy (_fccwPath el) then
          match _fccwPath el with
          | Some p => sections_of_file fuel p
          | None => Ok []
          end
        else
          match children el with
          | Some cs => Ok cs
          | None => Ok []
          end
    end.

End Provider.

(** ** The file commands *)

(** The second argument the three create commands pass (lines 22-24). *)
Inductive FileType : Type :=
| resource
| source
| include.

Definition type_string (type : FileType) : string :=
  match type with
  | resource => "resource"
  | source => "source"
  | include => "include"
  end.

(** What the commands act on: the disk, the module-level [treeProvider], the
    information messages shown so far and the number of change events
    fired. *)
Record World : Type :=
  { disk_of : entry;
    treeProvider : FFHTMLTreeDataProvider;
    messages : list string;
    fired : nat }.

Definition with_disk (w : World) (d : entry) : World :=
  {| disk_of := d; treeProvider := treeProvider w;
     messages := messages w; fired := fired w |}.

(** [vscode.window.showInformationMessage(msg)] *)
Definition showInformationMessage (w : World) (msg : string) : World :=
  {| disk_of := disk_of w; treeProvider := treeProvider w;
     messages := messages w ++ [msg]; fired := fired w |}.

(** [treeProvider.refresh()] *)
Definition refresh (w : World) : World :=
  {| disk_of := disk_of w; treeProvider := treeProvider w;
     messages := messages w; fired := S (fired w) |}.

(** Lines 53-56. *)
Definition baseDir_of (tp : FFHTMLTreeDataProvider) (type : FileType) : string :=
  match type with
  | resource => resourcesDirectory tp
  | source => sourceDirectory tp
  | include => includeDirectory tp
  end.

(** Lines 64-67. *)
Definition elementTypeDir_of (tp : FFHTMLTreeDataProvider) (fsPath : string)
  : option string :=
  if startsWith fsPath (sourceDirectory tp) then Some (sourceDirectory tp)
  else if startsWith fsPath (resourcesDirectory tp)
       then Some (resourcesDirectory tp)
  else if startsWith fsPath (includeDirectory tp)
       then Some (includeDirectory tp)
  else None.

(** The value of [targetDir] when line 80 is reached (lines 53-78). *)
Definition targetDir_of (disk : entry) (tp : FFHTMLTreeDataProvider)
  (element : option TreeItem) (type : FileType) : result string :=
  let baseDir := baseDir_of tp type in
  match element with
  | None => Ok baseDir
  | Some el =>
      match resourceUri el with
      | None => Ok baseDir
      | Some fsPath =>
          stats <- statSync disk fsPath ;;
          match elementTypeDir_of tp fsPath with
          | Some elementTypeDir =>
              let rel :=
                path_relative elementTypeDir
                  (if stats_isDirectory stats then fsPath
                   else path_dirname fsPath) in
              Ok (path_join [baseDir; rel])
          | None =>
              if stats_isDirectory stats then Ok fsPath
              else Ok (path_dirname fsPath)
          end
      end
  end.

Definition targetPath_of (targetDir fileName : string) : string :=
  path_join [targetDir; fileName].

(** [createFilePrompt(element, type)]; [fileName] is what the input box
    resolves to, undefined when it is dismissed.  The world returned with a
    throw is the one the throw leaves behind. *)
Definition createFilePrompt (w : World) (element : option TreeItem)
  (type : FileType) (fileName : option string) : World * result unit :=
  match fileName with
  | None => (w, Ok tt)
  | Some name =>
      if name =? "" then (w, Ok tt)
      else
        match targetDir_of (disk_of w) (treeProvider w) element type with
        | Ok targetDir =>
            let targetPath := targetPath_of targetDir name in
            match mkdirSync_recursive (disk_of w) (path_dirname targetPath) with
            | Ok d1 =>
                match writeFileSync d1 targetPath "" with
                | Ok d2 =>
                    let w := with_disk w d2 in
                    let w :=
                      showInformationMessage w
                        (type_string type ++ " file created: " ++ targetPath)%string
                    in
                    (refresh w, Ok tt)
                | Throw e => (with_disk w d1, Throw e)
                | OutOfFuel => (with_disk w d1, OutOfFuel)
                end
            | Throw e => (w, Throw e)
            | OutOfFuel => (w, OutOfFuel)
            end
        | Throw e => (w, Throw e)
        | OutOfFuel => (w, OutOfFuel)
        end
  end.

(** [deleteFilePrompt(element)]; [confirm] is what the warning dialog
    resolves to, undefined when it is dismissed. *)
Definition deleteFilePrompt (w : World) (element : option TreeItem)
  (confirm : option string) : World * result unit :=
  match element with
  | None => (w, Ok tt)
  | Some el =>
      match resourceUri el with
      | None => (w, Ok tt)
      | Some fsPath =>
          match confirm with
          | None => (w, Ok tt)
          | Some answer =>
              if negb (answer =? "Delete") then (w, Ok tt)
              else
                match statSync (disk_of w) fsPath with
                | Ok stats =>
                    match (if stats_isDirectory stats
                           then rmdirSync_recursive (disk_of w) fsPath
                           else unlinkSync (disk_of w) fsPath) with
                    | Ok d =>
                        let w := with_disk w d in
                        let w :=
                          showInformationMessage w (fsPath ++ " deleted.")%string
                        in
                        (refresh w, Ok tt)
                    | Throw e => (w, Throw e)
                    | OutOfFuel => (w, OutOfFuel)
                    end
                | Throw e => (w, Throw e)
                | OutOfFuel => (w, OutOfFuel)
                end
          end
      end
  end.

(** ** Sample disks *)

(** A workspace [/ws] with [web-src/a/x.txt] and [res/a/y.txt]. *)
Definition disk_two_roots : entry :=
  Dir [("ws",
        Dir [("web-src", Dir [("a", Dir [("x.txt", File "")])]);
             ("res", Dir [("a", Dir [("y.txt", File "")])])])].

(** A workspace [/ws] where [n] is a file under [web-src] and a directory
    under [res]. *)
Definition disk_file_then_dir : entry :=
  Dir [("ws",
        Dir [("web-src", Dir [("n", File "")]);
             ("res", Dir [("n", Dir [("y.txt", File "")])])])].

(** A workspace [/ws] where [n] is a file under [r1] and a directory under
    [r2] and under [r3]. *)
Definition disk_file_then_two_dirs : entry :=
  Dir [("ws",
        Dir [("r1", Dir [("n", File "")]);
             ("r2", Dir [("n", Dir [("p.txt", File "")])]);
             ("r3", Dir [("n", Dir [("q.txt", File "")])])])].

(** A workspace [/ws] where [m] is a directory under [r1] and under [r2],
    beside [n], which is a file under [r1] and a directory under [r2]. *)
Definition disk_dirs_beside_clash : entry :=
  Dir [("ws",
        Dir [("r1", Dir [("m", Dir [("a.txt", File "")]); ("n", File "")]);
             ("r2", Dir [("m", Dir [("b.txt", File "")]); ("n", Dir [])])])].

(** A workspace [/ws] with the resources root [res] and a sibling directory
    [res-extra]. *)
Definition disk_res_extra : entry :=
  Dir [("ws",
        Dir [("res", Dir [("a.txt", File "")]);
             ("res-extra", Dir [("sub", Dir []); ("b.txt", File "")])])].

(** A workspace [/ws] with two configuration files, [a.fccw] at the top and
    [b.fccw] one directory down. *)
Definition disk_two_configs : entry :=
  Dir [("ws",
        Dir [("a.fccw", File "custom");
             ("sub", Dir [("b.fccw", File "custom")]);
             ("src", Dir [("main.html", File "")])])].

(** A workspace [/ws] whose configuration file names [src], [assets] and
    [inc] instead of the default directories. *)
Definition disk_custom_config : entry :=
  Dir [("ws",
        Dir [("project.fccw", File "custom");
             ("src", Dir [("main.html", File "")]);
             ("assets", Dir []);
             ("inc", Dir [])])].

Definition custom_config : json.t :=
  {| json.sourceDirectory := Some "src";
     json.resourcesDirectory := Some "assets";
     json.includeDirectory := Some "inc" |}.

(** A [JSON.parse] that knows the text of [project.fccw]. *)
Definition sample_JSON_parse (text : string) : result json.t :=
  if text =? "custom" then Ok custom_config else Throw SyntaxError.

(** ** The extension as the host drives it *)

(** [activate(context)]: without a workspace root nothing is set up. *)
Definition activate (rootPath : option string) (disk : entry) : option World :=
  match rootPath with
  | Some root =>
      if root =? "" then None
      else Some {| disk_of := disk; treeProvider := constructor root;
                   messages := []; fired := 0 |}
  | None => None
  end.

(** What can happen after activation: one of the registered commands, with
    the answer the user gives to its prompt, or a change of the disk made
    elsewhere (new or edited configuration files included). *)
Inductive Event : Type :=
| ev_create (type : FileType) (element : option TreeItem)
    (fileName : option string)
| ev_delete (element : option TreeItem) (confirm : option string)
| ev_reload
| ev_disk_changed (d : entry).

Definition handle (w : World) (ev : Event) : World :=
  match ev with
  | ev_create type element fileName =>
      fst (createFilePrompt w element type fileName)
  | ev_delete element confirm => fst (deleteFilePrompt w element confirm)
  | ev_reload => refresh w
  | ev_disk_changed d => with_disk w d
  end.

Definition run (w : World) (evs : list Event) : World := fold_left handle evs w.

(** ** Notions used to state the properties of the merge *)

Section MergeNotions.

Variable disk : entry.
Variable this : FFHTMLTreeDataProvider.
Variable isFullPath : bool.

(** The root names a directory or file that is on the disk. *)
Definition root_exists (r : option string) : bool :=
  match r with
  | Some n => existsSync disk (folderPath_of this isFullPath n)
  | None => false
  end.

Definition listing (p : string) : list string :=
  match readdirSync disk p with
  | Ok files => files
  | Throw _ | OutOfFuel => []
  end.

(** The root is scanned and has an entry called [name]. *)
Definition root_lists (name : string) (r : option string) : bool :=
  match r with
  | Some n =>
      negb (n =? "")
      && existsSync disk (folderPath_of this isFullPath n)
      && mem_string name (listing (folderPath_of this isFullPath n))
  | None => false
  end.

(** The path of the first root, in the order given, with an entry called
    [name]. *)
Definition first_root_with (name : string) (roots : list (option string))
  : option string :=
  match find (root_lists name) roots with
  | Some (Some n) => Some (folderPath_of this isFullPath n)
  | Some None | None => None
  end.

Definition is_directory (p : string) : bool :=
  match fs_lookup disk p with
  | Some (Dir _) => true
  | Some (File _) | None => false
  end.

Definition is_file (p : string) : bool :=
  match fs_lookup disk p with
  | Some (File _) => true
  | Some (Dir _) | None => false
  end.

(** The paths of the directories called [name], one for every root that has
    one, in the order of the roots. *)
Definition contributing_paths (name : string) (roots : list (option string))
  : list string :=
  flat_map
    (fun r =>
       match r with
       | Some n =>
           let p := path_join [folderPath_of this isFullPath n; name] in
           if root_lists name r && is_directory p then [p] else []
       | None => []
       end)
    roots.

End MergeNotions.

(** [p] is the directory [root] or lies below it. *)
Definition inside (root p : string) : Prop :=
  p = root \/ startsWith p (root ++ "/")%string = true.

(** The item with no affordance: a leaf, with no command, no path and no
    children. *)
Definition non_actionable (it : TreeItem) : Prop :=
  collapsibleState it = CollapsibleNone /\ command it = None
  /\ resourceUri it = None /\ children it = None /\ _fccwPath it = None.

(** A section of the tree as the sections are shown: collapsed, holding its
    children, with no path, no command and no configuration path. *)
Definition section_item (l : string) (cs : list TreeItem) : TreeItem :=
  {| label := l; collapsibleState := Collapsed; resourceUri := None;
     command := None; _mergePaths := mp_undefined; children := Some cs;
     _fccwPath := None |}.

(** [items] are the sections of the configuration [j]: "Combined source",
    holding the merge of the source and resources directories, then
    "Includes", holding the merge of the include directory; a section is
    there when one of its fields holds a non-empty string. *)
Definition configured_sections (disk : entry) (this : FFHTMLTreeDataProvider)
  (fuel : nat) (j : json.t) (items : list TreeItem) : Prop :=
  exists cs1 cs2,
    (truthy (json.sourceDirectory j) || truthy (json.resourcesDirectory j)
     = true ->
     _getFilesFromFolders disk this fuel
       [json.sourceDirectory j; json.resourcesDirectory j] false = Ok cs1)
    /\ (truthy (json.includeDirectory j) = true ->
        _getFilesFromFolders disk this fuel [json.includeDirectory j] false
        = Ok cs2)
    /\ items
       = (if truthy (json.sourceDirectory j)
             || truthy (json.resourcesDirectory j)
          then [section_item "Combined source" cs1] else [])
         ++ (if truthy (json.includeDirectory j)
             then [section_item "Includes" cs2] else []).

(** ** The scan as a sequence of sightings

    A sighting is a name together with the folder path it was listed under;
    the scan of a level makes its sightings root by root, name by name. *)

Fixpoint first_seen (name : string) (seen : list (string * string))
  : option string :=
  match seen with
  | [] => None
  | (r, n) :: seen' => if n =? name then Some r else first_seen name seen'
  end.

Definition sightings_in (folderPath : string) (files : list string)
  : list (string * string) :=
  map (fun f => (folderPath, f)) files.

Definition sightings_of (disk : entry) (this : FFHTMLTreeDataProvider)
  (isFullPath : bool) (r : option string) : list (string * string) :=
  match r with
  | Some n =>
      if negb (n =? "") && existsSync disk (folderPath_of this isFullPath n)
      then sightings_in (folderPath_of this isFullPath n)
             (listing disk (folderPath_of this isFullPath n))
      else []
  | None => []
  end.

(** What the scan maintains: every name sighted has an item, and every item
    carries its name as label and the path under the folder of its first
    sighting. *)
Definition scan_inv (seen : list (string * string)) (merged : ItemMap) : Prop :=
  (forall k, map_get merged k = None -> ~ In k (map snd seen))
  /\ (forall k v, In (k, v) merged ->
        label v = k
        /\ exists r, first_seen k seen = Some r
                     /\ resourceUri v = Some (path_join [r; k])).

(** ** Shapes of path strings *)

Definition no_slash (s : string) : bool :=
  negb (existsb is_slash (chars_of_string s)).

(** [segs] joined by separators, with a separator after each of them. *)
Fixpoint with_separators (segs : list string) : string :=
  match segs with
  | [] => ""
  | s :: segs' => (s ++ "/" ++ with_separators segs')%string
  end.

(** The separator an absolute path starts with. *)
Definition root_prefix (p : string) : string :=
  if isAbsolute p then "/" else "".

(** The height of what a path leads to; nothing has no height. *)
Definition height_at (disk : entry) (p : string) : nat :=
  match fs_lookup disk p with
  | Some e => height e
  | None => 0
  end.

(** What the scan maintains about the directory items: each holds at least
    one contributing path, and each of these leads strictly less deep than
    [bound]. *)
Definition paths_inv (disk : entry) (bound : nat) (merged : ItemMap) : Prop :=
  forall k v paths,
    In (k, v) merged -> _mergePaths v = mp_array paths ->
    paths <> [] /\ forall p, In p paths -> height_at disk p < bound.

(** The absolute path with the given segments. *)
Definition abs_path (segs : list string) : string :=
  ("/" ++ String.concat "/" segs)%string.

(** The directory a creation falls back to for a node outside every
    category root (lines 73-77): the node when it is a directory, its parent
    when it is a file. *)
Definition own_directory (stats : Stats) (fsPath : string) : string :=
  if stats_isDirectory stats then fsPath else path_dirname fsPath.

(** The paths of the sightings of [name] that are directories, in the order
    of the sightings. *)
Definition dir_paths (disk : entry) (name : string)
  (seen : list (string * string)) : list string :=
  flat_map
    (fun rn =>
       if (snd rn =? name) && is_directory disk (path_join [fst rn; snd rn])
       then [path_join [fst rn; snd rn]] else [])
    seen.

(** What the scan maintains about the kind of the items: names are keys
    once; the item of a name first sighted as a directory holds the paths of
    all its sightings as a directory; the item of a name first sighted as a
    file holds none, and the name was never sighted as a directory. *)
Definition merge_inv (disk : entry) (seen : list (string * string))
  (merged : ItemMap) : Prop :=
  NoDup (map fst merged)
  /\ (forall k, map_get merged k = None -> ~ In k (map snd seen))
  /\ (forall k v, map_get merged k = Some v ->
        label v = k
        /\ exists r,
             first_seen k seen = Some r
             /\ if is_directory disk (path_join [r; k])
                then _mergePaths v = mp_array (dir_paths disk k seen)
                else _mergePaths v = mp_undefined
                     /\ dir_paths disk k seen = []).

(** ** Notions used to state further properties *)

(** The names of a list in the order of their first occurrence. *)
Definition first_occurrences (names : list string) : list string :=
  fold_left
    (fun acc n => if mem_string n acc then acc else acc ++ [n]) names [].

(** The names the scan of the roots meets, root by root, in listing order. *)
Definition scanned_names (disk : entry) (this : FFHTMLTreeDataProvider)
  (isFullPath : bool) (roots : list (option string)) : list string :=
  map snd (flat_map (sightings_of disk this isFullPath) roots).

(** The node of a file, as the merge returns it: a leaf that opens its own
    path. *)
Definition file_node (name path : string) : TreeItem :=
  {| label := name; collapsibleState := CollapsibleNone;
     resourceUri := Some path;
     command := Some {| cmd_command := "vscode.open";
                        cmd_title := "Open File";
                        cmd_arguments := [path] |};
     _mergePaths := mp_undefined; children := None; _fccwPath := None |}.

(** The node of a directory, as the merge returns it: collapsed, with its
    children computed and its contributing paths cleared. *)
Definition directory_node (name path : string) (cs : list TreeItem) : TreeItem :=
  {| label := name; collapsibleState := Collapsed;
     resourceUri := Some path; command := None;
     _mergePaths := mp_null; children := Some cs; _fccwPath := None |}.

(** What the scan maintains about the shape of the items. *)
Definition shape_inv (disk : entry) (merged : ItemMap) : Prop :=
  forall k v, In (k, v) merged ->
    exists p,
      (is_directory disk p = true
       /\ exists paths,
            v = set_mergePaths (new_file_item k p true) (mp_array paths))
      \/ (is_directory disk p = false /\ v = file_node k p).

(** What one entry of a listing adds to the configuration files found
    (the body of the loop of lines 163-170, given the recursive call). *)
Definition fccw_found (recur : string -> result (list string)) (dir : string)
  (item : Dirent) : result (list string) :=
  let fullPath := path_join [dir; dirent_name item] in
  if dirent_isFile item && endsWith (dirent_name item) ".fccw"
  then Ok [fullPath]
  else if dirent_isDirectory item then recur fullPath
  else Ok [].

(** The path reached from [dir] by joining the names one after the other. *)
Definition descend (dir : string) (names : list string) : string :=
  fold_left (fun p n => path_join [p; n]) names dir.

(** Two entries of the same kind: directories both, or files with the same
    text. *)
Definition same_kind (x y : entry) : Prop :=
  match x, y with
  | File c, File c' => c = c'
  | Dir _, Dir _ => True
  | File _, Dir _ | Dir _, File _ => False
  end.

(** [q] is [p] or lies below it, by resolved segments. *)
Definition below (p q : string) : Prop :=
  exists more, resolve_segments q = resolve_segments p ++ more.

(** The item holds no contributing path, or exactly one. *)
Definition at_most_one_path (v : TreeItem) : Prop :=
  _mergePaths v = mp_undefined \/ exists p, _mergePaths v = mp_array [p].

(** A regular file stands where the path needs a directory: the segments
    of the path go on beyond a regular file, or they lead to a regular file
    and the path is written with a trailing separator. *)
Definition file_in_the_way (disk : entry) (p : string) : Prop :=
  (exists segs more c,
     resolve_segments p = segs ++ more /\ more <> []
     /\ walk disk segs = Some (File c))
  \/ (exists c, fs_lookup disk p = Some (File c)
                /\ trailingSeparator p = true).

(** A workspace [/ws] whose resources hold a file with text in it and a
    directory two levels deep. *)
Definition disk_with_text : entry :=
  Dir [("ws",
        Dir [("res",
              Dir [("notes.txt", File "hello");
                   ("img", Dir [("icons", Dir [("x.png", File "png")])])]);
             ("web-src", Dir [("index.html", File "<html>")])])].

(** * Properties *)

(** ** The result monad and its loops *)

Lemma forEach_app {A S : Type} (f : S -> A -> result S) (l1 l2 : list A) (s : S) :
  forEach f (l1 ++ l2) s = (s' <- forEach f l1 s ;; forEach f l2 s').
Proof.
  revert s. induction l1 as [|a l1 IH]; intros s; simpl; [reflexivity|].
  destruct (f s a); simpl; auto.
Qed.

Lemma forEach_skip {A S : Type} (f : S -> A -> result S) (keep : A -> bool) :
  (forall s a, keep a = false -> f s a = Ok s) ->
  forall l s, forEach f (filter keep l) s = forEach f l s.
Proof.
  intros Hskip l. induction l as [|a l IH]; intros s; simpl; [reflexivity|].
  destruct (keep a) eqn:Hk; simpl.
  - destruct (f s a); simpl; auto.
  - rewrite (Hskip s a Hk). simpl. apply IH.
Qed.

Lemma forEach_invariant {A S : Type} (f : S -> A -> result S) (P : S -> Prop) :
  (forall s a s', P s -> f s a = Ok s' -> P s') ->
  forall l s s', P s -> forEach f l s = Ok s' -> P s'.
Proof.
  intros Hstep l. induction l as [|a l IH]; intros s s' Hs H; simpl in H.
  - now inversion H; subst.
  - destruct (f s a) as [s1| |] eqn:Hf; simpl in H; try discriminate.
    eapply IH; [|exact H]. eapply Hstep; eauto.
Qed.

Lemma mapM_Ok_Forall2 {A B : Type} (f : A -> result B) (l : list A) (bs : list B) :
  mapM f l = Ok bs -> Forall2 (fun a b => f a = Ok b) l bs.
Proof.
  revert bs. induction l as [|a l IH]; intros bs H; simpl in H.
  - inversion H; constructor.
  - destruct (f a) as [b| |] eqn:Hf; simpl in H; try discriminate.
    destruct (mapM f l) as [bs'| |]; simpl in H; try discriminate.
    inversion H; subst. constructor; auto.
Qed.

(** ** The [path] functions on well-formed names *)

Lemma append_nil_r (s : string) : (s ++ "")%string = s.
Proof. induction s as [|c s IH]; simpl; [reflexivity|now rewrite IH]. Qed.

Lemma append_assoc (a b c : string) :
  ((a ++ b) ++ c)%string = (a ++ (b ++ c))%string.
Proof. induction a as [|x a IH]; simpl; [reflexivity|now rewrite IH]. Qed.

Lemma split_slash_nonnil s : split_slash s <> [].
Proof.
  destruct s as [|c s]; simpl; [discriminate|].
  destruct (Ascii.eqb c slash); [discriminate|].
  destruct (split_slash s); discriminate.
Qed.

Lemma split_slash_app (a b : string) :
  split_slash (a ++ String slash b)%string = split_slash a ++ split_slash b.
Proof.
  induction a as [|c a IH]; simpl.
  - reflexivity.
  - destruct (Ascii.eqb c slash); [now rewrite IH|].
    rewrite IH. destruct (split_slash a) eqn:Ha; [|reflexivity].
    now apply split_slash_nonnil in Ha.
Qed.

Lemma split_slash_no_slash s : no_slash s = true -> split_slash s = [s].
Proof.
  unfold no_slash. induction s as [|c s IH]; simpl; [reflexivity|].
  unfold is_slash at 1. destruct (Ascii.eqb c slash); simpl; [discriminate|].
  intros H. now rewrite (IH H).
Qed.

Lemma split_slash_all_no_slash s : Forall (fun x => no_slash x = true) (split_slash s).
Proof.
  induction s as [|c s IH]; simpl.
  - constructor; [reflexivity|constructor].
  - destruct (Ascii.eqb c slash) eqn:Hc.
    + constructor; [reflexivity|exact IH].
    + destruct (split_slash s) as [|h t]; inversion IH; subst.
      * constructor; [|constructor]. unfold no_slash. simpl.
        unfold is_slash. now rewrite Hc.
      * constructor; [|assumption]. unfold no_slash in *. simpl.
        unfold is_slash at 1. rewrite Hc. simpl. assumption.
Qed.

Lemma valid_name_no_slash n : valid_name n = true -> no_slash n = true.
Proof.
  unfold valid_name, no_slash. rewrite !Bool.andb_true_iff. tauto.
Qed.

Lemma valid_name_step allow res n :
  valid_name n = true -> normalize_step allow res n = n :: res.
Proof.
  unfold valid_name, normalize_step. rewrite !Bool.andb_true_iff.
  rewrite !Bool.negb_true_iff. intros [[[H1 H2] H3] _].
  now rewrite H1, H2, H3.
Qed.

Lemma fold_valid_names allow names :
  Forall (fun n => valid_name n = true) names ->
  forall res, fold_left (normalize_step allow) names res = rev names ++ res.
Proof.
  induction 1 as [|n names Hn _ IH]; intros res; simpl; [reflexivity|].
  rewrite valid_name_step by exact Hn. rewrite IH, <- app_assoc. reflexivity.
Qed.

Lemma normalizeString_valid allow names :
  Forall (fun n => valid_name n = true) names ->
  normalizeString names allow = names.
Proof.
  intros H. unfold normalizeString. rewrite fold_valid_names by exact H.
  rewrite app_nil_r. apply rev_involutive.
Qed.

Lemma normalizeString_app allow segs more :
  normalizeString (segs ++ more) allow
  = rev (fold_left (normalize_step allow) more
           (rev (normalizeString segs allow))).
Proof.
  unfold normalizeString. now rewrite fold_left_app, rev_involutive.
Qed.

Lemma normalizeString_snoc allow segs n :
  valid_name n = true ->
  normalizeString (segs ++ [n]) allow = normalizeString segs allow ++ [n].
Proof.
  intros Hn. rewrite normalizeString_app. simpl.
  rewrite valid_name_step by exact Hn. simpl. now rewrite rev_involutive.
Qed.

Lemma step_dotdot_pop allow top rest :
  (top =? "..") = false -> normalize_step allow (top :: rest) ".." = rest.
Proof. intros H. unfold normalize_step. simpl. now rewrite H. Qed.

(** A segment with no separator in it is empty, a dot, two dots or a name. *)
Lemma no_slash_cases s :
  no_slash s = true ->
  s = "" \/ s = "." \/ s = ".." \/ valid_name s = true.
Proof.
  intros H. unfold valid_name. unfold no_slash in H. rewrite H.
  destruct (s =? "") eqn:H1; [apply String.eqb_eq in H1; auto|].
  destruct (s =? ".") eqn:H2; [apply String.eqb_eq in H2; auto|].
  destruct (s =? "..") eqn:H3; [apply String.eqb_eq in H3; auto|].
  auto.
Qed.

(** Normalizing with leading [..] kept differs from normalizing with them
    dropped by those leading segments only. *)
Lemma fold_allow_vs_strict segs :
  Forall (fun x => no_slash x = true) segs ->
  forall res k,
    Forall (fun n => valid_name n = true) res ->
    exists k',
      fold_left (normalize_step true) segs (res ++ repeat ".." k)
      = fold_left (normalize_step false) segs res ++ repeat ".." k'
      /\ Forall (fun n => valid_name n = true)
           (fold_left (normalize_step false) segs res).
Proof.
  induction 1 as [|s segs Hs _ IH]; intros res k Hres; simpl.
  - exists k. split; [reflexivity|exact Hres].
  - destruct (no_slash_cases s Hs) as [->|[->|[->|Hv]]].
    + apply IH; exact Hres.
    + apply IH; exact Hres.
    + destruct res as [|top rest].
      * simpl. destruct k as [|k].
        -- apply (IH [] 1). constructor.
        -- apply (IH [] (S (S k))). constructor.
      * inversion Hres as [|? ? Htop Hrest]; subst.
        assert (Hne : (top =? "..") = false).
        { destruct (top =? "..") eqn:E; [|reflexivity].
          apply String.eqb_eq in E. subst. discriminate. }
        simpl app. rewrite !step_dotdot_pop by exact Hne.
        apply IH; exact Hrest.
    + rewrite !valid_name_step by exact Hv.
      apply (IH (s :: res) k). constructor; assumption.
Qed.

Lemma fold_strict_dots k :
  fold_left (normalize_step false) (repeat ".." k) [] = [].
Proof. induction k as [|k IH]; simpl; [reflexivity|exact IH]. Qed.

Lemma rev_repeat {A : Type} (a : A) k : rev (repeat a k) = repeat a k.
Proof.
  induction k as [|k IH]; simpl; [reflexivity|].
  rewrite IH. clear IH. induction k as [|k IH]; simpl; [reflexivity|].
  now rewrite IH.
Qed.

Lemma normalizeString_strict_valid segs :
  Forall (fun x => no_slash x = true) segs ->
  Forall (fun n => valid_name n = true) (normalizeString segs false).
Proof.
  intros H. destruct (fold_allow_vs_strict segs H [] 0 (Forall_nil _))
    as [k [_ Hv]].
  unfold normalizeString. now apply Forall_rev.
Qed.

Lemma normalizeString_idem allow segs :
  Forall (fun x => no_slash x = true) segs ->
  normalizeString (normalizeString segs allow) false
  = normalizeString segs false.
Proof.
  intros H. destruct allow.
  - destruct (fold_allow_vs_strict segs H [] 0 (Forall_nil _)) as [k [Hk Hv]].
    simpl in Hk. unfold normalizeString at 2. rewrite Hk.
    rewrite rev_app_distr, rev_repeat.
    unfold normalizeString at 1. rewrite fold_left_app, fold_strict_dots.
    rewrite fold_valid_names by now apply Forall_rev.
    now rewrite app_nil_r, rev_involutive.
  - apply normalizeString_valid. now apply normalizeString_strict_valid.
Qed.

Lemma normalizeString_no_slash allow segs :
  Forall (fun x => no_slash x = true) segs ->
  Forall (fun x => no_slash x = true) (normalizeString segs allow).
Proof.
  intros H. destruct allow.
  - destruct (fold_allow_vs_strict segs H [] 0 (Forall_nil _)) as [k [Hk Hv]].
    simpl in Hk. unfold normalizeString. rewrite Hk. apply Forall_rev.
    apply Forall_app. split.
    + eapply Forall_impl; [|exact Hv]. apply valid_name_no_slash.
    + clear. induction k; simpl; constructor; auto.
  - eapply Forall_impl; [|now apply normalizeString_strict_valid].
    apply valid_name_no_slash.
Qed.

Lemma normalizeString_cons_empty allow segs :
  normalizeString ("" :: segs) allow = normalizeString segs allow.
Proof. reflexivity. Qed.

Lemma resolve_segments_eq p :
  resolve_segments p = normalizeString (split_slash p) false.
Proof.
  unfold resolve_segments. destruct (isAbsolute p); reflexivity.
Qed.

Lemma concat_cons (s : string) (segs : list string) :
  segs <> [] ->
  String.concat "/" (s :: segs) = (s ++ String slash (String.concat "/" segs))%string.
Proof. destruct segs; [congruence|reflexivity]. Qed.

Lemma concat_snoc (segs : list string) (s : string) :
  String.concat "/" (segs ++ [s]) = (with_separators segs ++ s)%string.
Proof.
  induction segs as [|x segs IH]; [reflexivity|].
  change ((x :: segs) ++ [s]) with (x :: (segs ++ [s])).
  rewrite concat_cons by (destruct segs; discriminate).
  rewrite IH. simpl. now rewrite append_assoc.
Qed.

Lemma split_slash_concat segs :
  Forall (fun x => no_slash x = true) segs -> segs <> [] ->
  split_slash (String.concat "/" segs) = segs.
Proof.
  induction 1 as [|s segs Hs Hsegs IH]; intros Hne; [congruence|].
  destruct segs as [|s' segs'].
  - simpl. now apply split_slash_no_slash.
  - rewrite concat_cons by discriminate. rewrite split_slash_app.
    rewrite IH by discriminate. now rewrite split_slash_no_slash.
Qed.

Lemma last_char_append (a b : string) :
  b <> "" -> last_char (a ++ b) = last_char b.
Proof.
  intros Hb. induction a as [|c a IH]; [reflexivity|].
  simpl. rewrite IH. destruct (a ++ b)%string eqn:E; [|reflexivity].
  destruct a; simpl in E; [congruence|discriminate].
Qed.

Lemma last_char_no_slash s c :
  no_slash s = true -> last_char s = Some c -> Ascii.eqb c slash = false.
Proof.
  unfold no_slash. induction s as [|x s IH]; simpl; [discriminate|].
  rewrite Bool.negb_orb, Bool.andb_true_iff. intros [Hx Hs].
  destruct s as [|y s'].
  - intros H; inversion H; subst. unfold is_slash in Hx.
    now apply Bool.negb_true_iff in Hx.
  - apply IH. exact Hs.
Qed.

Lemma trailingSeparator_name (a n : string) :
  valid_name n = true -> trailingSeparator (a ++ n) = false.
Proof.
  intros Hn. unfold trailingSeparator.
  assert (Hne : n <> "").
  { intros ->. discriminate. }
  rewrite last_char_append by exact Hne.
  destruct (last_char n) as [c|] eqn:Hc; [|reflexivity].
  eapply last_char_no_slash; [|exact Hc]. now apply valid_name_no_slash.
Qed.

Lemma append_nonempty_r (a b : string) : b <> "" -> (a ++ b)%string <> "".
Proof. destruct a; simpl; [auto|discriminate]. Qed.

Lemma valid_name_nonempty n : valid_name n = true -> n <> "".
Proof. intros H ->. discriminate. Qed.

Lemma valid_name_not_absolute n : valid_name n = true -> isAbsolute n = false.
Proof.
  intros H. pose proof (valid_name_no_slash n H) as Hs.
  unfold no_slash in Hs. destruct n as [|c n]; [reflexivity|].
  simpl in *. rewrite Bool.negb_orb, Bool.andb_true_iff in Hs.
  destruct Hs as [Hc _]. now apply Bool.negb_true_iff in Hc.
Qed.

(** [path.normalize] of a folder path followed by a name. *)
Lemma path_normalize_snoc (p n : string) :
  valid_name n = true ->
  let s := (p ++ String slash n)%string in
  path_normalize s
  = ((if isAbsolute s then "/" else "")
     ++ (with_separators
           (normalizeString (split_slash p) (negb (isAbsolute s))) ++ n))%string.
Proof.
  intros Hn s.
  assert (Hs : s <> "") by (apply append_nonempty_r; discriminate).
  assert (Hsegs : normalizeString (split_slash s) (negb (isAbsolute s))
                  = normalizeString (split_slash p) (negb (isAbsolute s)) ++ [n]).
  { unfold s at 1. rewrite split_slash_app.
    rewrite (split_slash_no_slash n) by now apply valid_name_no_slash.
    now apply normalizeString_snoc. }
  unfold path_normalize.
  apply String.eqb_neq in Hs. rewrite Hs.
  rewrite Hsegs, concat_snoc.
  assert (Hbody : (with_separators
                     (normalizeString (split_slash p) (negb (isAbsolute s))) ++ n)%string
                  <> "").
  { apply append_nonempty_r. now apply valid_name_nonempty. }
  apply String.eqb_neq in Hbody. rewrite Hbody.
  replace (trailingSeparator s) with false.
  - destruct (isAbsolute s); reflexivity.
  - symmetry. unfold s.
    change (p ++ String slash n)%string with (p ++ ("/" ++ n))%string.
    rewrite <- append_assoc. now apply trailingSeparator_name.
Qed.

Lemma path_normalize_valid n : valid_name n = true -> path_normalize n = n.
Proof.
  intros Hn. unfold path_normalize.
  pose proof (valid_name_nonempty n Hn) as Hne.
  apply String.eqb_neq in Hne. rewrite Hne.
  rewrite valid_name_not_absolute by exact Hn. simpl negb.
  rewrite split_slash_no_slash by now apply valid_name_no_slash.
  rewrite normalizeString_valid by (constructor; [exact Hn|constructor]).
  simpl String.concat. rewrite Hne.
  change n with ("" ++ n)%string at 1.
  now rewrite trailingSeparator_name.
Qed.

Lemma path_join_name (p n : string) :
  valid_name n = true ->
  path_join [p; n]
  = (root_prefix p
     ++ (with_separators (normalizeString (split_slash p) (negb (isAbsolute p)))
         ++ n))%string.
Proof.
  intros Hn. unfold path_join, root_prefix. simpl filter.
  pose proof (valid_name_nonempty n Hn) as Hne.
  apply String.eqb_neq in Hne. rewrite Hne. simpl negb.
  destruct (p =? "") eqn:Hp; simpl negb; cbv iota.
  - apply String.eqb_eq in Hp. subst p. simpl.
    now apply path_normalize_valid.
  - change (String.concat "/" [p; n]) with (p ++ String slash n)%string.
    rewrite path_normalize_snoc by exact Hn.
    assert (Habs : isAbsolute (p ++ String slash n) = isAbsolute p).
    { destruct p; [discriminate|reflexivity]. }
    now rewrite Habs.
Qed.

Lemma split_slash_with_separators segs n :
  Forall (fun x => no_slash x = true) segs -> no_slash n = true ->
  split_slash (with_separators segs ++ n) = segs ++ [n].
Proof.
  intros Hsegs Hn. rewrite <- concat_snoc. apply split_slash_concat.
  - apply Forall_app. split; [exact Hsegs|]. constructor; [exact Hn|constructor].
  - destruct segs; discriminate.
Qed.

(** The segments of a joined path are those of the folder, then the name. *)
Lemma resolve_segments_join (p n : string) :
  valid_name n = true ->
  resolve_segments (path_join [p; n]) = resolve_segments p ++ [n].
Proof.
  intros Hn. rewrite path_join_name by exact Hn.
  rewrite !resolve_segments_eq.
  pose proof (split_slash_all_no_slash p) as Hp.
  pose proof (normalizeString_no_slash (negb (isAbsolute p)) _ Hp) as HN.
  pose proof (valid_name_no_slash n Hn) as Hns.
  assert (Hsplit :
    normalizeString
      (split_slash
         (root_prefix p
          ++ (with_separators
                (normalizeString (split_slash p) (negb (isAbsolute p))) ++ n))%string)
      false
    = normalizeString
        (normalizeString (split_slash p) (negb (isAbsolute p)) ++ [n]) false).
  { unfold root_prefix. destruct (isAbsolute p).
    - simpl append. simpl split_slash.
      rewrite split_slash_with_separators by assumption. reflexivity.
    - simpl append. rewrite split_slash_with_separators by assumption.
      reflexivity. }
  rewrite Hsplit, normalizeString_snoc by exact Hn.
  now rewrite normalizeString_idem.
Qed.

(** ** What the [fs] calls see of a path *)

Lemma fs_stat_lookup disk p e :
  fs_stat disk p = Ok e -> fs_lookup disk p = Some e.
Proof.
  unfold fs_stat. destruct (p =? ""); [discriminate|].
  destruct (fs_lookup disk p) as [[c|es]|]; try discriminate.
  - destruct (trailingSeparator p); [discriminate|]. now intros H; inversion H.
  - now intros H; inversion H.
Qed.

Lemma fs_stat_Dir disk p es :
  p <> "" -> fs_lookup disk p = Some (Dir es) -> fs_stat disk p = Ok (Dir es).
Proof.
  intros Hp H. unfold fs_stat. apply String.eqb_neq in Hp.
  now rewrite Hp, H.
Qed.

Lemma fs_stat_File disk p c :
  p <> "" -> trailingSeparator p = false ->
  fs_lookup disk p = Some (File c) -> fs_stat disk p = Ok (File c).
Proof.
  intros Hp Ht H. unfold fs_stat. apply String.eqb_neq in Hp.
  now rewrite Hp, H, Ht.
Qed.

Lemma fs_stat_not_OutOfFuel disk p : fs_stat disk p <> OutOfFuel.
Proof.
  unfold fs_stat. destruct (p =? ""); [discriminate|].
  destruct (fs_lookup disk p) as [[c|es]|]; try discriminate.
  destruct (trailingSeparator p); discriminate.
Qed.

Lemma existsSync_lookup disk p :
  existsSync disk p = true -> exists e, fs_lookup disk p = Some e.
Proof.
  unfold existsSync. destruct (fs_stat disk p) as [e| |] eqn:H;
    try discriminate.
  intros _. exists e. now apply fs_stat_lookup.
Qed.

Lemma lookup_None_existsSync disk p :
  fs_lookup disk p = None -> existsSync disk p = false.
Proof.
  intros H. destruct (existsSync disk p) eqn:E; [|reflexivity].
  apply existsSync_lookup in E. destruct E as [e E]. congruence.
Qed.

Lemma readdirSync_Ok disk p files :
  readdirSync disk p = Ok files ->
  exists es, fs_lookup disk p = Some (Dir es) /\ files = map fst es.
Proof.
  unfold readdirSync. destruct (fs_stat disk p) as [[c|es]| |] eqn:E;
    simpl; try discriminate.
  intros H. inversion H. exists es. split; [|reflexivity].
  now apply fs_stat_lookup.
Qed.

Lemma readdirSync_Dir disk p es :
  p <> "" -> fs_lookup disk p = Some (Dir es) ->
  readdirSync disk p = Ok (map fst es).
Proof.
  intros Hp H. unfold readdirSync. now rewrite (fs_stat_Dir _ _ _ Hp H).
Qed.

Lemma readdirSync_not_OutOfFuel disk p : readdirSync disk p <> OutOfFuel.
Proof.
  unfold readdirSync. destruct (fs_stat disk p) as [[c|es]| |] eqn:E;
    simpl; try discriminate.
  exfalso. revert E. apply fs_stat_not_OutOfFuel.
Qed.

Lemma readdirSync_withFileTypes_Ok disk p items :
  readdirSync_withFileTypes disk p = Ok items ->
  exists es, fs_lookup disk p = Some (Dir es) /\ items = map dirent_of es.
Proof.
  unfold readdirSync_withFileTypes.
  destruct (fs_stat disk p) as [[c|es]| |] eqn:E; simpl; try discriminate.
  intros H. inversion H. exists es. split; [|reflexivity].
  now apply fs_stat_lookup.
Qed.

Lemma readdirSync_withFileTypes_not_OutOfFuel disk p :
  readdirSync_withFileTypes disk p <> OutOfFuel.
Proof.
  unfold readdirSync_withFileTypes.
  destruct (fs_stat disk p) as [[c|es]| |] eqn:E; simpl; try discriminate.
  exfalso. revert E. apply fs_stat_not_OutOfFuel.
Qed.

Lemma existsSync_Dir disk p es :
  p <> "" -> fs_lookup disk p = Some (Dir es) -> existsSync disk p = true.
Proof.
  intros Hp H. unfold existsSync. now rewrite (fs_stat_Dir _ _ _ Hp H).
Qed.

Lemma In_listing disk p f :
  In f (listing disk p) ->
  exists es, fs_lookup disk p = Some (Dir es) /\ In f (map fst es).
Proof.
  unfold listing. destruct (readdirSync disk p) as [files| |] eqn:Hrd;
    try contradiction.
  apply readdirSync_Ok in Hrd. destruct Hrd as [es [Hp ->]]. eauto.
Qed.

Lemma writeFileSync_Ok disk p text d :
  writeFileSync disk p text = Ok d ->
  write_segments disk (resolve_segments p) text = Ok d.
Proof.
  unfold writeFileSync. destruct (p =? ""); [discriminate|].
  destruct (write_segments disk (resolve_segments p) text) as [d'| |];
    simpl; try discriminate.
  destruct (trailingSeparator p); [discriminate|exact (fun H => H)].
Qed.

Lemma mkdirSync_recursive_Ok disk p d :
  mkdirSync_recursive disk p = Ok d ->
  mkdir_segments disk (resolve_segments p) = Ok d.
Proof.
  unfold mkdirSync_recursive. destruct (p =? ""); [discriminate|].
  exact (fun H => H).
Qed.

Lemma rmdirSync_recursive_Ok disk p d :
  rmdirSync_recursive disk p = Ok d ->
  remove_segments true disk (resolve_segments p) = Ok d.
Proof.
  unfold rmdirSync_recursive. destruct (fs_stat disk p); simpl;
    [exact (fun H => H)|discriminate|discriminate].
Qed.

Lemma unlinkSync_Ok disk p d :
  unlinkSync disk p = Ok d ->
  remove_segments false disk (resolve_segments p) = Ok d.
Proof.
  unfold unlinkSync. destruct (fs_stat disk p); simpl;
    [exact (fun H => H)|discriminate|discriminate].
Qed.

(** ** Lookups on a well-formed disk *)

Lemma walk_app e segs more :
  walk e (segs ++ more)
  = match walk e segs with
    | Some e' => walk e' more
    | None => None
    end.
Proof.
  revert e. induction segs as [|s segs IH]; intros e; simpl; [reflexivity|].
  destruct e as [|es]; [reflexivity|].
  destruct (find_child s es); [apply IH|reflexivity].
Qed.

Lemma fs_lookup_join disk p n :
  valid_name n = true ->
  fs_lookup disk (path_join [p; n])
  = match fs_lookup disk p with
    | Some (Dir es) => find_child n es
    | Some (File _) | None => None
    end.
Proof.
  intros Hn. unfold fs_lookup. rewrite resolve_segments_join by exact Hn.
  rewrite walk_app. destruct (walk disk (resolve_segments p)) as [[c|es]|];
    simpl; try reflexivity.
  destruct (find_child n es); reflexivity.
Qed.

Lemma find_child_In n es c : find_child n es = Some c -> In (n, c) es.
Proof.
  induction es as [|[n' e'] es IH]; simpl; [discriminate|].
  destruct (n' =? n) eqn:E.
  - apply String.eqb_eq in E. subst. intros H; inversion H; now left.
  - intros H. right. now apply IH.
Qed.

Lemma In_find_child n es :
  In n (map fst es) -> exists c, find_child n es = Some c.
Proof.
  induction es as [|[n' e'] es IH]; simpl; [tauto|].
  intros [H|H].
  - subst. rewrite String.eqb_refl. eauto.
  - destruct (n' =? n); eauto.
Qed.

Lemma child_height n c es : In (n, c) es -> height c < height (Dir es).
Proof.
  simpl. induction es as [|[n' e'] es IH]; simpl; [tauto|].
  intros [H|H].
  - inversion H; subst. lia.
  - specialize (IH H). lia.
Qed.

Lemma child_wf n c es : In (n, c) es -> wf_entry (Dir es) = true -> wf_entry c = true.
Proof.
  simpl. rewrite !Bool.andb_true_iff. intros Hin [_ Hall]. revert Hin Hall.
  induction es as [|[n' e'] es IH]; simpl; [tauto|].
  rewrite Bool.andb_true_iff. intros [H|H] [H1 H2].
  - now inversion H; subst.
  - now apply IH.
Qed.

Lemma names_valid es n :
  wf_entry (Dir es) = true -> In n (map fst es) -> valid_name n = true.
Proof.
  simpl. rewrite !Bool.andb_true_iff. intros [[Hv _] _] Hin.
  rewrite forallb_forall in Hv. now apply Hv.
Qed.

Lemma names_nodup es :
  wf_entry (Dir es) = true -> nodup_strings (map fst es) = true.
Proof. simpl. rewrite !Bool.andb_true_iff. tauto. Qed.

Lemma walk_wf segs : forall e e',
  wf_entry e = true -> walk e segs = Some e' -> wf_entry e' = true.
Proof.
  induction segs as [|s segs IH]; intros e e' Hwf H; simpl in H.
  - now inversion H; subst.
  - destruct e as [|es]; [discriminate|].
    destruct (find_child s es) as [c|] eqn:Hc; [|discriminate].
    eapply IH; [|exact H].
    eapply child_wf; [|exact Hwf]. now apply find_child_In in Hc; eauto.
Qed.

Lemma walk_height segs : forall e e',
  walk e segs = Some e' -> height e' <= height e.
Proof.
  induction segs as [|s segs IH]; intros e e' H; simpl in H.
  - inversion H; subst. lia.
  - destruct e as [|es]; [discriminate|].
    destruct (find_child s es) as [c|] eqn:Hc; [|discriminate].
    apply IH in H. apply find_child_In in Hc.
    pose proof (child_height _ _ _ Hc). lia.
Qed.

Lemma wf_disk_entry disk : wf_disk disk = true -> wf_entry disk = true.
Proof. destruct disk; [discriminate|auto]. Qed.

Lemma lookup_wf disk p e :
  wf_disk disk = true -> fs_lookup disk p = Some e -> wf_entry e = true.
Proof.
  intros Hwf H. eapply walk_wf; [|exact H]. now apply wf_disk_entry.
Qed.

Lemma height_at_le disk p : height_at disk p <= height disk.
Proof.
  unfold height_at, fs_lookup.
  destruct (walk disk (resolve_segments p)) eqn:H; [|lia].
  now apply walk_height in H.
Qed.

(** What a listed name leads to, one level down. *)
Lemma listed_child disk fp es f :
  wf_disk disk = true ->
  fs_lookup disk fp = Some (Dir es) ->
  In f (map fst es) ->
  exists c,
    find_child f es = Some c
    /\ fs_lookup disk (path_join [fp; f]) = Some c
    /\ height c < height (Dir es).
Proof.
  intros Hwf Hfp Hin.
  pose proof (lookup_wf _ _ _ Hwf Hfp) as Hes.
  pose proof (names_valid _ _ Hes Hin) as Hv.
  destruct (In_find_child _ _ Hin) as [c Hc].
  exists c. split; [exact Hc|]. split.
  - rewrite fs_lookup_join by exact Hv. now rewrite Hfp.
  - eapply child_height. apply find_child_In. exact Hc.
Qed.

Lemma path_join_name_plain p n :
  valid_name n = true ->
  path_join [p; n] <> "" /\ trailingSeparator (path_join [p; n]) = false.
Proof.
  intros Hn. rewrite path_join_name by exact Hn.
  rewrite <- append_assoc. split.
  - apply append_nonempty_r. now apply valid_name_nonempty.
  - now apply trailingSeparator_name.
Qed.

Lemma fs_stat_listed disk p n c :
  valid_name n = true ->
  fs_lookup disk (path_join [p; n]) = Some c ->
  fs_stat disk (path_join [p; n]) = Ok c.
Proof.
  intros Hn H. destruct (path_join_name_plain p n Hn) as [Hne Ht].
  destruct c; [now apply fs_stat_File|now apply fs_stat_Dir].
Qed.

Lemma statSync_listed disk p n c :
  valid_name n = true ->
  fs_lookup disk (path_join [p; n]) = Some c ->
  statSync disk (path_join [p; n])
  = Ok {| stats_isDirectory :=
            match c with Dir _ => true | File _ => false end |}.
Proof.
  intros Hn H. unfold statSync. rewrite (fs_stat_listed _ _ _ _ Hn H).
  destruct c; reflexivity.
Qed.

(** A listed name is well formed. *)
Lemma listed_name_valid disk fp es f :
  wf_disk disk = true ->
  fs_lookup disk fp = Some (Dir es) ->
  In f (map fst es) ->
  valid_name f = true.
Proof.
  intros Hwf Hfp Hin.
  pose proof (lookup_wf _ _ _ Hwf Hfp) as Hd.
  exact (names_valid es f Hd Hin).
Qed.

(** ** Roots that are missing *)

Lemma scan_folder_missing disk this isFullPath merged r :
  root_exists disk this isFullPath r = false ->
  scan_folder disk this isFullPath merged r = Ok merged.
Proof.
  intros H. destruct r as [n|]; simpl; [|reflexivity].
  destruct (n =? ""); [reflexivity|].
  simpl in H. rewrite H. reflexivity.
Qed.

(** C9: the merge of a list of roots is the merge of those of them that exist
    on the disk, in the same order (both return the same nodes, or both throw
    the same error), and the scan of a root that does not exist returns
    normally with nothing added. *)
Theorem missing_roots_are_skipped :
  forall disk this fuel (roots : list (option string)) isFullPath,
    _getFilesFromFolders disk this fuel roots isFullPath
    = _getFilesFromFolders disk this fuel
        (filter (root_exists disk this isFullPath) roots) isFullPath
    /\ (forall merged r,
          root_exists disk this isFullPath r = false ->
          scan_folder disk this isFullPath merged r = Ok merged).
Proof.
  intros disk this fuel roots isFullPath. split.
  - destruct fuel as [|fuel]; [reflexivity|]. simpl.
    rewrite forEach_skip; [reflexivity|].
    intros s a Ha. now apply scan_folder_missing.
  - intros merged r. apply scan_folder_missing.
Qed.

Lemma missing_roots_are_skipped_witness :
  root_exists disk_two_roots (constructor "/ws") false (Some "nowhere") = false
  /\ scan_folder disk_two_roots (constructor "/ws") false [] (Some "nowhere")
     = Ok [].
Proof.
  split; [reflexivity|].
  exact (proj2 (missing_roots_are_skipped disk_two_roots (constructor "/ws")
                  1 [] false) [] (Some "nowhere") eq_refl).
Defined.

(** ** The canonical path of a node *)

Lemma map_get_set m k0 v0 k :
  map_get (map_set m k0 v0) k = if k0 =? k then Some v0 else map_get m k.
Proof.
  induction m as [|[k' v'] m IH]; simpl.
  - reflexivity.
  - destruct (k' =? k0) eqn:H0; simpl.
    + apply String.eqb_eq in H0. subst k'.
      destruct (k0 =? k); reflexivity.
    + destruct (k' =? k) eqn:Hk.
      * apply String.eqb_eq in Hk. subst k'.
        rewrite String.eqb_sym, H0. reflexivity.
      * exact IH.
Qed.

Lemma map_set_In m k0 v0 k v :
  In (k, v) (map_set m k0 v0) -> (k, v) = (k0, v0) \/ In (k, v) m.
Proof.
  induction m as [|[k' v'] m IH]; simpl.
  - intros [H|[]]. left. now symmetry.
  - destruct (k' =? k0) eqn:H0; simpl.
    + apply String.eqb_eq in H0. subst k'.
      intros [H|H]; [left; now symmetry|right; now right].
    + intros [H|H]; [right; now left|].
      destruct (IH H); auto.
Qed.

Lemma map_get_In m k v : map_get m k = Some v -> In (k, v) m.
Proof.
  induction m as [|[k' v'] m IH]; simpl; [discriminate|].
  destruct (k' =? k) eqn:Hk.
  - apply String.eqb_eq in Hk. subst k'. intros H; inversion H; now left.
  - intros H. right. now apply IH.
Qed.

Lemma first_seen_app_Some k seen seen' r :
  first_seen k seen = Some r -> first_seen k (seen ++ seen') = Some r.
Proof.
  induction seen as [|[r0 n] seen IH]; simpl; [discriminate|].
  destruct (n =? k); auto.
Qed.

Lemma first_seen_app_None k seen seen' :
  ~ In k (map snd seen) -> first_seen k (seen ++ seen') = first_seen k seen'.
Proof.
  induction seen as [|[r0 n] seen IH]; simpl; [reflexivity|].
  intros H. destruct (n =? k) eqn:Hk.
  - apply String.eqb_eq in Hk. tauto.
  - apply IH. tauto.
Qed.

Lemma first_seen_not_In k seen :
  ~ In k (map snd seen) -> first_seen k seen = None.
Proof.
  induction seen as [|[r0 n] seen IH]; simpl; [reflexivity|].
  intros H. destruct (n =? k) eqn:Hk.
  - apply String.eqb_eq in Hk. tauto.
  - apply IH. tauto.
Qed.

Lemma mem_string_In s l : mem_string s l = true <-> In s l.
Proof.
  induction l as [|x l IH]; simpl; [intuition discriminate|].
  rewrite Bool.orb_true_iff, String.eqb_eq, IH. tauto.
Qed.

Lemma first_seen_sightings_in k fp files :
  first_seen k (sightings_in fp files)
  = if mem_string k files then Some fp else None.
Proof.
  induction files as [|f files IH]; simpl; [reflexivity|].
  destruct (f =? k); simpl; [reflexivity|exact IH].
Qed.

Lemma sightings_in_names fp files :
  map snd (sightings_in fp files) = files.
Proof.
  unfold sightings_in. rewrite map_map. simpl. apply map_id.
Qed.

Lemma scan_file_inv disk fp seen merged f merged' :
  scan_inv seen merged ->
  scan_file disk fp merged f = Ok merged' ->
  scan_inv (seen ++ [(fp, f)]) merged'.
Proof.
  intros [Hall Hitems] H. unfold scan_file in H.
  destruct (statSync disk (path_join [fp; f])) as [st| |];
    simpl in H; try discriminate.
  destruct (map_get merged f) as [seen_item|] eqn:Hget.
  - (* the name has an item already *)
    assert (Hkeep : forall k v, In (k, v) merged ->
              label v = k
              /\ exists r, first_seen k (seen ++ [(fp, f)]) = Some r
                           /\ resourceUri v = Some (path_join [r; k])).
    { intros k v Hin. destruct (Hitems k v Hin) as [Hl [r [Hr Hu]]].
      split; [exact Hl|]. exists r. split; [|exact Hu].
      now apply first_seen_app_Some. }
    assert (Hnames : forall k, k <> f -> ~ In k (map snd seen) ->
              ~ In k (map snd (seen ++ [(fp, f)]))).
    { intros k Hk Hn. rewrite map_app, in_app_iff. simpl. intuition. }
    destruct (stats_isDirectory st).
    + destruct (_mergePaths seen_item) as [| |paths] eqn:Hmp; try discriminate.
      inversion H; subst merged'; clear H. split.
      * intros k Hk. rewrite map_get_set in Hk.
        destruct (f =? k) eqn:Hfk; [discriminate|].
        apply String.eqb_neq in Hfk. apply Hnames; auto.
      * intros k v Hin. apply map_set_In in Hin. destruct Hin as [Heq|Hin].
        -- inversion Heq; subst k v. simpl.
           exact (Hkeep f seen_item (map_get_In _ _ _ Hget)).
        -- now apply Hkeep.
    + inversion H; subst merged'; clear H. split.
      * intros k Hk. apply Hnames; [|now apply Hall].
        intros ->. congruence.
      * exact Hkeep.
  - (* the first sighting of the name *)
    inversion H; subst merged'; clear H.
    pose proof (Hall f Hget) as Hfresh. split.
    + intros k Hk. rewrite map_get_set in Hk.
      destruct (f =? k) eqn:Hfk; [discriminate|].
      apply String.eqb_neq in Hfk.
      rewrite map_app, in_app_iff. simpl.
      pose proof (Hall k Hk). intuition.
    + intros k v Hin. apply map_set_In in Hin. destruct Hin as [Heq|Hin].
      * inversion Heq; subst k v. split.
        -- unfold new_file_item. destruct (stats_isDirectory st); reflexivity.
        -- exists fp. split.
           ++ rewrite first_seen_app_None by exact Hfresh.
              simpl. now rewrite String.eqb_refl.
           ++ unfold new_file_item. destruct (stats_isDirectory st); reflexivity.
      * destruct (Hitems k v Hin) as [Hl [r [Hr Hu]]].
        split; [exact Hl|]. exists r. split; [|exact Hu].
        now apply first_seen_app_Some.
Qed.

Lemma scan_files_inv disk fp files :
  forall seen merged merged',
    scan_inv seen merged ->
    forEach (scan_file disk fp) files merged = Ok merged' ->
    scan_inv (seen ++ sightings_in fp files) merged'.
Proof.
  induction files as [|f files IH]; intros seen merged merged' Hinv H;
    simpl in H.
  - inversion H; subst. simpl. now rewrite app_nil_r.
  - destruct (scan_file disk fp merged f) as [m1| |] eqn:Hf;
      simpl in H; try discriminate.
    simpl. change ((fp, f) :: sightings_in fp files)
      with ([(fp, f)] ++ sightings_in fp files).
    rewrite app_assoc. eapply IH; [|exact H].
    eapply scan_file_inv; eauto.
Qed.

Lemma scan_folder_inv disk this isFullPath seen merged r merged' :
  scan_inv seen merged ->
  scan_folder disk this isFullPath merged r = Ok merged' ->
  scan_inv (seen ++ sightings_of disk this isFullPath r) merged'.
Proof.
  intros Hinv H. unfold scan_folder in H. unfold sightings_of.
  destruct r as [n|].
  - destruct (n =? ""); simpl.
    + inversion H; subst. now rewrite app_nil_r.
    + destruct (existsSync disk (folderPath_of this isFullPath n)); simpl in *.
      * unfold listing.
        destruct (readdirSync disk (folderPath_of this isFullPath n))
          as [files| |]; simpl in H; try discriminate.
        eapply scan_files_inv; eauto.
      * inversion H; subst. now rewrite app_nil_r.
  - inversion H; subst. now rewrite app_nil_r.
Qed.

Lemma scan_folders_inv disk this isFullPath roots :
  forall seen merged merged',
    scan_inv seen merged ->
    forEach (scan_folder disk this isFullPath) roots merged = Ok merged' ->
    scan_inv (seen ++ flat_map (sightings_of disk this isFullPath) roots)
      merged'.
Proof.
  induction roots as [|r roots IH]; intros seen merged merged' Hinv H;
    simpl in H.
  - inversion H; subst. simpl. now rewrite app_nil_r.
  - destruct (scan_folder disk this isFullPath merged r) as [m1| |] eqn:Hf;
      simpl in H; try discriminate.
    simpl. rewrite app_assoc. eapply IH; [|exact H].
    eapply scan_folder_inv; eauto.
Qed.

Lemma first_seen_roots disk this isFullPath name roots :
  first_seen name (flat_map (sightings_of disk this isFullPath) roots)
  = first_root_with disk this isFullPath name roots.
Proof.
  unfold first_root_with.
  induction roots as [|r roots IH]; simpl; [reflexivity|].
  destruct r as [n|]; simpl.
  - destruct (negb (n =? "") && existsSync disk (folderPath_of this isFullPath n))
      eqn:Hact; simpl.
    + destruct (mem_string name (listing disk (folderPath_of this isFullPath n)))
        eqn:Hmem.
      * apply first_seen_app_Some.
        rewrite first_seen_sightings_in, Hmem. reflexivity.
      * rewrite first_seen_app_None; [exact IH|].
        rewrite sightings_in_names. rewrite <- mem_string_In. congruence.
    + exact IH.
  - exact IH.
Qed.

Lemma expand_item_keeps recur kv kv' :
  expand_item recur kv = Ok kv' ->
  fst kv' = fst kv /\ label (snd kv') = label (snd kv)
  /\ resourceUri (snd kv') = resourceUri (snd kv).
Proof.
  unfold expand_item. destruct (_mergePaths (snd kv)).
  - intros H; inversion H; auto.
  - intros H; inversion H; auto.
  - destruct (recur _ _); simpl; try discriminate.
    intros H; inversion H; auto.
Qed.

Lemma expanded_items_come_from recur merged merged' it :
  mapM (expand_item recur) merged = Ok merged' ->
  In it (map_values merged') ->
  exists k v, In (k, v) merged /\ label it = label v
              /\ resourceUri it = resourceUri v.
Proof.
  intros H. apply mapM_Ok_Forall2 in H.
  induction H as [|kv kv' l l' Hkv Hrest IH]; simpl; [tauto|].
  intros [Hit|Hit].
  - destruct (expand_item_keeps _ _ _ Hkv) as [_ [Hl Hu]].
    exists (fst kv), (snd kv). subst it.
    split; [left; now destruct kv|auto].
  - destruct (IH Hit) as [k [v [Hin Hrel]]].
    exists k, v. split; [now right|exact Hrel].
Qed.

Lemma node_path_under_first_root disk this fuel roots isFullPath items it :
  _getFilesFromFolders disk this fuel roots isFullPath = Ok items ->
  In it items ->
  exists r,
    first_root_with disk this isFullPath (label it) roots = Some r
    /\ resourceUri it = Some (path_join [r; label it]).
Proof.
  intros H Hit.
  destruct fuel as [|fuel]; simpl in H; [discriminate|].
  destruct (forEach (scan_folder disk this isFullPath) roots [])
    as [merged| |] eqn:Hscan; simpl in H; try discriminate.
  destruct (mapM _ merged) as [merged'| |] eqn:Hexp; simpl in H;
    try discriminate.
  inversion H; subst items; clear H.
  destruct (expanded_items_come_from _ _ _ _ Hexp Hit)
    as [k [v [Hin [Hl Hu]]]].
  assert (Hinv : scan_inv
            ([] ++ flat_map (sightings_of disk this isFullPath) roots) merged).
  { eapply scan_folders_inv; [|exact Hscan].
    split; [intros k0 _ []|intros k0 v0 []]. }
  simpl in Hinv. destruct Hinv as [_ Hitems].
  destruct (Hitems k v Hin) as [Hlab [r [Hr Hp]]].
  exists r. rewrite Hl, Hu, Hlab. split; [|exact Hp].
  now rewrite <- first_seen_roots.
Qed.

(** C5: every node the merge returns has, as its path, the entry of its own
    name under the first root, in the order the roots were given, that has an
    entry of that name. *)
Theorem canonical_path_is_in_first_root :
  forall disk this fuel (roots : list (option string)) isFullPath items it,
    _getFilesFromFolders disk this fuel roots isFullPath = Ok items ->
    In it items ->
    exists r,
      first_root_with disk this isFullPath (label it) roots = Some r
      /\ resourceUri it = Some (path_join [r; label it]).
Proof.
  intros disk this fuel roots isFullPath items it H Hit.
  destruct (node_path_under_first_root _ _ _ _ _ _ _ H Hit) as [r [Hr Hp]].
  exists r. split; assumption.
Qed.

Lemma canonical_path_is_in_first_root_witness :
  exists items it,
    _getFilesFromFolders disk_two_roots (constructor "/ws") 3
      [Some "web-src"; Some "res"] false = Ok items
    /\ In it items
    /\ label it = "a"
    /\ exists r,
         first_root_with disk_two_roots (constructor "/ws") false (label it)
           [Some "web-src"; Some "res"] = Some r
         /\ resourceUri it = Some (path_join [r; label it]).
Proof.
  eexists. eexists. split; [reflexivity|].
  split; [left; reflexivity|]. split; [reflexivity|].
  eapply (canonical_path_is_in_first_root disk_two_roots (constructor "/ws") 3
            [Some "web-src"; Some "res"] false).
  - reflexivity.
  - left. reflexivity.
Defined.

(** ** The budget of the scans *)

Lemma forEach_not_OutOfFuel {A S : Type} (f : S -> A -> result S) (l : list A) :
  (forall s a, In a l -> f s a <> OutOfFuel) ->
  forall s, forEach f l s <> OutOfFuel.
Proof.
  induction l as [|a l IH]; intros Hf s; simpl; [discriminate|].
  destruct (f s a) as [s'| |] eqn:E; simpl.
  - apply IH. intros s0 a0 Ha0. apply Hf. now right.
  - discriminate.
  - exfalso. apply (Hf s a); [now left|exact E].
Qed.

Lemma mapM_not_OutOfFuel {A B : Type} (f : A -> result B) (l : list A) :
  (forall a, In a l -> f a <> OutOfFuel) -> mapM f l <> OutOfFuel.
Proof.
  induction l as [|a l IH]; intros Hf; simpl; [discriminate|].
  destruct (f a) as [b| |] eqn:E; simpl.
  - destruct (mapM f l) eqn:E'; simpl; try discriminate.
    exfalso. apply IH; [|reflexivity]. intros a0 Ha0. apply Hf. now right.
  - discriminate.
  - exfalso. apply (Hf a); [now left|exact E].
Qed.

Lemma scan_file_not_OutOfFuel disk fp merged f :
  scan_file disk fp merged f <> OutOfFuel.
Proof.
  unfold scan_file, statSync.
  destruct (fs_stat disk (path_join [fp; f])) as [[c|es]| |] eqn:E; simpl;
    try discriminate.
  - destruct (map_get merged f); discriminate.
  - destruct (map_get merged f) as [seen|]; [|discriminate].
    destruct (_mergePaths seen); discriminate.
  - exfalso. now apply (fs_stat_not_OutOfFuel disk (path_join [fp; f])).
Qed.

Lemma scan_folder_not_OutOfFuel disk this isFullPath merged r :
  scan_folder disk this isFullPath merged r <> OutOfFuel.
Proof.
  unfold scan_folder. destruct r as [n|]; [|discriminate].
  destruct (n =? ""); [discriminate|].
  destruct (negb (existsSync disk _)); [discriminate|].
  unfold readdirSync.
  destruct (fs_stat disk _) as [[c|es]| |] eqn:E; simpl; try discriminate.
  - apply forEach_not_OutOfFuel. intros. apply scan_file_not_OutOfFuel.
  - exfalso. revert E. apply fs_stat_not_OutOfFuel.
Qed.

Lemma scan_file_paths disk bound fp es merged f merged' :
  wf_disk disk = true ->
  fs_lookup disk fp = Some (Dir es) ->
  height (Dir es) <= bound ->
  In f (map fst es) ->
  paths_inv disk bound merged ->
  scan_file disk fp merged f = Ok merged' ->
  paths_inv disk bound merged'.
Proof.
  intros Hwf Hfp Hb Hin Hinv H.
  destruct (listed_child _ _ _ _ Hwf Hfp Hin) as [c [Hc [Hlook Hh]]].
  assert (Hpath : height_at disk (path_join [fp; f]) < bound).
  { unfold height_at. rewrite Hlook. lia. }
  unfold scan_file in H.
  rewrite (statSync_listed _ _ _ _ (listed_name_valid _ _ _ _ Hwf Hfp Hin)
             Hlook) in H.
  cbn [bind stats_isDirectory] in H.
  destruct (map_get merged f) as [seen|] eqn:Hget.
  - destruct c as [text|ces]; simpl in H.
    + now inversion H; subst.
    + destruct (_mergePaths seen) as [| |paths] eqn:Hmp; try discriminate.
      inversion H; subst merged'; clear H.
      intros k v ps Hkv Hps. apply map_set_In in Hkv.
      destruct Hkv as [Heq|Hkv]; [|now apply (Hinv k v)].
      inversion Heq; subst k v. simpl in Hps. inversion Hps; subst ps.
      destruct (Hinv f seen paths (map_get_In _ _ _ Hget) Hmp) as [_ Hold].
      split; [destruct paths; discriminate|].
      intros p Hp. apply in_app_iff in Hp. destruct Hp as [Hp|[Hp|[]]].
      * now apply Hold.
      * now subst p.
  - assert (Hnew : merged' = map_set merged f
                     (new_file_item f (path_join [fp; f])
                        (match c with Dir _ => true | File _ => false end))).
    { destruct c; simpl in H; now inversion H. }
    subst merged'. clear H.
    intros k v ps Hkv Hps. apply map_set_In in Hkv.
    destruct Hkv as [Heq|Hkv]; [|now apply (Hinv k v)].
    inversion Heq; subst k v. destruct c as [text|ces]; simpl in Hps;
      [discriminate|].
    inversion Hps; subst ps. split; [discriminate|].
    intros p [Hp|[]]. now subst p.
Qed.

Lemma scan_files_paths disk bound fp es :
  wf_disk disk = true ->
  fs_lookup disk fp = Some (Dir es) ->
  height (Dir es) <= bound ->
  forall files merged merged',
    incl files (map fst es) ->
    paths_inv disk bound merged ->
    forEach (scan_file disk fp) files merged = Ok merged' ->
    paths_inv disk bound merged'.
Proof.
  intros Hwf Hfp Hb files.
  induction files as [|f files IH]; intros merged merged' Hincl Hinv H;
    simpl in H.
  - now inversion H; subst.
  - destruct (scan_file disk fp merged f) as [m1| |] eqn:Hf;
      simpl in H; try discriminate.
    eapply IH; [| |exact H].
    + intros x Hx. apply Hincl. now right.
    + eapply scan_file_paths; eauto. apply Hincl. now left.
Qed.

Lemma scan_folder_paths disk this isFullPath bound merged r merged' :
  wf_disk disk = true ->
  (forall n, r = Some n ->
     height_at disk (folderPath_of this isFullPath n) <= bound) ->
  paths_inv disk bound merged ->
  scan_folder disk this isFullPath merged r = Ok merged' ->
  paths_inv disk bound merged'.
Proof.
  intros Hwf Hb Hinv H. unfold scan_folder in H.
  destruct r as [n|]; [|now inversion H; subst].
  destruct (n =? ""); [now inversion H; subst|].
  destruct (existsSync disk _); simpl in H; [|now inversion H; subst].
  specialize (Hb n eq_refl). unfold height_at in Hb.
  destruct (readdirSync disk (folderPath_of this isFullPath n))
    as [files| |] eqn:Hrd; simpl in H; try discriminate.
  apply readdirSync_Ok in Hrd. destruct Hrd as [es [Hfp ->]].
  rewrite Hfp in Hb.
  eapply scan_files_paths; eauto. apply incl_refl.
Qed.

Lemma scan_folders_paths disk this isFullPath bound roots :
  wf_disk disk = true ->
  forall merged merged',
    (forall n, In (Some n) roots ->
       height_at disk (folderPath_of this isFullPath n) <= bound) ->
    paths_inv disk bound merged ->
    forEach (scan_folder disk this isFullPath) roots merged = Ok merged' ->
    paths_inv disk bound merged'.
Proof.
  intros Hwf. induction roots as [|r roots IH];
    intros merged merged' Hb Hinv H; simpl in H.
  - now inversion H; subst.
  - destruct (scan_folder disk this isFullPath merged r) as [m1| |] eqn:Hf;
      simpl in H; try discriminate.
    eapply IH; [| |exact H].
    + intros n Hn. apply Hb. now right.
    + eapply scan_folder_paths; eauto.
      intros n ->. apply Hb. now left.
Qed.

(** With a budget above the height of what the roots lead to, the merge
    does not run out of it. *)
Lemma _getFilesFromFolders_enough_fuel disk this :
  wf_disk disk = true ->
  forall fuel roots isFullPath,
    (forall n, In (Some n) roots ->
       height_at disk (folderPath_of this isFullPath n) <= fuel) ->
    _getFilesFromFolders disk this (S fuel) roots isFullPath <> OutOfFuel.
Proof.
  intros Hwf. induction fuel as [|fuel IH]; intros roots isFullPath Hb.
  - simpl.
    destruct (forEach (scan_folder disk this isFullPath) roots [])
      as [merged| |] eqn:Hscan; simpl; try discriminate.
    + assert (Hinv : paths_inv disk 0 merged).
      { eapply scan_folders_paths; eauto. intros k v paths []. }
      assert (Hm : mapM (expand_item (fun _ _ => OutOfFuel)) merged
                   <> OutOfFuel).
      { apply mapM_not_OutOfFuel. intros [k v] Hkv. unfold expand_item.
        simpl. destruct (_mergePaths v) as [| |paths] eqn:Hmp; try discriminate.
        destruct (Hinv k v paths Hkv Hmp) as [Hne Hlt].
        destruct paths as [|p paths]; [congruence|].
        specialize (Hlt p (or_introl eq_refl)). lia. }
      destruct (mapM _ merged); simpl; congruence.
    + exfalso. revert Hscan. apply forEach_not_OutOfFuel.
      intros. apply scan_folder_not_OutOfFuel.
  - change (_getFilesFromFolders disk this (S (S fuel)) roots isFullPath)
      with (merged <- forEach (scan_folder disk this isFullPath) roots [] ;;
            merged <- mapM (expand_item
                              (_getFilesFromFolders disk this (S fuel))) merged ;;
            Ok (map_values merged)).
    destruct (forEach (scan_folder disk this isFullPath) roots [])
      as [merged| |] eqn:Hscan; simpl bind; try discriminate.
    + assert (Hinv : paths_inv disk (S fuel) merged).
      { eapply scan_folders_paths; eauto. intros k v paths []. }
      assert (Hm : mapM (expand_item (_getFilesFromFolders disk this (S fuel)))
                     merged <> OutOfFuel).
      { apply mapM_not_OutOfFuel. intros [k v] Hkv. unfold expand_item.
        cbn [snd fst]. destruct (_mergePaths v) as [| |paths] eqn:Hmp;
          try discriminate.
        destruct (Hinv k v paths Hkv Hmp) as [_ Hlt].
        assert (Hrec : _getFilesFromFolders disk this (S fuel)
                         (map Some paths) true <> OutOfFuel).
        { apply IH. intros n Hn. apply in_map_iff in Hn.
          destruct Hn as [p [Hp Hin]]. inversion Hp; subst p.
          specialize (Hlt n Hin). simpl. lia. }
        destruct (_getFilesFromFolders disk this (S fuel) (map Some paths) true);
          simpl; congruence. }
      destruct (mapM _ merged); simpl; congruence.
    + exfalso. revert Hscan. apply forEach_not_OutOfFuel.
      intros. apply scan_folder_not_OutOfFuel.
Qed.

Lemma _findFCCWFiles_S disk fuel dir :
  _findFCCWFiles disk (S fuel) dir
  = (items <- readdirSync_withFileTypes disk dir ;;
     forEach
       (fun fccwFiles item =>
          let fullPath := path_join [dir; dirent_name item] in
          if dirent_isFile item && endsWith (dirent_name item) ".fccw"
          then Ok (fccwFiles ++ [fullPath])
          else if dirent_isDirectory item then
            found <- _findFCCWFiles disk fuel fullPath ;;
            Ok (fccwFiles ++ found)
          else Ok fccwFiles)
       items []).
Proof. reflexivity. Qed.

Lemma _findFCCWFiles_enough_fuel disk :
  wf_disk disk = true ->
  forall fuel dir,
    height_at disk dir <= fuel ->
    _findFCCWFiles disk (S fuel) dir <> OutOfFuel.
Proof.
  intros Hwf. induction fuel as [|fuel IH]; intros dir Hb;
    rewrite _findFCCWFiles_S;
    destruct (readdirSync_withFileTypes disk dir) as [items| |] eqn:Hrd;
    cbn [bind]; try discriminate;
    try (exfalso; revert Hrd; apply readdirSync_withFileTypes_not_OutOfFuel);
    apply readdirSync_withFileTypes_Ok in Hrd; destruct Hrd as [es [Hdir ->]].
  - exfalso. unfold height_at in Hb. rewrite Hdir in Hb. simpl in Hb. lia.
  - remember (_findFCCWFiles disk (S fuel)) as rec eqn:Hrec.
    apply forEach_not_OutOfFuel. intros acc item Hitem.
    apply in_map_iff in Hitem. destruct Hitem as [[n c] [Hd Hin]].
    subst item. unfold dirent_of. simpl.
    destruct c as [text|ces]; simpl.
    + destruct (endsWith n ".fccw"); discriminate.
    + assert (Hn : In n (map fst es)) by (apply in_map_iff; now exists (n, Dir ces)).
      destruct (listed_child _ _ _ _ Hwf Hdir Hn) as [c' [_ [Hlook Hh]]].
      assert (Hsub : rec (path_join [dir; n]) <> OutOfFuel).
      { subst rec. apply IH. unfold height_at in *. rewrite Hlook.
        rewrite Hdir in Hb. lia. }
      destruct (rec (path_join [dir; n])); simpl; congruence.
Qed.

(** With a budget above the height of the disk, and a [JSON.parse] that
    returns or throws, [getChildren] does not run out of it. *)
Lemma getChildren_enough_fuel disk JSON_parse this fuel element :
  wf_disk disk = true ->
  (forall text, JSON_parse text <> OutOfFuel) ->
  height disk <= fuel ->
  getChildren disk JSON_parse this (S fuel) element <> OutOfFuel.
Proof.
  intros Hwf Hparse Hfuel.
  assert (Hmerge : forall roots full,
            _getFilesFromFolders disk this (S fuel) roots full <> OutOfFuel).
  { intros roots full. apply _getFilesFromFolders_enough_fuel; [exact Hwf|].
    intros n _. pose proof (height_at_le disk (folderPath_of this full n)). lia. }
  assert (Hsections : forall j,
            _getFoldersFromConfig disk this (S fuel) j <> OutOfFuel).
  { intros j. unfold _getFoldersFromConfig.
    destruct (truthy (json.sourceDirectory j) || truthy (json.resourcesDirectory j)).
    - pose proof (Hmerge [json.sourceDirectory j; json.resourcesDirectory j] false) as H1.
      destruct (_getFilesFromFolders disk this (S fuel)
                  [json.sourceDirectory j; json.resourcesDirectory j] false);
        cbn [bind]; try congruence.
      destruct (truthy (json.includeDirectory j)); [|discriminate].
      pose proof (Hmerge [json.includeDirectory j] false) as H2.
      destruct (_getFilesFromFolders disk this (S fuel)
                  [json.includeDirectory j] false); cbn [bind]; congruence.
    - cbn [bind].
      destruct (truthy (json.includeDirectory j)); [|discriminate].
      pose proof (Hmerge [json.includeDirectory j] false) as H2.
      destruct (_getFilesFromFolders disk this (S fuel)
                  [json.includeDirectory j] false); cbn [bind]; congruence. }
  assert (Hfile : forall p, sections_of_file disk JSON_parse this (S fuel) p
                            <> OutOfFuel).
  { intros p. unfold sections_of_file, readFileSync.
    destruct (fs_stat disk p) as [[text|es]| |] eqn:Hst; cbn [bind];
      try discriminate.
    - pose proof (Hparse text). destruct (JSON_parse text); cbn [bind];
        [apply Hsections|discriminate|congruence].
    - exfalso. revert Hst. apply fs_stat_not_OutOfFuel. }
  unfold getChildren. destruct (workspaceRoot this =? ""); [discriminate|].
  destruct element as [el|].
  - destruct (truthy (_fccwPath el)).
    + destruct (_fccwPath el); [apply Hfile|discriminate].
    + destruct (children el); discriminate.
  - assert (Hfind : _findFCCWFiles disk (S fuel) (workspaceRoot this)
                    <> OutOfFuel).
    { apply _findFCCWFiles_enough_fuel; [exact Hwf|].
      pose proof (height_at_le disk (workspaceRoot this)). lia. }
    destruct (_findFCCWFiles disk (S fuel) (workspaceRoot this))
      as [files| |]; cbn [bind]; try congruence.
    destruct files as [|f1 [|f2 files]]; [discriminate|apply Hfile|discriminate].
Qed.

(** ** Directories of the same name *)

Lemma statSync_isDirectory disk p st :
  statSync disk p = Ok st -> stats_isDirectory st = is_directory disk p.
Proof.
  unfold statSync, is_directory.
  destruct (fs_stat disk p) as [e| |] eqn:E; simpl; try discriminate.
  rewrite (fs_stat_lookup _ _ _ E).
  destruct e; intros H; inversion H; reflexivity.
Qed.

Lemma map_set_keys m k v :
  map fst (map_set m k v)
  = if map_has m k then map fst m else map fst m ++ [k].
Proof.
  unfold map_has. induction m as [|[k' v'] m IH]; simpl; [reflexivity|].
  destruct (k' =? k) eqn:E; simpl; [reflexivity|].
  rewrite IH. destruct (map_get m k); reflexivity.
Qed.

Lemma map_get_None_keys m k : map_get m k = None -> ~ In k (map fst m).
Proof.
  induction m as [|[k' v'] m IH]; simpl; [tauto|].
  destruct (k' =? k) eqn:E; [discriminate|].
  apply String.eqb_neq in E. intros H [H1|H1]; [congruence|]. now apply IH.
Qed.

Lemma NoDup_In_map_get m k v :
  NoDup (map fst m) -> In (k, v) m -> map_get m k = Some v.
Proof.
  induction m as [|[k' v'] m IH]; simpl; [tauto|].
  intros Hnd [H|H].
  - inversion H; subst. now rewrite String.eqb_refl.
  - inversion Hnd as [|? ? Hnot Hnd']; subst.
    destruct (k' =? k) eqn:E.
    + apply String.eqb_eq in E. subst k'. exfalso. apply Hnot.
      apply in_map_iff. now exists (k, v).
    + now apply IH.
Qed.

Lemma dir_paths_app disk k seen seen' :
  dir_paths disk k (seen ++ seen')
  = dir_paths disk k seen ++ dir_paths disk k seen'.
Proof. unfold dir_paths. apply flat_map_app. Qed.

Lemma dir_paths_unsighted disk k seen :
  ~ In k (map snd seen) -> dir_paths disk k seen = [].
Proof.
  induction seen as [|[r n] seen IH]; simpl; [reflexivity|].
  intros H. destruct (n =? k) eqn:E.
  - apply String.eqb_eq in E. tauto.
  - simpl. apply IH. tauto.
Qed.

Lemma dir_paths_other disk k fp f :
  f <> k -> dir_paths disk k [(fp, f)] = [].
Proof.
  intros H. apply String.eqb_neq in H. unfold dir_paths. simpl.
  now rewrite H.
Qed.

Lemma dir_paths_one disk fp f :
  dir_paths disk f [(fp, f)]
  = if is_directory disk (path_join [fp; f]) then [path_join [fp; f]] else [].
Proof.
  unfold dir_paths. simpl. rewrite String.eqb_refl. simpl.
  destruct (is_directory disk (path_join [fp; f])); reflexivity.
Qed.

Lemma merge_inv_other disk seen fp f k v :
  f <> k ->
  (label v = k
   /\ exists r,
        first_seen k seen = Some r
        /\ if is_directory disk (path_join [r; k])
           then _mergePaths v = mp_array (dir_paths disk k seen)
           else _mergePaths v = mp_undefined /\ dir_paths disk k seen = []) ->
  label v = k
  /\ exists r,
       first_seen k (seen ++ [(fp, f)]) = Some r
       /\ if is_directory disk (path_join [r; k])
          then _mergePaths v = mp_array (dir_paths disk k (seen ++ [(fp, f)]))
          else _mergePaths v = mp_undefined
               /\ dir_paths disk k (seen ++ [(fp, f)]) = [].
Proof.
  intros Hne [Hl [r [Hr Hkind]]]. split; [exact Hl|].
  exists r. split; [now apply first_seen_app_Some|].
  rewrite dir_paths_app, dir_paths_other by exact Hne.
  now rewrite app_nil_r.
Qed.

Lemma scan_file_merge_inv disk fp seen merged f merged' :
  merge_inv disk seen merged ->
  scan_file disk fp merged f = Ok merged' ->
  merge_inv disk (seen ++ [(fp, f)]) merged'.
Proof.
  intros [Hnd [Hall Hitems]] H. unfold scan_file in H.
  destruct (statSync disk (path_join [fp; f])) as [st| |] eqn:Hst;
    simpl in H; try discriminate.
  apply statSync_isDirectory in Hst.
  assert (Hnames : forall k, k <> f -> ~ In k (map snd seen) ->
            ~ In k (map snd (seen ++ [(fp, f)]))).
  { intros k Hk Hn. rewrite map_app, in_app_iff. simpl. intuition. }
  destruct (map_get merged f) as [item|] eqn:Hget.
  - destruct (Hitems f item Hget) as [Hl [r [Hr Hkind]]].
    assert (Hsame : forall v',
              label v' = f ->
              (if is_directory disk (path_join [r; f])
               then _mergePaths v' = mp_array (dir_paths disk f (seen ++ [(fp, f)]))
               else _mergePaths v' = mp_undefined
                    /\ dir_paths disk f (seen ++ [(fp, f)]) = []) ->
              merge_inv disk (seen ++ [(fp, f)]) (map_set merged f v')).
    { intros v' Hl' Hk'. split; [|split].
      - rewrite map_set_keys. unfold map_has. now rewrite Hget.
      - intros k Hk. rewrite map_get_set in Hk.
        destruct (f =? k) eqn:Hfk; [discriminate|].
        apply String.eqb_neq in Hfk. apply Hnames; auto.
      - intros k v Hk. rewrite map_get_set in Hk.
        destruct (f =? k) eqn:Hfk.
        + apply String.eqb_eq in Hfk. subst k. inversion Hk; subst v.
          split; [exact Hl'|]. exists r.
          split; [now apply first_seen_app_Some|exact Hk'].
        + apply String.eqb_neq in Hfk.
          apply merge_inv_other; [exact Hfk|now apply Hitems]. }
    destruct (stats_isDirectory st) eqn:Hdir.
    + destruct (_mergePaths item) as [| |paths] eqn:Hmp; try discriminate.
      inversion H; subst merged'; clear H. apply Hsame; [exact Hl|].
      destruct (is_directory disk (path_join [r; f])).
      * simpl. rewrite dir_paths_app, dir_paths_one, <- Hst.
        congruence.
      * destruct Hkind; congruence.
    + inversion H; subst merged'; clear H.
      replace merged with (map_set merged f item).
      * apply Hsame; [exact Hl|].
        rewrite dir_paths_app, dir_paths_one, <- Hst, app_nil_r. exact Hkind.
      * clear -Hget. induction merged as [|[k' v'] m IH]; simpl in *;
          [discriminate|].
        destruct (k' =? f) eqn:E; [now inversion Hget|].
        now rewrite IH.
  - inversion H; subst merged'; clear H.
    pose proof (Hall f Hget) as Hfresh. split; [|split].
    + rewrite map_set_keys. unfold map_has. rewrite Hget.
      apply NoDup_app; [exact Hnd|repeat constructor; auto|].
      intros k Hk [Hk'|[]]. subst k.
      now apply (map_get_None_keys merged f).
    + intros k Hk. rewrite map_get_set in Hk.
      destruct (f =? k) eqn:Hfk; [discriminate|].
      apply String.eqb_neq in Hfk. apply Hnames; auto.
    + intros k v Hk. rewrite map_get_set in Hk.
      destruct (f =? k) eqn:Hfk.
      * apply String.eqb_eq in Hfk. subst k. inversion Hk; subst v.
        split.
        { unfold new_file_item. destruct (stats_isDirectory st); reflexivity. }
        exists fp. split.
        { rewrite first_seen_app_None by exact Hfresh.
          simpl. now rewrite String.eqb_refl. }
        rewrite dir_paths_app, dir_paths_unsighted by exact Hfresh.
        rewrite dir_paths_one, <- Hst. unfold new_file_item.
        destruct (stats_isDirectory st); simpl; auto.
      * apply String.eqb_neq in Hfk.
        apply merge_inv_other; [exact Hfk|now apply Hitems].
Qed.

Lemma scan_files_merge_inv disk fp files :
  forall seen merged merged',
    merge_inv disk seen merged ->
    forEach (scan_file disk fp) files merged = Ok merged' ->
    merge_inv disk (seen ++ sightings_in fp files) merged'.
Proof.
  induction files as [|f files IH]; intros seen merged merged' Hinv H;
    simpl in H.
  - inversion H; subst. simpl. now rewrite app_nil_r.
  - destruct (scan_file disk fp merged f) as [m1| |] eqn:Hf;
      simpl in H; try discriminate.
    simpl. change ((fp, f) :: sightings_in fp files)
      with ([(fp, f)] ++ sightings_in fp files).
    rewrite app_assoc. eapply IH; [|exact H].
    eapply scan_file_merge_inv; eauto.
Qed.

Lemma scan_folder_merge_inv disk this isFullPath seen merged r merged' :
  merge_inv disk seen merged ->
  scan_folder disk this isFullPath merged r = Ok merged' ->
  merge_inv disk (seen ++ sightings_of disk this isFullPath r) merged'.
Proof.
  intros Hinv H. unfold scan_folder in H. unfold sightings_of.
  destruct r as [n|].
  - destruct (n =? ""); simpl.
    + inversion H; subst. now rewrite app_nil_r.
    + destruct (existsSync disk (folderPath_of this isFullPath n)); simpl in *.
      * unfold listing.
        destruct (readdirSync disk (folderPath_of this isFullPath n))
          as [files| |]; simpl in H; try discriminate.
        eapply scan_files_merge_inv; eauto.
      * inversion H; subst. now rewrite app_nil_r.
  - inversion H; subst. now rewrite app_nil_r.
Qed.

Lemma scan_folders_merge_inv disk this isFullPath roots :
  forall seen merged merged',
    merge_inv disk seen merged ->
    forEach (scan_folder disk this isFullPath) roots merged = Ok merged' ->
    merge_inv disk
      (seen ++ flat_map (sightings_of disk this isFullPath) roots) merged'.
Proof.
  induction roots as [|r roots IH]; intros seen merged merged' Hinv H;
    simpl in H.
  - inversion H; subst. simpl. now rewrite app_nil_r.
  - destruct (scan_folder disk this isFullPath merged r) as [m1| |] eqn:Hf;
      simpl in H; try discriminate.
    simpl. rewrite app_assoc. eapply IH; [|exact H].
    eapply scan_folder_merge_inv; eauto.
Qed.

Lemma merge_inv_start disk : merge_inv disk [] [].
Proof.
  split; [constructor|]. split; [intros k _ []|intros k v H; discriminate].
Qed.

Lemma listing_nodup disk p :
  wf_disk disk = true -> nodup_strings (listing disk p) = true.
Proof.
  intros Hwf. unfold listing.
  destruct (readdirSync disk p) as [files| |] eqn:Hrd; try reflexivity.
  apply readdirSync_Ok in Hrd. destruct Hrd as [es [Hp ->]].
  apply names_nodup. eapply lookup_wf; eauto.
Qed.

Lemma dir_paths_sightings_in disk name fp files :
  nodup_strings files = true ->
  dir_paths disk name (sightings_in fp files)
  = if mem_string name files && is_directory disk (path_join [fp; name])
    then [path_join [fp; name]] else [].
Proof.
  induction files as [|f files IH]; intros Hnd; [reflexivity|].
  simpl in Hnd. apply Bool.andb_true_iff in Hnd. destruct Hnd as [Hf Hnd].
  apply Bool.negb_true_iff in Hf.
  change (sightings_in fp (f :: files))
    with ([(fp, f)] ++ sightings_in fp files).
  rewrite dir_paths_app, (IH Hnd). simpl mem_string.
  destruct (f =? name) eqn:E.
  - apply String.eqb_eq in E. subst f. rewrite dir_paths_one, Hf. simpl.
    destruct (is_directory disk (path_join [fp; name])); reflexivity.
  - apply String.eqb_neq in E. now rewrite dir_paths_other.
Qed.

(** On a well-formed disk the directory sightings of a name are the
    contributing paths of the roots. *)
Lemma dir_paths_roots disk this isFullPath name roots :
  wf_disk disk = true ->
  dir_paths disk name (flat_map (sightings_of disk this isFullPath) roots)
  = contributing_paths disk this isFullPath name roots.
Proof.
  intros Hwf. induction roots as [|r roots IH]; [reflexivity|].
  simpl. rewrite dir_paths_app, IH. f_equal.
  destruct r as [n|]; [|reflexivity]. unfold sightings_of, root_lists.
  destruct (negb (n =? "") && existsSync disk (folderPath_of this isFullPath n));
    [|reflexivity].
  rewrite dir_paths_sightings_in by now apply listing_nodup.
  reflexivity.
Qed.

Lemma expand_item_directory recur k v paths cs :
  _mergePaths v = mp_array paths ->
  recur (map Some paths) true = Ok cs ->
  expand_item recur (k, v) = Ok (k, set_children (set_mergePaths v mp_null) cs).
Proof.
  intros Hmp Hrec. unfold expand_item. simpl. now rewrite Hmp, Hrec.
Qed.

Lemma filter_none {A : Type} (f : A -> bool) (l : list A) :
  (forall x, In x l -> f x = false) -> filter f l = [].
Proof.
  induction l as [|a l IH]; intros H; simpl; [reflexivity|].
  rewrite (H a (or_introl eq_refl)). apply IH. intros x Hx. apply H. now right.
Qed.

(** After the closing loop, the item of a directory name is the only one
    with that label, and its children are what the recursive call returned. *)
Lemma expanded_directory_unique recur name :
  forall merged merged' v paths,
    NoDup (map fst merged) ->
    (forall k v, In (k, v) merged -> label v = k) ->
    mapM (expand_item recur) merged = Ok merged' ->
    map_get merged name = Some v ->
    _mergePaths v = mp_array paths ->
    exists it cs,
      filter (fun i => label i =? name) (map_values merged') = [it]
      /\ children it = Some cs
      /\ recur (map Some paths) true = Ok cs.
Proof.
  induction merged as [|[k0 v0] merged IH];
    intros merged' v paths Hnd Hlab H Hget Hmp; [discriminate|].
  simpl in H.
  destruct (expand_item recur (k0, v0)) as [kv'| |] eqn:Hexp;
    simpl in H; try discriminate.
  destruct (mapM (expand_item recur) merged) as [rest'| |] eqn:Hrest;
    simpl in H; try discriminate.
  injection H as H. rewrite <- H. clear H merged'.
  pose proof (NoDup_cons_iff k0 (map fst merged)) as Hc.
  simpl in Hnd. apply Hc in Hnd. clear Hc. destruct Hnd as [Hnot Hnd'].
  destruct (expand_item_keeps _ _ _ Hexp) as [_ [Hl' _]]. simpl in Hl'.
  pose proof (Hlab k0 v0 (or_introl eq_refl)) as Hl0.
  assert (Hlab' : forall k v1, In (k, v1) merged -> label v1 = k).
  { intros k v1 Hk. apply Hlab. now right. }
  simpl in Hget. simpl. rewrite Hl', Hl0.
  destruct (k0 =? name) eqn:E.
  - apply String.eqb_eq in E. injection Hget as Hget.
    unfold expand_item in Hexp. simpl in Hexp. rewrite Hget, Hmp in Hexp.
    destruct (recur (map Some paths) true) as [cs| |] eqn:Hrec;
      simpl in Hexp; try discriminate.
    injection Hexp as Hexp. rewrite <- Hexp. simpl.
    exists (set_children (set_mergePaths v mp_null) cs), cs.
    split; [|split; reflexivity]. f_equal.
    apply filter_none. intros it Hit.
    destruct (expanded_items_come_from _ _ _ _ Hrest Hit)
      as [k [v1 [Hin [Hl _]]]].
    apply String.eqb_neq. intros Heq. apply Hnot.
    rewrite E, <- Heq, Hl, (Hlab' k v1 Hin).
    apply in_map_iff. now exists (k, v1).
  - destruct (IH rest' v paths Hnd' Hlab' eq_refl Hget Hmp)
      as [it [cs [Hf [Hc Hr]]]].
    exists it, cs. auto.
Qed.

Lemma contributing_sighted disk name seen :
  dir_paths disk name seen <> [] -> In name (map snd seen).
Proof.
  intros H. destruct (in_dec string_dec name (map snd seen)) as [Hin|Hout];
    [exact Hin|].
  exfalso. apply H. now apply dir_paths_unsighted.
Qed.

(** What the scan found for a name some root has as a directory: an item,
    and the folder of the name's first sighting. *)
Lemma scanned_directory_name disk this isFullPath roots merged name :
  wf_disk disk = true ->
  forEach (scan_folder disk this isFullPath) roots [] = Ok merged ->
  contributing_paths disk this isFullPath name roots <> [] ->
  NoDup (map fst merged)
  /\ (forall k v, In (k, v) merged -> label v = k)
  /\ exists v r,
       map_get merged name = Some v
       /\ first_root_with disk this isFullPath name roots = Some r
       /\ is_directory disk (path_join [r; name]) = true
       /\ _mergePaths v
          = mp_array (contributing_paths disk this isFullPath name roots).
Proof.
  intros Hwf Hscan Hcontrib.
  pose proof (scan_folders_merge_inv _ _ _ _ _ _ _ (merge_inv_start disk) Hscan)
    as [Hnd [Hall Hitems]]. simpl in Hall, Hitems.
  rewrite <- (dir_paths_roots disk this isFullPath name roots Hwf) in Hcontrib |- *.
  split; [exact Hnd|]. split.
  { intros k v Hin. apply (Hitems k v). now apply NoDup_In_map_get. }
  destruct (map_get merged name) as [v|] eqn:Hget.
  - destruct (Hitems name v Hget) as [_ [r [Hr Hkind]]].
    exists v, r. split; [reflexivity|].
    rewrite <- first_seen_roots. split; [exact Hr|].
    destruct (is_directory disk (path_join [r; name])); [auto|].
    destruct Hkind as [_ Hnone]. congruence.
  - exfalso. apply (Hall name Hget). now apply (contributing_sighted disk).
Qed.

(** Where the merge returns: a name that roots have as a directory gets
    exactly one node, whose children are the merge of the paths of all these
    directories, in the order of the roots. *)
Lemma merged_directory_children disk this fuel roots isFullPath items name :
  wf_disk disk = true ->
  _getFilesFromFolders disk this (S fuel) roots isFullPath = Ok items ->
  contributing_paths disk this isFullPath name roots <> [] ->
  exists it cs,
    filter (fun i => label i =? name) items = [it]
    /\ children it = Some cs
    /\ _getFilesFromFolders disk this fuel
         (map Some (contributing_paths disk this isFullPath name roots)) true
       = Ok cs.
Proof.
  intros Hwf H Hcontrib. simpl in H.
  destruct (forEach (scan_folder disk this isFullPath) roots [])
    as [merged| |] eqn:Hscan; simpl in H; try discriminate.
  destruct (mapM _ merged) as [merged'| |] eqn:Hexp; simpl in H;
    try discriminate.
  injection H as H. rewrite <- H.
  destruct (scanned_directory_name _ _ _ _ _ _ Hwf Hscan Hcontrib)
    as [Hnd [Hlab [v [r [Hget [_ [_ Hmp]]]]]]].
  eapply expanded_directory_unique; eauto.
Qed.

(** *** A larger budget changes nothing *)

Lemma mapM_expand_item_mono
  (r1 r2 : list (option string) -> bool -> result (list TreeItem)) :
  (forall names full cs, r1 names full = Ok cs -> r2 names full = Ok cs) ->
  forall merged merged',
    mapM (expand_item r1) merged = Ok merged' ->
    mapM (expand_item r2) merged = Ok merged'.
Proof.
  intros Hr. induction merged as [|kv merged IH]; intros merged' H;
    simpl in *; [exact H|].
  destruct (expand_item r1 kv) as [kv'| |] eqn:Hkv; simpl in H;
    try discriminate.
  destruct (mapM (expand_item r1) merged) as [rest| |]; simpl in H;
    try discriminate.
  assert (Hkv2 : expand_item r2 kv = Ok kv').
  { unfold expand_item in *. destruct (_mergePaths (snd kv)); try exact Hkv.
    destruct (r1 (map Some paths) true) as [cs| |] eqn:Hcs; simpl in Hkv;
      try discriminate.
    now rewrite (Hr _ _ _ Hcs). }
  rewrite Hkv2, (IH rest eq_refl). exact H.
Qed.

Lemma _getFilesFromFolders_more_fuel disk this :
  forall n m roots isFullPath items,
    n <= m ->
    _getFilesFromFolders disk this n roots isFullPath = Ok items ->
    _getFilesFromFolders disk this m roots isFullPath = Ok items.
Proof.
  induction n as [|n IH]; intros m roots isFullPath items Hle H;
    [discriminate|].
  destruct m as [|m]; [lia|]. simpl in *.
  destruct (forEach (scan_folder disk this isFullPath) roots [])
    as [merged| |]; simpl in *; try discriminate.
  destruct (mapM (expand_item (_getFilesFromFolders disk this n)) merged)
    as [merged'| |] eqn:Hexp; simpl in H; try discriminate.
  rewrite (mapM_expand_item_mono _ (_getFilesFromFolders disk this m)
             (fun names full cs => IH m names full cs ltac:(lia)) _ _ Hexp).
  exact H.
Qed.

(** ** A file seen before a directory of the same name *)

(** Where a name is a file under the first root that has it and a directory
    under a later one, the merge throws, whatever the budget. *)
Lemma file_first_then_directory_throws disk this fuel roots isFullPath name r :
  wf_disk disk = true ->
  first_root_with disk this isFullPath name roots = Some r ->
  is_directory disk (path_join [r; name]) = false ->
  contributing_paths disk this isFullPath name roots <> [] ->
  exists e,
    _getFilesFromFolders disk this (S fuel) roots isFullPath = Throw e.
Proof.
  intros Hwf Hfirst Hfile Hcontrib. simpl.
  destruct (forEach (scan_folder disk this isFullPath) roots [])
    as [merged|e|] eqn:Hscan; simpl.
  - destruct (scanned_directory_name _ _ _ _ _ _ Hwf Hscan Hcontrib)
      as [_ [_ [v [r' [_ [Hr' [Hdir _]]]]]]].
    congruence.
  - eauto.
  - exfalso. revert Hscan. apply forEach_not_OutOfFuel.
    intros. apply scan_folder_not_OutOfFuel.
Qed.

(** C2, the behaviour of the code: with [n] a file under the first root and a
    directory under the second, the merge throws a [TypeError] (the push
    onto the [_mergePaths] of the file item, which has none) and returns no
    node. *)
Theorem file_then_directory_throws :
  forall fuel,
    is_file disk_file_then_dir "/ws/web-src/n" = true
    /\ is_directory disk_file_then_dir "/ws/res/n" = true
    /\ _getFilesFromFolders disk_file_then_dir (constructor "/ws") (S fuel)
         [Some "web-src"; Some "res"] false = Throw TypeError.
Proof.
  intros fuel. repeat split.
Qed.

(** ** Sections of a configuration *)

(** C7, counterexample: a configuration whose [sourceDirectory] is present
    and holds the empty string gets no "Combined source" section. *)
Lemma empty_sourceDirectory_gives_no_section :
  let j := {| json.sourceDirectory := Some "";
              json.resourcesDirectory := None;
              json.includeDirectory := None |} in
  exists sections,
    _getFoldersFromConfig disk_two_roots (constructor "/ws") 3 j = Ok sections
    /\ ~ (In "Combined source" (map label sections)
          <-> (json.sourceDirectory j <> None
               \/ json.resourcesDirectory j <> None)).
Proof.
  exists []. split; [reflexivity|].
  intros [_ H]. apply H. left. discriminate.
Qed.

(** C7, amended: the sections built from a configuration are "Combined
    source", present exactly when [sourceDirectory] or [resourcesDirectory]
    holds a non-empty string, followed by "Includes", present exactly when
    [includeDirectory] holds a non-empty string; there is no other section. *)
Theorem sections_follow_nonempty_fields :
  forall disk this fuel (j : json.t) sections,
    _getFoldersFromConfig disk this fuel j = Ok sections ->
    map label sections =
      (if truthy (json.sourceDirectory j) || truthy (json.resourcesDirectory j)
       then ["Combined source"] else [])
      ++ (if truthy (json.includeDirectory j) then ["Includes"] else []).
Proof.
  intros disk this fuel j sections H. unfold _getFoldersFromConfig in H.
  destruct (truthy (json.sourceDirectory j) || truthy (json.resourcesDirectory j)).
  - destruct (_getFilesFromFolders disk this fuel
                [json.sourceDirectory j; json.resourcesDirectory j] false);
      simpl in H; try discriminate.
    destruct (truthy (json.includeDirectory j)).
    + destruct (_getFilesFromFolders disk this fuel [json.includeDirectory j] false);
        simpl in H; try discriminate.
      inversion H; reflexivity.
    + inversion H; reflexivity.
  - simpl in H. destruct (truthy (json.includeDirectory j)).
    + destruct (_getFilesFromFolders disk this fuel [json.includeDirectory j] false);
        simpl in H; try discriminate.
      inversion H; reflexivity.
    + inversion H; reflexivity.
Qed.

Lemma sections_follow_nonempty_fields_witness :
  exists sections,
    _getFoldersFromConfig disk_custom_config (constructor "/ws") 3 custom_config
      = Ok sections
    /\ map label sections = ["Combined source"; "Includes"].
Proof.
  eexists. split; [reflexivity|].
  exact (sections_follow_nonempty_fields disk_custom_config (constructor "/ws")
           3 custom_config _ eq_refl).
Defined.

(** ** The root of the tree *)

Lemma path_normalize_nonempty p : path_normalize p <> "".
Proof.
  unfold path_normalize.
  destruct (p =? ""); [discriminate|].
  destruct (String.concat "/" _ =? "") eqn:Hb.
  - destruct (isAbsolute p); [discriminate|].
    destruct (trailingSeparator p); discriminate.
  - apply String.eqb_neq in Hb.
    destruct (isAbsolute p); [discriminate|].
    destruct (trailingSeparator p); [|exact Hb].
    destruct (String.concat "/" _); [congruence|discriminate].
Qed.

Lemma path_join_nonempty args : path_join args <> "".
Proof.
  unfold path_join. destruct (filter _ args); [discriminate|].
  apply path_normalize_nonempty.
Qed.

Lemma _findFCCWFiles_nonempty disk fuel :
  forall dir files,
    _findFCCWFiles disk fuel dir = Ok files -> Forall (fun f => f <> "") files.
Proof.
  induction fuel as [|fuel IH]; intros dir files H; simpl in H; [discriminate|].
  destruct (readdirSync_withFileTypes disk dir) as [items| |];
    simpl in H; try discriminate.
  revert H. apply forEach_invariant; [|constructor].
  intros acc item acc' Hacc Hstep.
  destruct (dirent_isFile item && endsWith (dirent_name item) ".fccw").
  - inversion Hstep; subst. apply Forall_app. split; [assumption|].
    constructor; [apply path_join_nonempty|constructor].
  - destruct (dirent_isDirectory item).
    + destruct (_findFCCWFiles disk fuel _) as [found| |] eqn:Hf;
        simpl in Hstep; try discriminate.
      inversion Hstep; subst. apply Forall_app. split; [assumption|].
      eapply IH; eauto.
    + now inversion Hstep; subst.
Qed.

(** What [_getFoldersFromConfig] returns, when it returns. *)
Lemma sections_are_configured disk this fuel j items :
  _getFoldersFromConfig disk this fuel j = Ok items
  <-> configured_sections disk this fuel j items.
Proof.
  unfold _getFoldersFromConfig, configured_sections.
  destruct (truthy (json.sourceDirectory j) || truthy (json.resourcesDirectory j));
    destruct (truthy (json.includeDirectory j)); split.
  - destruct (_getFilesFromFolders disk this fuel
                [json.sourceDirectory j; json.resourcesDirectory j] false)
      as [cs1| |]; cbn [bind]; try discriminate.
    destruct (_getFilesFromFolders disk this fuel [json.includeDirectory j] false)
      as [cs2| |]; cbn [bind]; try discriminate.
    intros H. inversion H. exists cs1, cs2. repeat split.
  - intros [cs1 [cs2 [H1 [H2 ->]]]].
    rewrite (H1 eq_refl). cbn [bind]. rewrite (H2 eq_refl). reflexivity.
  - destruct (_getFilesFromFolders disk this fuel
                [json.sourceDirectory j; json.resourcesDirectory j] false)
      as [cs1| |]; cbn [bind]; try discriminate.
    intros H. inversion H. exists cs1, []. repeat split. discriminate.
  - intros [cs1 [cs2 [H1 [_ ->]]]]. rewrite (H1 eq_refl). reflexivity.
  - cbn [bind].
    destruct (_getFilesFromFolders disk this fuel [json.includeDirectory j] false)
      as [cs2| |]; cbn [bind]; try discriminate.
    intros H. inversion H. exists [], cs2. repeat split. discriminate.
  - intros [cs1 [cs2 [_ [H2 ->]]]]. cbn [bind]. rewrite (H2 eq_refl).
    reflexivity.
  - cbn [bind]. intros H. inversion H. exists [], [].
    repeat split; discriminate.
  - intros [cs1 [cs2 [_ [_ ->]]]]. reflexivity.
Qed.

(** What reading and parsing a configuration file gives, when the file is
    read and parsed. *)
Lemma sections_of_file_configured disk JSON_parse this fuel file text j items :
  readFileSync disk file = Ok text ->
  JSON_parse text = Ok j ->
  sections_of_file disk JSON_parse this fuel file = Ok items
  <-> configured_sections disk this fuel j items.
Proof.
  intros Hread Hparse. unfold sections_of_file.
  rewrite Hread. cbn [bind]. rewrite Hparse. cbn [bind].
  apply sections_are_configured.
Qed.

(** C6: when the scan of the workspace finds no configuration file, the root
    of the tree is one leaf item with no command, no path and no children.
    When it finds exactly one, and that file is read and parsed, the root is
    the list of the sections of that configuration: "Combined source" with
    the merge of the source and resources directories as children, and
    "Includes" with the merge of the include directory.  When it finds
    several, the root has one collapsed item per configuration file, in the
    order found, labelled with the file's name and holding no children of
    its own; asking for the children of such an item gives the sections of
    its configuration, in the same way. *)
Theorem root_children_by_number_of_configurations :
  forall disk JSON_parse this fuel files,
    workspaceRoot this <> "" ->
    _findFCCWFiles disk fuel (workspaceRoot this) = Ok files ->
    (files = [] ->
       exists info,
         getChildren disk JSON_parse this fuel None = Ok [info]
         /\ label info = "No .fccw workspace found"
         /\ non_actionable info)
    /\ (forall fccwPath text j,
          files = [fccwPath] ->
          readFileSync disk fccwPath = Ok text ->
          JSON_parse text = Ok j ->
          forall items,
            getChildren disk JSON_parse this fuel None = Ok items
            <-> configured_sections disk this fuel j items)
    /\ (2 <= length files ->
          exists items,
            getChildren disk JSON_parse this fuel None = Ok items
            /\ map label items = map path_basename files
            /\ Forall2
                 (fun item file =>
                    collapsibleState item = Collapsed
                    /\ children item = None
                    /\ forall text j,
                         readFileSync disk file = Ok text ->
                         JSON_parse text = Ok j ->
                         forall sections,
                           getChildren disk JSON_parse this fuel (Some item)
                           = Ok sections
                           <-> configured_sections disk this fuel j sections)
                 items files).
Proof.
  intros disk JSON_parse this fuel files Hroot Hfind.
  apply String.eqb_neq in Hroot.
  pose proof (_findFCCWFiles_nonempty _ _ _ _ Hfind) as Hne.
  unfold getChildren. rewrite Hroot, Hfind. cbn [bind].
  split; [|split].
  - intros ->. eexists. split; [reflexivity|].
    split; [reflexivity|]. repeat split.
  - intros fccwPath text j -> Hread Hparse items.
    now apply sections_of_file_configured with (text := text).
  - intros Hlen. destruct files as [|f1 [|f2 files]]; simpl in Hlen; try lia.
    eexists. split; [reflexivity|]. split.
    + rewrite map_map. reflexivity.
    + clear Hlen Hfind. induction Hne as [|f fs Hf Hfs IH]; simpl; constructor.
      * split; [reflexivity|]. split; [reflexivity|].
        intros text j Hread Hparse sections. simpl.
        apply String.eqb_neq in Hf. rewrite Hf. simpl.
        now apply sections_of_file_configured with (text := text).
      * exact IH.
Qed.

Lemma root_children_by_number_of_configurations_witness :
  let this := constructor "/ws" in
  let sections :=
    [section_item "Combined source"
       [file_node "main.html" "/ws/src/main.html"];
     section_item "Includes" []] in
  workspaceRoot this <> ""
  /\ (_findFCCWFiles disk_custom_config 4 (workspaceRoot this)
      = Ok ["/ws/project.fccw"]
      /\ getChildren disk_custom_config sample_JSON_parse this 4 None
         = Ok sections
      /\ configured_sections disk_custom_config this 4 custom_config sections)
  /\ (_findFCCWFiles disk_two_configs 4 (workspaceRoot this)
      = Ok ["/ws/a.fccw"; "/ws/sub/b.fccw"]
      /\ exists a b,
           getChildren disk_two_configs sample_JSON_parse this 4 None
           = Ok [a; b]
           /\ map label [a; b] = ["a.fccw"; "b.fccw"]
           /\ getChildren disk_two_configs sample_JSON_parse this 4 (Some b)
              = Ok sections
           /\ configured_sections disk_two_configs this 4 custom_config
                sections).
Proof.
  intros this sections.
  assert (Hroot : workspaceRoot this <> "") by discriminate.
  split; [exact Hroot|]. split.
  - split; [reflexivity|]. split; [reflexivity|].
    destruct (root_children_by_number_of_configurations
                disk_custom_config sample_JSON_parse this 4
                ["/ws/project.fccw"] Hroot eq_refl) as [_ [Hone _]].
    apply (Hone "/ws/project.fccw" "custom" custom_config
             eq_refl eq_refl eq_refl sections).
    reflexivity.
  - split; [reflexivity|].
    destruct (root_children_by_number_of_configurations
                disk_two_configs sample_JSON_parse this 4
                ["/ws/a.fccw"; "/ws/sub/b.fccw"] Hroot eq_refl)
      as [_ [_ Hmany]].
    destruct (Hmany (le_n 2)) as [items [Hget [Hlabels Hall]]].
    inversion Hall as [|a fa items1 files1 Ha Hall1]; subst.
    inversion Hall1 as [|b fb items2 files2 Hb Hall2]; subst.
    inversion Hall2; subst.
    exists a, b. split; [exact Hget|]. split; [exact Hlabels|].
    destruct Hb as [_ [_ Hb]].
    assert (Hsec : getChildren disk_two_configs sample_JSON_parse this 4 (Some b)
                   = Ok sections).
    { vm_compute in Hget. injection Hget as _ Hb'. rewrite <- Hb'.
      reflexivity. }
    split; [exact Hsec|].
    apply (Hb "custom" custom_config eq_refl eq_refl sections). exact Hsec.
Defined.

(** ** The category roots of file creation *)

Lemma createFilePrompt_provider w element type fileName :
  treeProvider (fst (createFilePrompt w element type fileName)) = treeProvider w.
Proof.
  unfold createFilePrompt.
  destruct fileName as [name|]; [|reflexivity].
  destruct (name =? ""); [reflexivity|].
  destruct (targetDir_of _ _ _ _) as [targetDir| |]; try reflexivity.
  destruct (mkdirSync_recursive _ _) as [d1| |]; try reflexivity.
  destruct (writeFileSync _ _ _); reflexivity.
Qed.

Lemma deleteFilePrompt_provider w element confirm :
  treeProvider (fst (deleteFilePrompt w element confirm)) = treeProvider w.
Proof.
  unfold deleteFilePrompt.
  destruct element as [el|]; [|reflexivity].
  destruct (resourceUri el) as [p|]; [|reflexivity].
  destruct confirm as [answer|]; [|reflexivity].
  destruct (negb (answer =? "Delete")); [reflexivity|].
  destruct (statSync _ _) as [stats| |]; try reflexivity.
  destruct (if stats_isDirectory stats then _ else _); reflexivity.
Qed.

Lemma handle_provider w ev : treeProvider (handle w ev) = treeProvider w.
Proof.
  destruct ev; simpl;
    auto using createFilePrompt_provider, deleteFilePrompt_provider.
Qed.

Lemma run_provider evs : forall w, treeProvider (run w evs) = treeProvider w.
Proof.
  induction evs as [|ev evs IH]; intros w; [reflexivity|].
  change (run w (ev :: evs)) with (run (handle w ev) evs).
  rewrite IH. apply handle_provider.
Qed.

(** C4, counterexample: the configuration file of the workspace names [src]
    as its source directory and the tree lists that directory, yet a source
    file created with no node selected lands in [web-src]. *)
Lemma configured_roots_not_used_by_create :
  exists w sections w',
    activate (Some "/ws") disk_custom_config = Some w
    /\ (text <- readFileSync (disk_of w) "/ws/project.fccw" ;;
        sample_JSON_parse text) = Ok custom_config
    /\ json.sourceDirectory custom_config = Some "src"
    /\ getChildren (disk_of w) sample_JSON_parse (treeProvider w) 3 None
       = Ok sections
    /\ map label sections = ["Combined source"; "Includes"]
    /\ map (fun section => option_map (map resourceUri) (children section))
         sections
       = [Some [Some "/ws/src/main.html"]; Some []]
    /\ targetDir_of (disk_of w) (treeProvider w) None source = Ok "/ws/web-src"
    /\ createFilePrompt w None source (Some "z.txt") = (w', Ok tt)
    /\ is_file (disk_of w') "/ws/web-src/z.txt" = true
    /\ existsSync (disk_of w') "/ws/src/z.txt" = false.
Proof.
  do 3 eexists. repeat split.
Qed.

(** C4, amended: whatever the configuration files on the disk say and
    whatever commands have run since activation, the category roots used by
    file creation, both the base directory of the new file and the roots the
    selected node's path is matched against, are the directories [web-src],
    [res] and [include] of the workspace root. *)
Theorem create_roots_are_the_defaults :
  forall (root : string) (disk : entry) (w : World) (evs : list Event),
    activate (Some root) disk = Some w ->
    let tp := treeProvider (run w evs) in
    baseDir_of tp source = path_join [root; "web-src"]
    /\ baseDir_of tp resource = path_join [root; "res"]
    /\ baseDir_of tp include = path_join [root; "include"]
    /\ (forall fsPath d,
          elementTypeDir_of tp fsPath = Some d ->
          d = path_join [root; "web-src"] \/ d = path_join [root; "res"]
          \/ d = path_join [root; "include"]).
Proof.
  intros root disk w evs Hact tp.
  assert (Htp : tp = constructor root).
  { unfold tp. rewrite run_provider. unfold activate in Hact.
    destruct (root =? ""); [discriminate|]. now inversion Hact. }
  rewrite Htp. repeat split.
  intros fsPath d H. unfold elementTypeDir_of in H. simpl in H.
  destruct (startsWith fsPath (path_join [root; "web-src"]));
    [inversion H; auto|].
  destruct (startsWith fsPath (path_join [root; "res"]));
    [inversion H; auto|].
  destruct (startsWith fsPath (path_join [root; "include"]));
    [inversion H; auto|discriminate].
Qed.

Lemma create_roots_are_the_defaults_witness :
  let w := {| disk_of := disk_custom_config; treeProvider := constructor "/ws";
              messages := []; fired := 0 |} in
  let tp := treeProvider
              (run w [ev_reload; ev_create source None (Some "z.txt")]) in
  activate (Some "/ws") disk_custom_config = Some w
  /\ baseDir_of tp source = "/ws/web-src".
Proof.
  intros w tp. split; [reflexivity|].
  exact (proj1 (create_roots_are_the_defaults "/ws" disk_custom_config w
                  [ev_reload; ev_create source None (Some "z.txt")] eq_refl)).
Defined.

(** ** The target directory of a creation *)

Lemma prefix_nil (s : string) : String.prefix "" s = true.
Proof. destruct s; reflexivity. Qed.

Lemma prefix_cons c a d s :
  String.prefix (String c a) (String d s)
  = if Ascii.eqb c d then String.prefix a s else false.
Proof.
  simpl. destruct (ascii_dec c d) as [->|Hne].
  - now rewrite Ascii.eqb_refl.
  - apply Ascii.eqb_neq in Hne. now rewrite Hne.
Qed.

Lemma prefix_append (a b : string) : String.prefix a (a ++ b) = true.
Proof.
  induction a as [|c a IH]; [apply prefix_nil|].
  change (String c a ++ b)%string with (String c (a ++ b)).
  now rewrite prefix_cons, Ascii.eqb_refl.
Qed.

Lemma prefix_split (a s : string) :
  String.prefix a s = true -> exists b, s = (a ++ b)%string.
Proof.
  revert s. induction a as [|c a IH]; intros s H.
  - exists s. reflexivity.
  - destruct s as [|c' s]; [discriminate|].
    rewrite prefix_cons in H.
    destruct (Ascii.eqb c c') eqn:E; [|discriminate].
    apply Ascii.eqb_eq in E. subst c'.
    destruct (IH s H) as [b Hb]. exists b. simpl. now rewrite Hb.
Qed.

Lemma prefix_append_same (a s t : string) :
  String.prefix (a ++ s) (a ++ t) = String.prefix s t.
Proof.
  induction a as [|c a IH]; [reflexivity|].
  change (String c a ++ s)%string with (String c (a ++ s)).
  change (String c a ++ t)%string with (String c (a ++ t)).
  now rewrite prefix_cons, Ascii.eqb_refl.
Qed.

Lemma inside_split root p :
  inside root p ->
  exists c, p = (root ++ c)%string /\ (c = "" \/ exists c', c = String slash c').
Proof.
  intros [->|H].
  - exists "". split; [now rewrite append_nil_r|now left].
  - unfold startsWith in H. apply prefix_split in H. destruct H as [b ->].
    exists (String slash b). split; [|right; eauto].
    now rewrite append_assoc.
Qed.

(** The three category roots of a provider differ from their first
    character after a common beginning. *)
Lemma constructor_roots root :
  exists base,
    sourceDirectory (constructor root) = (base ++ "web-src")%string
    /\ resourcesDirectory (constructor root) = (base ++ "res")%string
    /\ includeDirectory (constructor root) = (base ++ "include")%string.
Proof.
  exists (root_prefix root
          ++ with_separators
               (normalizeString (split_slash root) (negb (isAbsolute root))))%string.
  simpl. rewrite !path_join_name by reflexivity.
  rewrite !append_assoc. auto.
Qed.

Lemma inside_classified root d fsPath :
  let tp := constructor root in
  d = sourceDirectory tp \/ d = resourcesDirectory tp \/ d = includeDirectory tp ->
  inside d fsPath ->
  elementTypeDir_of tp fsPath = Some d.
Proof.
  intros tp Hd Hin.
  destruct (constructor_roots root) as [base [Hs [Hr Hi]]].
  fold tp in Hs, Hr, Hi.
  destruct (inside_split _ _ Hin) as [c [Hp Hc]].
  unfold elementTypeDir_of, startsWith.
  destruct Hd as [Hd|[Hd|Hd]]; rewrite Hd in Hp |- *; rewrite Hs, Hr, Hi;
    rewrite ?Hs, ?Hr, ?Hi in Hp; subst fsPath;
    rewrite append_assoc, !prefix_append_same.
  - now rewrite prefix_append.
  - change (String.prefix "web-src" ("res" ++ c)) with false. cbv iota.
    now rewrite prefix_append.
  - change (String.prefix "web-src" ("include" ++ c)) with false.
    change (String.prefix "res" ("include" ++ c)) with false. cbv iota.
    now rewrite prefix_append.
Qed.

(** C3: when the selected node's path is one of the three category roots of
    the provider or lies inside one, the target directory of a creation is
    the requested category's root joined with the path, relative to the
    node's own category root, of the node itself when it is a directory and
    of its parent directory when it is a file.  With [web-src/a/x.txt] and
    [res/a/y.txt], the merged directory [a] selected and a resource file
    [z.txt] asked for, the target is [res/a] and the file made is
    [res/a/z.txt]. *)
Theorem create_target_mirrors_relative_path :
  (forall disk root el type fsPath stats d,
      let tp := constructor root in
      resourceUri el = Some fsPath ->
      statSync disk fsPath = Ok stats ->
      d = sourceDirectory tp \/ d = resourcesDirectory tp
      \/ d = includeDirectory tp ->
      inside d fsPath ->
      targetDir_of disk tp (Some el) type
      = Ok (path_join
              [baseDir_of tp type;
               path_relative d
                 (if stats_isDirectory stats then fsPath
                  else path_dirname fsPath)]))
  /\ (exists a w',
        let w := {| disk_of := disk_two_roots; treeProvider := constructor "/ws";
                    messages := []; fired := 0 |} in
        _getFilesFromFolders disk_two_roots (constructor "/ws") 3
          [Some "web-src"; Some "res"] false = Ok [a]
        /\ label a = "a"
        /\ resourceUri a = Some "/ws/web-src/a"
        /\ targetDir_of disk_two_roots (constructor "/ws") (Some a) resource
           = Ok "/ws/res/a"
        /\ targetPath_of "/ws/res/a" "z.txt" = "/ws/res/a/z.txt"
        /\ createFilePrompt w (Some a) resource (Some "z.txt") = (w', Ok tt)
        /\ is_file (disk_of w') "/ws/res/a/z.txt" = true
        /\ existsSync (disk_of w') "/ws/web-src/a/z.txt" = false).
Proof.
  split.
  - intros disk root el type fsPath stats d tp Huri Hstat Hd Hin.
    unfold targetDir_of. rewrite Huri, Hstat. cbn [bind].
    unfold tp. rewrite (inside_classified root d fsPath Hd Hin). reflexivity.
  - do 2 eexists. repeat split.
Qed.

Lemma create_target_mirrors_relative_path_witness :
  let el := set_resourceUri (new_TreeItem "y.txt" CollapsibleNone)
              "/ws/res/a/y.txt" in
  resourceUri el = Some "/ws/res/a/y.txt"
  /\ statSync disk_two_roots "/ws/res/a/y.txt"
     = Ok {| stats_isDirectory := false |}
  /\ inside "/ws/res" "/ws/res/a/y.txt"
  /\ targetDir_of disk_two_roots (constructor "/ws") (Some el) source
     = Ok "/ws/web-src/a".
Proof.
  intros el.
  assert (Hin : inside "/ws/res" "/ws/res/a/y.txt") by (right; reflexivity).
  split; [reflexivity|]. split; [reflexivity|]. split; [exact Hin|].
  exact (proj1 create_target_mirrors_relative_path disk_two_roots "/ws" el
           source "/ws/res/a/y.txt" {| stats_isDirectory := false |} "/ws/res"
           eq_refl eq_refl (or_intror (or_introl eq_refl)) Hin).
Defined.

(** ** Paths as lists of segments *)

Lemma with_separators_concat segs :
  segs <> [] ->
  with_separators segs = (String.concat "/" segs ++ "/")%string.
Proof.
  induction segs as [|s segs IH]; intros Hne; [congruence|].
  destruct segs as [|s' segs'].
  - reflexivity.
  - rewrite concat_cons by discriminate.
    change (with_separators (s :: s' :: segs'))
      with (s ++ String slash (with_separators (s' :: segs')))%string.
    rewrite IH by discriminate. now rewrite append_assoc.
Qed.

Lemma concat_app (a b : list string) :
  a <> [] -> b <> [] ->
  String.concat "/" (a ++ b)
  = (String.concat "/" a ++ String slash (String.concat "/" b))%string.
Proof.
  intros Ha Hb. induction a as [|x a IH]; [congruence|].
  destruct a as [|y a'].
  - simpl app. now rewrite concat_cons.
  - change ((x :: y :: a') ++ b) with (x :: ((y :: a') ++ b)).
    rewrite !concat_cons by discriminate.
    rewrite IH by discriminate. now rewrite append_assoc.
Qed.

Lemma resolve_abs_path segs :
  Forall (fun n => valid_name n = true) segs ->
  resolve_segments (abs_path segs) = segs.
Proof.
  intros H. rewrite resolve_segments_eq. unfold abs_path.
  change (split_slash ("/" ++ String.concat "/" segs))
    with ("" :: split_slash (String.concat "/" segs)).
  rewrite normalizeString_cons_empty.
  destruct segs as [|s segs]; [reflexivity|].
  rewrite split_slash_concat.
  - now apply normalizeString_valid.
  - eapply Forall_impl; [|exact H]. apply valid_name_no_slash.
  - discriminate.
Qed.

Lemma resolve_segments_valid p :
  Forall (fun n => valid_name n = true) (resolve_segments p).
Proof.
  rewrite resolve_segments_eq. apply normalizeString_strict_valid.
  apply split_slash_all_no_slash.
Qed.

Lemma path_join_abs (root n : string) :
  isAbsolute root = true -> valid_name n = true ->
  path_join [root; n] = abs_path (resolve_segments root ++ [n]).
Proof.
  intros Habs Hn. rewrite path_join_name by exact Hn.
  unfold root_prefix, abs_path. rewrite Habs. simpl negb.
  now rewrite concat_snoc, resolve_segments_eq.
Qed.

(** *** Prefixes of strings and segments *)

Lemma no_slash_cons c s :
  no_slash (String c s) = negb (is_slash c) && no_slash s.
Proof. unfold no_slash. simpl. now rewrite Bool.negb_orb. Qed.

Lemma prefix_sep (w p1 u v : string) :
  no_slash w = true -> no_slash p1 = true ->
  String.prefix (w ++ String slash u) (p1 ++ String slash v) = true ->
  w = p1 /\ String.prefix u v = true.
Proof.
  revert p1. induction w as [|a w IH]; intros p1 Hw Hp H.
  - destruct p1 as [|c p1].
    + simpl append in H. rewrite prefix_cons, Ascii.eqb_refl in H. auto.
    + rewrite no_slash_cons in Hp. apply Bool.andb_true_iff in Hp.
      destruct Hp as [Hc _]. unfold is_slash in Hc.
      simpl append in H. rewrite prefix_cons in H.
      rewrite Ascii.eqb_sym in H.
      apply Bool.negb_true_iff in Hc. rewrite Hc in H. discriminate.
  - rewrite no_slash_cons in Hw. apply Bool.andb_true_iff in Hw.
    destruct Hw as [Ha Hw]. unfold is_slash in Ha.
    apply Bool.negb_true_iff in Ha.
    destruct p1 as [|c p1].
    + simpl append in H. rewrite prefix_cons, Ha in H. discriminate.
    + rewrite no_slash_cons in Hp. apply Bool.andb_true_iff in Hp.
      destruct Hp as [_ Hp].
      simpl append in H. rewrite prefix_cons in H.
      destruct (Ascii.eqb a c) eqn:E; [|discriminate].
      apply Ascii.eqb_eq in E. subst c.
      destruct (IH p1 Hw Hp H) as [-> Huv]. auto.
Qed.

Lemma prefix_sep_whole (w p1 u : string) :
  no_slash p1 = true ->
  String.prefix (w ++ String slash u) p1 = false.
Proof.
  revert p1. induction w as [|a w IH]; intros p1 Hp.
  - destruct p1 as [|c p1]; [reflexivity|].
    rewrite no_slash_cons in Hp. apply Bool.andb_true_iff in Hp.
    destruct Hp as [Hc _]. unfold is_slash in Hc.
    apply Bool.negb_true_iff in Hc.
    simpl append. rewrite prefix_cons, Ascii.eqb_sym, Hc. reflexivity.
  - destruct p1 as [|c p1]; [reflexivity|].
    rewrite no_slash_cons in Hp. apply Bool.andb_true_iff in Hp.
    destruct Hp as [_ Hp].
    simpl append. rewrite prefix_cons.
    destruct (Ascii.eqb a c); [now apply IH|reflexivity].
Qed.

Lemma prefix_name_seg (x p1 t : string) :
  no_slash x = true ->
  String.prefix x (p1 ++ String slash t) = true ->
  String.prefix x p1 = true.
Proof.
  revert p1. induction x as [|a x IH]; intros p1 Hx H; [apply prefix_nil|].
  rewrite no_slash_cons in Hx. apply Bool.andb_true_iff in Hx.
  destruct Hx as [Ha Hx]. unfold is_slash in Ha.
  apply Bool.negb_true_iff in Ha.
  destruct p1 as [|c p1].
  - simpl append in H. rewrite prefix_cons, Ha in H. discriminate.
  - simpl append in H. rewrite prefix_cons in H |- *.
    destruct (Ascii.eqb a c); [now apply IH|discriminate].
Qed.

(** A path that starts with the string of a root shares the segments of the
    root, up to a last segment that may go on. *)
Lemma prefix_segments (W : list string) (X : string) :
  Forall (fun x => no_slash x = true) W -> no_slash X = true -> X <> "" ->
  forall P,
    Forall (fun x => no_slash x = true) P ->
    String.prefix (with_separators W ++ X) (String.concat "/" P) = true ->
    exists s rest, P = W ++ (X ++ s)%string :: rest.
Proof.
  intros HW HX HXne. induction HW as [|w W Hw HW IH]; intros P HP H.
  - simpl in H. destruct P as [|p1 P'].
    + destruct X; [congruence|discriminate].
    + inversion HP as [|? ? Hp1 HP']; subst.
      assert (Hpre : String.prefix X p1 = true).
      { destruct P' as [|p2 P'']; [exact H|].
        rewrite concat_cons in H by discriminate.
        eapply prefix_name_seg; eauto. }
      apply prefix_split in Hpre. destruct Hpre as [s ->].
      exists s, P'. reflexivity.
  - cbn [with_separators] in H. rewrite append_assoc in H.
    change (("/" ++ with_separators W) ++ X)%string
      with (String slash (with_separators W ++ X)) in H.
    destruct P as [|p1 P'].
    + simpl in H. destruct w; discriminate.
    + inversion HP as [|? ? Hp1 HP']; subst.
      destruct P' as [|p2 P''].
      * simpl String.concat in H.
        rewrite prefix_sep_whole in H by exact Hp1. discriminate.
      * rewrite concat_cons in H by discriminate.
        destruct (prefix_sep _ _ _ _ Hw Hp1 H) as [-> Hrest].
        destruct (IH _ HP' Hrest) as [s [rest Heq]].
        exists s, rest. simpl. now rewrite Heq.
Qed.

Lemma append_same_empty (x s : string) : (x ++ s)%string = x -> s = "".
Proof.
  induction x as [|c x IH]; simpl; [auto|].
  intros H. inversion H. auto.
Qed.

Lemma drop_common_app (W a b : list string) :
  drop_common (W ++ a) (W ++ b) = drop_common a b.
Proof.
  induction W as [|w W IH]; simpl; [reflexivity|].
  now rewrite String.eqb_refl.
Qed.

Lemma trailingSeparator_segment (a z : string) :
  no_slash z = true -> z <> "" -> trailingSeparator (a ++ z) = false.
Proof.
  intros Hz Hne. unfold trailingSeparator.
  rewrite last_char_append by exact Hne.
  destruct (last_char z) as [c|] eqn:Hc; [|reflexivity].
  eapply last_char_no_slash; eauto.
Qed.

(** [path.normalize] of an absolute path given by its segments. *)
Lemma path_normalize_abs_path segs z :
  Forall (fun x => no_slash x = true) (segs ++ [z]) -> z <> "" ->
  path_normalize (abs_path (segs ++ [z]))
  = abs_path (normalizeString (segs ++ [z]) false).
Proof.
  intros Hall Hz.
  assert (Hzs : no_slash z = true).
  { apply Forall_app in Hall. destruct Hall as [_ Hl]. now inversion Hl. }
  unfold path_normalize.
  change (abs_path (segs ++ [z]) =? "") with false. cbv iota.
  change (isAbsolute (abs_path (segs ++ [z]))) with true. simpl negb.
  assert (Htrail : trailingSeparator (abs_path (segs ++ [z])) = false).
  { unfold abs_path. rewrite concat_snoc, <- append_assoc.
    now apply trailingSeparator_segment. }
  rewrite Htrail.
  assert (Hsplit : split_slash (abs_path (segs ++ [z])) = "" :: (segs ++ [z])).
  { unfold abs_path.
    change (split_slash ("/" ++ ?x)) with ("" :: split_slash x).
    rewrite split_slash_concat; [reflexivity|exact Hall|].
    destruct segs; discriminate. }
  rewrite Hsplit, normalizeString_cons_empty.
  unfold abs_path.
  destruct (String.concat "/" (normalizeString (segs ++ [z]) false) =? "") eqn:E.
  - apply String.eqb_eq in E. now rewrite E.
  - reflexivity.
Qed.

(** [path.join] of an absolute path and a relative one, both given by their
    segments. *)
Lemma path_join_abs_path A B z :
  A <> [] ->
  Forall (fun x => no_slash x = true) A ->
  Forall (fun x => no_slash x = true) (B ++ [z]) -> z <> "" ->
  path_join [abs_path A; String.concat "/" (B ++ [z])]
  = abs_path (normalizeString (A ++ B ++ [z]) false).
Proof.
  intros HA HAs HB Hz. unfold path_join.
  assert (Hrel : String.concat "/" (B ++ [z]) <> "").
  { rewrite concat_snoc. now apply append_nonempty_r. }
  apply String.eqb_neq in Hrel.
  cbn [filter]. change (abs_path A =? "") with false. rewrite Hrel.
  cbn [negb].
  assert (Hcat : String.concat "/" [abs_path A; String.concat "/" (B ++ [z])]
                 = abs_path ((A ++ B) ++ [z])).
  { unfold abs_path. rewrite <- app_assoc.
    rewrite (concat_app A (B ++ [z])) by (try assumption; destruct B; discriminate).
    reflexivity. }
  rewrite Hcat, path_normalize_abs_path.
  - now rewrite <- app_assoc.
  - rewrite <- app_assoc. apply Forall_app. now split.
  - exact Hz.
Qed.

(** *** [path.dirname] of a resolved path *)

Lemma chars_of_string_append (a b : string) :
  chars_of_string (a ++ b) = chars_of_string a ++ chars_of_string b.
Proof. induction a as [|c a IH]; simpl; [reflexivity|now rewrite IH]. Qed.

Lemma string_of_chars_of_string s : string_of_chars (chars_of_string s) = s.
Proof. induction s as [|c s IH]; simpl; [reflexivity|now rewrite IH]. Qed.

Lemma drop_while_all {A : Type} (f : A -> bool) (l1 l2 : list A) :
  forallb f l1 = true -> drop_while f (l1 ++ l2) = drop_while f l2.
Proof.
  induction l1 as [|a l1 IH]; simpl; [reflexivity|].
  intros H. apply Bool.andb_true_iff in H. destruct H as [Ha Hl].
  rewrite Ha. now apply IH.
Qed.

Lemma no_slash_chars s :
  no_slash s = true ->
  forallb (fun c => negb (is_slash c)) (rev (chars_of_string s)) = true.
Proof.
  unfold no_slash. intros H. apply forallb_forall. intros c Hc.
  apply in_rev in Hc. apply Bool.negb_true_iff in H.
  destruct (is_slash c) eqn:E; [|reflexivity].
  assert (Hex : existsb is_slash (chars_of_string s) = true).
  { apply existsb_exists. eauto. }
  congruence.
Qed.

Lemma drop_while_slash_name z l :
  no_slash z = true -> z <> "" ->
  drop_while is_slash (rev (chars_of_string z) ++ l)
  = rev (chars_of_string z) ++ l.
Proof.
  intros Hz Hne. pose proof (no_slash_chars z Hz) as Hall.
  destruct (rev (chars_of_string z)) as [|c r] eqn:E.
  - exfalso. destruct z; [congruence|].
    simpl in E. now apply app_eq_nil in E as [_ E].
  - simpl in Hall |- *. apply Bool.andb_true_iff in Hall.
    destruct Hall as [Hc _]. apply Bool.negb_true_iff in Hc. now rewrite Hc.
Qed.

Lemma concat_valid_nonempty Q :
  Q <> [] -> Forall (fun n => valid_name n = true) Q ->
  String.concat "/" Q <> "".
Proof.
  intros Hne H. destruct Q as [|q Q]; [congruence|].
  inversion H as [|? ? Hq _]; subst.
  destruct Q.
  - simpl. now apply valid_name_nonempty.
  - rewrite concat_cons by discriminate.
    destruct q; [discriminate|discriminate].
Qed.

Lemma path_dirname_abs_path Q z :
  Forall (fun n => valid_name n = true) Q -> valid_name z = true ->
  path_dirname (abs_path (Q ++ [z])) = abs_path Q.
Proof.
  intros HQ Hz. unfold abs_path. rewrite concat_snoc.
  change ("/" ++ (with_separators Q ++ z))%string
    with (String slash (with_separators Q ++ z)).
  unfold path_dirname. change (is_slash slash) with true.
  rewrite chars_of_string_append, rev_app_distr.
  rewrite drop_while_slash_name
    by (try apply valid_name_no_slash; try apply valid_name_nonempty; exact Hz).
  rewrite drop_while_all by (apply no_slash_chars, valid_name_no_slash, Hz).
  destruct Q as [|q Q'].
  - reflexivity.
  - rewrite with_separators_concat by discriminate.
    pose proof (concat_valid_nonempty (q :: Q')) as Hne.
    remember (String.concat "/" (q :: Q')) as body eqn:Hbody.
    rewrite chars_of_string_append, rev_app_distr.
    simpl rev at 1. simpl app. cbn [drop_while].
    change (negb (is_slash "/")) with false. cbv iota.
    assert (Hlen : (length (rev (chars_of_string body)) =? 0)%nat = false).
    { apply Nat.eqb_neq. rewrite length_rev.
      destruct body; simpl.
      - exfalso. apply Hne; [discriminate|exact HQ|reflexivity].
      - lia. }
    rewrite Hlen. simpl andb. cbv iota.
    now rewrite rev_involutive, string_of_chars_of_string.
Qed.

(** ** A node beside its category root *)

Lemma path_join_abs_relative A R :
  A <> [] -> R <> [] ->
  Forall (fun x => no_slash x = true) A ->
  Forall (fun x => no_slash x = true) R ->
  Forall (fun x => x <> "") R ->
  path_join [abs_path A; String.concat "/" R]
  = abs_path (normalizeString (A ++ R) false).
Proof.
  intros HA HR HAs HRs HRne.
  destruct (exists_last HR) as [B [z ->]].
  apply path_join_abs_path; try assumption.
  apply Forall_app in HRne. destruct HRne as [_ Hz]. now inversion Hz.
Qed.

(** Going up from one child of a directory and down again. *)
Lemma normalizeString_up_down W Y D :
  Forall (fun n => valid_name n = true) W -> valid_name Y = true ->
  Forall (fun n => valid_name n = true) D ->
  normalizeString ((W ++ [Y]) ++ ".." :: D) false = W ++ D.
Proof.
  intros HW HY HD. rewrite normalizeString_app.
  rewrite normalizeString_valid
    by (apply Forall_app; split; [exact HW|constructor; [exact HY|constructor]]).
  rewrite rev_app_distr. simpl rev at 2. simpl app. cbn [fold_left].
  rewrite step_dotdot_pop.
  - rewrite fold_valid_names by exact HD.
    now rewrite rev_app_distr, !rev_involutive.
  - destruct (Y =? "..") eqn:E; [|reflexivity].
    apply String.eqb_eq in E. subst. discriminate.
Qed.

Lemma valid_names_facts l :
  Forall (fun n => valid_name n = true) l ->
  Forall (fun x => no_slash x = true) l /\ Forall (fun x => x <> "") l.
Proof.
  intros H. split; (eapply Forall_impl; [|exact H]).
  - apply valid_name_no_slash.
  - apply valid_name_nonempty.
Qed.

(** The path to a node that lies next to a category root, not inside it,
    relative to that root: one step up, then down to the node. *)
Lemma relative_beside_root W X D :
  Forall (fun n => valid_name n = true) W ->
  valid_name X = true ->
  Forall (fun n => valid_name n = true) D ->
  (D = [] \/ exists s D', s <> "" /\ D = (X ++ s)%string :: D') ->
  path_relative (abs_path (W ++ [X])) (abs_path (W ++ D))
  = String.concat "/" (".." :: D).
Proof.
  intros HW HX HD Hshape.
  assert (HWX : Forall (fun n => valid_name n = true) (W ++ [X])).
  { apply Forall_app. split; [exact HW|constructor; [exact HX|constructor]]. }
  assert (HWD : Forall (fun n => valid_name n = true) (W ++ D)).
  { apply Forall_app. now split. }
  unfold path_relative. rewrite !resolve_abs_path by assumption.
  rewrite drop_common_app.
  assert (Hdrop : drop_common [X] D = ([X], D)).
  { destruct Hshape as [->|[s [D' [Hs ->]]]]; [reflexivity|].
    simpl. destruct (X =? X ++ s) eqn:E; [|reflexivity].
    apply String.eqb_eq in E. symmetry in E.
    apply append_same_empty in E. congruence. }
  now rewrite Hdrop.
Qed.

(** The mirrored target of such a node is the node again. *)
Lemma mirror_beside_root W X Y D :
  Forall (fun n => valid_name n = true) W ->
  valid_name X = true -> valid_name Y = true ->
  Forall (fun n => valid_name n = true) D ->
  (D = [] \/ exists s D', s <> "" /\ D = (X ++ s)%string :: D') ->
  path_join [abs_path (W ++ [Y]);
             path_relative (abs_path (W ++ [X])) (abs_path (W ++ D))]
  = abs_path (W ++ D).
Proof.
  intros HW HX HY HD Hshape.
  assert (HWY : Forall (fun n => valid_name n = true) (W ++ [Y])).
  { apply Forall_app. split; [exact HW|constructor; [exact HY|constructor]]. }
  rewrite relative_beside_root by assumption.
  rewrite path_join_abs_relative.
  - now rewrite normalizeString_up_down.
  - destruct W; discriminate.
  - discriminate.
  - apply (valid_names_facts _ HWY).
  - constructor; [reflexivity|]. apply (valid_names_facts _ HD).
  - constructor; [discriminate|]. apply (valid_names_facts _ HD).
Qed.

Lemma removelast_valid l :
  Forall (fun n => valid_name n = true) l ->
  Forall (fun n => valid_name n = true) (removelast l).
Proof.
  induction 1 as [|x l Hx Hl IH]; [constructor|].
  destruct l; [constructor|]. simpl. constructor; assumption.
Qed.

(** The directory a node outside the roots falls back to, by segments. *)
Lemma own_directory_segments stats W first rest :
  Forall (fun n => valid_name n = true) (W ++ first :: rest) ->
  exists D,
    own_directory stats (abs_path (W ++ first :: rest)) = abs_path (W ++ D)
    /\ Forall (fun n => valid_name n = true) D
    /\ (D = [] \/ exists D', D = first :: D').
Proof.
  intros H. apply Forall_app in H. destruct H as [HW HD].
  unfold own_directory. destruct (stats_isDirectory stats).
  - exists (first :: rest). split; [reflexivity|]. split; [exact HD|]. eauto.
  - assert (Hne : first :: rest <> []) by discriminate.
    destruct (exists_last Hne) as [Q [z Hq]].
    exists Q. rewrite Hq in HD |- *. apply Forall_app in HD.
    destruct HD as [HQ Hz]. inversion Hz; subst.
    split; [|split; [exact HQ|]].
    + rewrite app_assoc, path_dirname_abs_path; try assumption; [reflexivity|].
      apply Forall_app. now split.
    + destruct Q as [|q Q']; [now left|right].
      simpl in Hq. inversion Hq. eauto.
Qed.

(** The paths the merge gives its nodes are resolved ones, when the folders
    scanned have absolute paths (as they have under an absolute workspace
    root, at the top and at every level below). *)
Lemma merged_node_path_resolved disk this fuel roots isFullPath items it p :
  wf_disk disk = true ->
  (forall n, In (Some n) roots ->
     isAbsolute (folderPath_of this isFullPath n) = true) ->
  _getFilesFromFolders disk this fuel roots isFullPath = Ok items ->
  In it items ->
  resourceUri it = Some p ->
  isAbsolute p = true /\ path_resolve p = p.
Proof.
  intros Hwf Habs H Hit Hp.
  destruct (node_path_under_first_root _ _ _ _ _ _ _ H Hit) as [r [Hr Hpath]].
  rewrite Hp in Hpath. injection Hpath as Hpath.
  unfold first_root_with in Hr.
  destruct (find (root_lists disk this isFullPath (label it)) roots)
    as [[n|]|] eqn:Hfind; try discriminate.
  injection Hr as Hr. apply find_some in Hfind. destruct Hfind as [Hin Hlists].
  unfold root_lists in Hlists. rewrite Hr in Hlists.
  apply Bool.andb_true_iff in Hlists. destruct Hlists as [_ Hmem].
  apply mem_string_In in Hmem.
  assert (Hvalid : valid_name (label it) = true).
  { apply In_listing in Hmem. destruct Hmem as [es [Hlook Hmem]].
    eapply names_valid; [|exact Hmem]. eapply lookup_wf; eauto. }
  assert (Hr_abs : isAbsolute r = true) by (rewrite <- Hr; now apply Habs).
  rewrite path_join_abs in Hpath by assumption. subst p.
  split; [reflexivity|].
  unfold path_resolve. rewrite resolve_abs_path; [reflexivity|].
  apply Forall_app. split; [apply resolve_segments_valid|].
  constructor; [exact Hvalid|constructor].
Qed.

(** A node whose path starts with the string of a category root without
    being in it, by segments: the root is a child [X] of the workspace, and
    the directory the node falls back to is the workspace itself or goes
    through a child whose name starts with [X] and goes on. *)
Lemma raw_prefix_shape root p stats d :
  isAbsolute root = true ->
  path_resolve p = p ->
  elementTypeDir_of (constructor root) p = Some d ->
  ~ inside d p ->
  exists X D,
    valid_name X = true
    /\ Forall (fun n => valid_name n = true) D
    /\ (D = [] \/ exists s D', s <> "" /\ D = (X ++ s)%string :: D')
    /\ d = abs_path (resolve_segments root ++ [X])
    /\ own_directory stats p = abs_path (resolve_segments root ++ D).
Proof.
  intros Habs Hres Hclass Hout.
  pose proof (resolve_segments_valid root) as HW.
  pose proof (resolve_segments_valid p) as HP.
  set (W := resolve_segments root) in *.
  set (P := resolve_segments p) in *.
  assert (Hp : p = abs_path P) by (symmetry; exact Hres).
  (* the category root the node is classified under *)
  assert (Hd : exists X, valid_name X = true /\ d = abs_path (W ++ [X])
                         /\ startsWith p d = true).
  { unfold elementTypeDir_of in Hclass. simpl in Hclass.
    destruct (startsWith p (path_join [root; "web-src"])) eqn:E1.
    { exists "web-src". inversion Hclass; subst d.
      rewrite path_join_abs in * by (try assumption; reflexivity). auto. }
    destruct (startsWith p (path_join [root; "res"])) eqn:E2.
    { exists "res". inversion Hclass; subst d.
      rewrite path_join_abs in * by (try assumption; reflexivity). auto. }
    destruct (startsWith p (path_join [root; "include"])) eqn:E3;
      [|discriminate].
    exists "include". inversion Hclass; subst d.
    rewrite path_join_abs in * by (try assumption; reflexivity). auto. }
  destruct Hd as [X [HX [Hd Hpre]]].
  (* the segments of the node *)
  assert (Hsegs : exists s rest, P = W ++ (X ++ s)%string :: rest).
  { apply (prefix_segments W X).
    - apply (valid_names_facts _ HW).
    - now apply valid_name_no_slash.
    - now apply valid_name_nonempty.
    - apply (valid_names_facts _ HP).
    - unfold startsWith in Hpre. rewrite Hd, Hp in Hpre. unfold abs_path in Hpre.
      rewrite concat_snoc in Hpre.
      change (String.prefix (String slash (with_separators W ++ X))
                (String slash (String.concat "/" P)) = true) in Hpre.
      now rewrite prefix_cons, Ascii.eqb_refl in Hpre. }
  destruct Hsegs as [s [rest HPeq]].
  assert (Hs : s <> "").
  { intros ->. apply Hout. rewrite append_nil_r in HPeq.
    rewrite Hp, Hd, HPeq. destruct rest as [|r rest'].
    - now left.
    - right. unfold startsWith, abs_path.
      change (W ++ X :: r :: rest') with (W ++ [X] ++ r :: rest').
      rewrite app_assoc.
      rewrite (concat_app (W ++ [X]) (r :: rest'))
        by (try discriminate; destruct W; discriminate).
      change (("/" ++ String.concat "/" (W ++ [X])) ++ "/")%string
        with (String slash (String.concat "/" (W ++ [X]) ++ "/")).
      change ("/" ++ (String.concat "/" (W ++ [X])
                      ++ String slash (String.concat "/" (r :: rest'))))%string
        with (String slash (String.concat "/" (W ++ [X])
                            ++ ("/" ++ String.concat "/" (r :: rest')))).
      rewrite prefix_cons, Ascii.eqb_refl, <- append_assoc.
      apply prefix_append. }
  rewrite HPeq in HP.
  destruct (own_directory_segments stats W _ rest HP) as [D [Hown [HD Hshape]]].
  rewrite <- HPeq, <- Hp in Hown.
  exists X, D. split; [exact HX|]. split; [exact HD|].
  split; [|split; [exact Hd|exact Hown]].
  destruct Hshape as [->|[D' ->]]; [now left|right; eauto].
Qed.

(** The creation classifies such a node under that root, and the target it
    computes through the relative path is the directory the node would fall
    back to. *)
Lemma raw_prefix_target disk root el type p stats d :
  isAbsolute root = true ->
  resourceUri el = Some p ->
  path_resolve p = p ->
  statSync disk p = Ok stats ->
  elementTypeDir_of (constructor root) p = Some d ->
  ~ inside d p ->
  targetDir_of disk (constructor root) (Some el) type
  = Ok (own_directory stats p).
Proof.
  intros Habs Huri Hres Hstat Hclass Hout.
  destruct (raw_prefix_shape root p stats d Habs Hres Hclass Hout)
    as [X [D [HX [HD [Hshape [Hd Hown]]]]]].
  assert (Hbase : exists Y, valid_name Y = true
                            /\ baseDir_of (constructor root) type
                               = abs_path (resolve_segments root ++ [Y])).
  { destruct type; simpl;
      [exists "res"|exists "web-src"|exists "include"];
      (split; [reflexivity|apply path_join_abs; [exact Habs|reflexivity]]). }
  destruct Hbase as [Y [HY Hbase]].
  unfold targetDir_of. rewrite Huri, Hstat. cbn [bind]. rewrite Hclass.
  fold (own_directory stats p). rewrite Hown, Hbase, Hd.
  f_equal. apply mirror_beside_root; try assumption.
  apply resolve_segments_valid.
Qed.

(** The relative path the creation computes for such a node starts by going
    up, out of the root the node was classified under. *)
Lemma raw_prefix_relative_goes_up root p stats d :
  isAbsolute root = true ->
  path_resolve p = p ->
  elementTypeDir_of (constructor root) p = Some d ->
  ~ inside d p ->
  startsWith (path_relative d (own_directory stats p)) ".." = true.
Proof.
  intros Habs Hres Hclass Hout.
  destruct (raw_prefix_shape root p stats d Habs Hres Hclass Hout)
    as [X [D [HX [HD [Hshape [Hd Hown]]]]]].
  rewrite Hd, Hown, relative_beside_root;
    try assumption; [|apply resolve_segments_valid].
  destruct D as [|d1 D']; [reflexivity|].
  rewrite concat_cons by discriminate. reflexivity.
Qed.

(** C10, counterexample: no node whose path starts with the string of a
    category root without being in that root has its creation target moved
    away from its own directory; the target is the directory the node would
    fall back to were it not classified at all. *)
Lemma raw_prefix_never_moves_the_target :
  ~ exists disk root el type p stats d,
      isAbsolute root = true
      /\ resourceUri el = Some p
      /\ path_resolve p = p
      /\ statSync disk p = Ok stats
      /\ elementTypeDir_of (constructor root) p = Some d
      /\ ~ inside d p
      /\ targetDir_of disk (constructor root) (Some el) type
         <> Ok (own_directory stats p).
Proof.
  intros [disk [root [el [type [p [stats [d H]]]]]]].
  destruct H as [Habs [Huri [Hres [Hstat [Hclass [Hout Hneq]]]]]].
  apply Hneq. eapply raw_prefix_target; eauto.
Qed.

(** C10, amended: the directory [res-extra] beside the resources root [res]
    is in none of the three category roots, yet its path starts with the
    string of the resources root and the creation classifies it under that
    root (the match is on the raw string, not on path segments).  For every
    such node, in a workspace with an absolute root, the target computed by
    joining the requested category's root with the node's path relative to
    the matched root is the node's own directory, or its parent directory
    when the node is a file. *)
Theorem raw_prefix_match_keeps_own_directory :
  (let tp := constructor "/ws" in
   let p := "/ws/res-extra" in
   let el := set_resourceUri (new_TreeItem "res-extra" Collapsed) p in
   is_directory disk_res_extra p = true
   /\ ~ inside (sourceDirectory tp) p
   /\ ~ inside (resourcesDirectory tp) p
   /\ ~ inside (includeDirectory tp) p
   /\ startsWith p (resourcesDirectory tp) = true
   /\ elementTypeDir_of tp p = Some (resourcesDirectory tp)
   /\ path_relative (resourcesDirectory tp) p = "../res-extra"
   /\ forall type, targetDir_of disk_res_extra tp (Some el) type = Ok p)
  /\ (forall disk root el type p stats d,
        isAbsolute root = true ->
        resourceUri el = Some p ->
        path_resolve p = p ->
        statSync disk p = Ok stats ->
        elementTypeDir_of (constructor root) p = Some d ->
        ~ inside d p ->
        startsWith p d = true
        /\ targetDir_of disk (constructor root) (Some el) type
           = Ok (path_join
                   [baseDir_of (constructor root) type;
                    path_relative d (own_directory stats p)])
        /\ startsWith (path_relative d (own_directory stats p)) ".." = true
        /\ targetDir_of disk (constructor root) (Some el) type
           = Ok (own_directory stats p)).
Proof.
  split.
  - repeat split; try (intros [H|H]; discriminate).
    intros type. destruct type; reflexivity.
  - intros disk root el type p stats d Habs Huri Hres Hstat Hclass Hout.
    split; [|split; [|split]].
    + unfold elementTypeDir_of in Hclass.
      destruct (startsWith p (sourceDirectory (constructor root))) eqn:E1;
        [inversion Hclass; now subst|].
      destruct (startsWith p (resourcesDirectory (constructor root))) eqn:E2;
        [inversion Hclass; now subst|].
      destruct (startsWith p (includeDirectory (constructor root))) eqn:E3;
        [inversion Hclass; now subst|discriminate].
    + unfold targetDir_of. rewrite Huri, Hstat. cbn [bind]. rewrite Hclass.
      reflexivity.
    + eapply raw_prefix_relative_goes_up; eauto.
    + eapply raw_prefix_target; eauto.
Qed.

Lemma raw_prefix_match_keeps_own_directory_witness :
  let p := "/ws/res-extra/b.txt" in
  let el := set_resourceUri (new_TreeItem "b.txt" CollapsibleNone) p in
  let stats := {| stats_isDirectory := false |} in
  isAbsolute "/ws" = true
  /\ path_resolve p = p
  /\ statSync disk_res_extra p = Ok stats
  /\ elementTypeDir_of (constructor "/ws") p = Some "/ws/res"
  /\ ~ inside "/ws/res" p
  /\ targetDir_of disk_res_extra (constructor "/ws") (Some el) source
     = Ok "/ws/res-extra".
Proof.
  intros p el stats.
  assert (Hout : ~ inside "/ws/res" p) by (intros [H|H]; discriminate).
  repeat (split; [reflexivity|]). split; [exact Hout|].
  exact (proj2 (proj2 (proj2 (proj2 raw_prefix_match_keeps_own_directory
                                disk_res_extra "/ws" el source p stats
                                "/ws/res"
                                eq_refl eq_refl eq_refl eq_refl eq_refl Hout)))).
Defined.

(** ** Cancelled prompts *)

(** C8: a create command whose prompt gives no name or the empty name, and a
    delete command whose confirmation is anything but the Delete button,
    return normally and leave the disk, the provider, the messages and the
    change events as they were. *)
Theorem cancelled_prompt_is_noop :
  forall (w : World) (element : option TreeItem),
    (forall type, createFilePrompt w element type None = (w, Ok tt))
    /\ (forall type, createFilePrompt w element type (Some "") = (w, Ok tt))
    /\ (forall confirm, confirm <> Some "Delete" ->
          deleteFilePrompt w element confirm = (w, Ok tt)).
Proof.
  intros w element. repeat split; try reflexivity.
  intros confirm Hc. unfold deleteFilePrompt.
  destruct element as [el|]; [|reflexivity].
  destruct (resourceUri el) as [p|]; [|reflexivity].
  destruct confirm as [answer|]; [|reflexivity].
  destruct (answer =? "Delete") eqn:Ha; [|reflexivity].
  apply String.eqb_eq in Ha. subst. congruence.
Qed.

Lemma cancelled_prompt_is_noop_witness :
  let w := {| disk_of := disk_two_roots; treeProvider := constructor "/ws";
              messages := []; fired := 0 |} in
  let el := Some (set_resourceUri (new_TreeItem "a" Collapsed) "/ws/web-src/a") in
  Some "Cancel" <> Some "Delete"
  /\ deleteFilePrompt w el (Some "Cancel") = (w, Ok tt).
Proof.
  intros w el.
  assert (H : Some "Cancel" <> Some "Delete") by discriminate.
  split; [exact H|].
  exact (proj2 (proj2 (cancelled_prompt_is_noop w el)) (Some "Cancel") H).
Defined.

(** ** The order and the shape of the nodes *)

(** An invariant of single sightings is an invariant of the scan of all the
    roots. *)
Lemma scan_folders_lift disk this isFullPath
  (I : list (string * string) -> ItemMap -> Prop) :
  (forall fp seen merged f merged',
     I seen merged -> scan_file disk fp merged f = Ok merged' ->
     I (seen ++ [(fp, f)]) merged') ->
  I [] [] ->
  forall roots merged,
    forEach (scan_folder disk this isFullPath) roots [] = Ok merged ->
    I (flat_map (sightings_of disk this isFullPath) roots) merged.
Proof.
  intros Hstep Hstart.
  assert (Hfiles : forall fp files seen merged merged',
            I seen merged ->
            forEach (scan_file disk fp) files merged = Ok merged' ->
            I (seen ++ sightings_in fp files) merged').
  { intros fp files. induction files as [|f files IH];
      intros seen merged merged' Hinv H; simpl in H.
    - inversion H; subst. simpl. now rewrite app_nil_r.
    - destruct (scan_file disk fp merged f) as [m1| |] eqn:Hf;
        simpl in H; try discriminate.
      simpl. change ((fp, f) :: sightings_in fp files)
        with ([(fp, f)] ++ sightings_in fp files).
      rewrite app_assoc. eapply IH; [|exact H]. eapply Hstep; eauto. }
  assert (Hfolder : forall seen merged r merged',
            I seen merged ->
            scan_folder disk this isFullPath merged r = Ok merged' ->
            I (seen ++ sightings_of disk this isFullPath r) merged').
  { intros seen merged r merged' Hinv H.
    unfold scan_folder in H. unfold sightings_of.
    destruct r as [n|]; [|inversion H; subst; now rewrite app_nil_r].
    destruct (n =? ""); simpl;
      [inversion H; subst; now rewrite app_nil_r|].
    destruct (existsSync disk (folderPath_of this isFullPath n)); simpl in *;
      [|inversion H; subst; now rewrite app_nil_r].
    unfold listing.
    destruct (readdirSync disk (folderPath_of this isFullPath n))
      as [files| |]; simpl in H; try discriminate.
    eapply Hfiles; eauto. }
  assert (Hall : forall roots seen merged merged',
            I seen merged ->
            forEach (scan_folder disk this isFullPath) roots merged = Ok merged' ->
            I (seen ++ flat_map (sightings_of disk this isFullPath) roots)
              merged').
  { induction roots as [|r roots IH]; intros seen merged merged' Hinv H;
      simpl in H.
    - inversion H; subst. simpl. now rewrite app_nil_r.
    - destruct (scan_folder disk this isFullPath merged r) as [m1| |] eqn:Hf;
        simpl in H; try discriminate.
      simpl. rewrite app_assoc. eapply IH; [|exact H].
      eapply Hfolder; eauto. }
  intros roots merged H. apply (Hall roots [] [] merged Hstart H).
Qed.

Lemma map_has_mem m k : map_has m k = mem_string k (map fst m).
Proof.
  unfold map_has. induction m as [|[k' v'] m IH]; simpl; [reflexivity|].
  destruct (k' =? k); [reflexivity|exact IH].
Qed.

Lemma map_set_same m k v : map_get m k = Some v -> map_set m k v = m.
Proof.
  induction m as [|[k' v'] m IH]; simpl; [discriminate|].
  destruct (k' =? k) eqn:E; [intros H; now inversion H|].
  intros H. now rewrite IH.
Qed.

Lemma scan_file_keys disk fp merged f merged' :
  scan_file disk fp merged f = Ok merged' ->
  map fst merged'
  = if mem_string f (map fst merged) then map fst merged
    else map fst merged ++ [f].
Proof.
  intros H. unfold scan_file in H.
  destruct (statSync disk (path_join [fp; f])) as [st| |]; simpl in H;
    try discriminate.
  rewrite <- map_has_mem.
  destruct (map_get merged f) as [item|] eqn:Hget.
  - destruct (stats_isDirectory st).
    + destruct (_mergePaths item); try discriminate.
      inversion H; subst. apply map_set_keys.
    + inversion H; subst. unfold map_has. now rewrite Hget.
  - inversion H; subst. apply map_set_keys.
Qed.

Lemma scanned_keys disk this isFullPath roots merged :
  forEach (scan_folder disk this isFullPath) roots [] = Ok merged ->
  map fst merged = first_occurrences (scanned_names disk this isFullPath roots).
Proof.
  unfold scanned_names.
  apply (scan_folders_lift disk this isFullPath
           (fun seen merged =>
              map fst merged = first_occurrences (map snd seen))).
  - intros fp seen merged0 f merged' Hinv H.
    rewrite (scan_file_keys _ _ _ _ _ H), Hinv.
    unfold first_occurrences. rewrite map_app, fold_left_app. reflexivity.
  - reflexivity.
Qed.

Lemma expanded_keys recur merged merged' :
  mapM (expand_item recur) merged = Ok merged' ->
  map fst merged' = map fst merged
  /\ map label (map_values merged') = map label (map_values merged).
Proof.
  intros H. apply mapM_Ok_Forall2 in H.
  induction H as [|kv kv' l l' Hkv _ IH]; [split; reflexivity|].
  destruct (expand_item_keeps _ _ _ Hkv) as [Hk [Hl _]].
  destruct IH as [IH1 IH2]. simpl. now rewrite Hk, Hl, IH1, IH2.
Qed.

Lemma scanned_labels disk this isFullPath roots merged :
  forEach (scan_folder disk this isFullPath) roots [] = Ok merged ->
  map label (map_values merged) = map fst merged.
Proof.
  intros H.
  assert (Hinv : scan_inv
            ([] ++ flat_map (sightings_of disk this isFullPath) roots) merged).
  { eapply scan_folders_inv; [|exact H].
    split; [intros k0 _ []|intros k0 v0 []]. }
  destruct Hinv as [_ Hitems]. clear H.
  induction merged as [|[k v] merged IH]; [reflexivity|].
  simpl. rewrite IH.
  - f_equal. apply (Hitems k v). now left.
  - intros k0 v0 Hin. apply Hitems. now right.
Qed.

(** X1: the nodes come in the order in which their names were first met by
    the scan, root by root and name by name. *)
Theorem nodes_in_first_discovery_order :
  forall disk this fuel (roots : list (option string)) isFullPath items,
    _getFilesFromFolders disk this fuel roots isFullPath = Ok items ->
    map label items
    = first_occurrences (scanned_names disk this isFullPath roots).
Proof.
  intros disk this fuel roots isFullPath items H.
  destruct fuel as [|fuel]; simpl in H; [discriminate|].
  destruct (forEach (scan_folder disk this isFullPath) roots [])
    as [merged| |] eqn:Hscan; simpl in H; try discriminate.
  destruct (mapM _ merged) as [merged'| |] eqn:Hexp; simpl in H;
    try discriminate.
  injection H as H. rewrite <- H.
  destruct (expanded_keys _ _ _ Hexp) as [_ Hl]. rewrite Hl.
  rewrite (scanned_labels _ _ _ _ _ Hscan).
  now apply scanned_keys.
Qed.

Lemma nodes_in_first_discovery_order_witness :
  exists items,
    _getFilesFromFolders disk_res_extra (constructor "/ws") 3
      [Some "res-extra"; Some "res"; Some "res-extra"] false = Ok items
    /\ map label items = ["sub"; "b.txt"; "a.txt"].
Proof.
  eexists. split; [reflexivity|].
  exact (nodes_in_first_discovery_order disk_res_extra (constructor "/ws") 3
           [Some "res-extra"; Some "res"; Some "res-extra"] false _ eq_refl).
Defined.

Lemma scan_file_shape disk fp merged f merged' :
  shape_inv disk merged ->
  scan_file disk fp merged f = Ok merged' ->
  shape_inv disk merged'.
Proof.
  intros Hinv H. unfold scan_file in H.
  destruct (statSync disk (path_join [fp; f])) as [st| |] eqn:Hst;
    simpl in H; try discriminate.
  apply statSync_isDirectory in Hst.
  destruct (map_get merged f) as [item|] eqn:Hget.
  - destruct (stats_isDirectory st).
    + destruct (_mergePaths item) as [| |paths] eqn:Hmp; try discriminate.
      inversion H; subst merged'; clear H.
      intros k v Hin. apply map_set_In in Hin.
      destruct Hin as [Heq|Hin]; [|now apply Hinv].
      inversion Heq; subst k v.
      destruct (Hinv f item (map_get_In _ _ _ Hget))
        as [p [[Hd [ps Hv]]|[Hd Hv]]].
      * exists p. left. split; [exact Hd|].
        exists (paths ++ [path_join [fp; f]]). subst item. reflexivity.
      * subst item. discriminate.
    + now inversion H; subst.
  - inversion H; subst merged'; clear H.
    intros k v Hin. apply map_set_In in Hin.
    destruct Hin as [Heq|Hin]; [|now apply Hinv].
    inversion Heq; subst k v. exists (path_join [fp; f]).
    destruct (stats_isDirectory st); [left|right]; split; auto.
    exists [path_join [fp; f]]. reflexivity.
Qed.

Lemma scanned_shape disk this isFullPath roots merged :
  forEach (scan_folder disk this isFullPath) roots [] = Ok merged ->
  shape_inv disk merged.
Proof.
  apply (scan_folders_lift disk this isFullPath
           (fun _ merged => shape_inv disk merged)).
  - intros fp seen merged0 f merged' Hinv H. eapply scan_file_shape; eauto.
  - intros k v [].
Qed.

Lemma expanded_shape disk recur merged merged' it :
  shape_inv disk merged ->
  mapM (expand_item recur) merged = Ok merged' ->
  In it (map_values merged') ->
  exists p,
    (is_directory disk p = true
     /\ exists paths cs,
          recur (map Some paths) true = Ok cs
          /\ it = directory_node (label it) p cs)
    \/ (is_directory disk p = false /\ it = file_node (label it) p).
Proof.
  intros Hinv H. apply mapM_Ok_Forall2 in H.
  induction H as [|kv kv' l l' Hkv _ IH]; simpl; [tauto|].
  intros [Hit|Hit].
  - destruct kv as [k v].
    destruct (Hinv k v (or_introl eq_refl)) as [p [[Hd [ps Hv]]|[Hd Hv]]];
      exists p; subst v; unfold expand_item in Hkv; simpl in Hkv.
    + left. split; [exact Hd|].
      destruct (recur (map Some ps) true) as [cs| |] eqn:Hrec; simpl in Hkv;
        try discriminate.
      exists ps, cs. split; [exact Hrec|].
      inversion Hkv; subst kv'. subst it. reflexivity.
    + right. split; [exact Hd|]. inversion Hkv; subst kv'. subst it.
      reflexivity.
  - apply IH; [|exact Hit]. intros k v Hin. apply Hinv. now right.
Qed.

Lemma node_shape disk this fuel roots isFullPath items it :
  _getFilesFromFolders disk this (S fuel) roots isFullPath = Ok items ->
  In it items ->
  exists p,
    (is_directory disk p = true
     /\ exists paths cs,
          _getFilesFromFolders disk this fuel (map Some paths) true = Ok cs
          /\ it = directory_node (label it) p cs)
    \/ (is_directory disk p = false /\ it = file_node (label it) p).
Proof.
  intros H Hit. simpl in H.
  destruct (forEach (scan_folder disk this isFullPath) roots [])
    as [merged| |] eqn:Hscan; simpl in H; try discriminate.
  destruct (mapM _ merged) as [merged'| |] eqn:Hexp; simpl in H;
    try discriminate.
  injection H as H. rewrite <- H in Hit.
  eapply expanded_shape; eauto. eapply scanned_shape; eauto.
Qed.

(** X2: a node the merge returns is of one of two shapes, by what its own
    path leads to on the disk.  Where that is a directory, the node is
    collapsed, has no command, has its children set and its contributing
    paths cleared; otherwise it is a leaf with no children whose command
    opens the node's own path. *)
Theorem node_kind_follows_its_path :
  forall disk this fuel (roots : list (option string)) isFullPath items it,
    _getFilesFromFolders disk this fuel roots isFullPath = Ok items ->
    In it items ->
    exists p,
      resourceUri it = Some p
      /\ _fccwPath it = None
      /\ if is_directory disk p
         then exists cs, it = directory_node (label it) p cs
         else it = file_node (label it) p.
Proof.
  intros disk this fuel roots isFullPath items it H Hit.
  destruct fuel as [|fuel]; [discriminate|].
  destruct (node_shape _ _ _ _ _ _ _ H Hit)
    as [p [[Hd [ps [cs [_ Hv]]]]|[Hd Hv]]];
    exists p; rewrite Hd, Hv; repeat split. now exists cs.
Qed.

Lemma node_kind_follows_its_path_witness :
  let it := file_node "b.txt" "/ws/res-extra/b.txt" in
  let items := [directory_node "sub" "/ws/res-extra/sub" []; it] in
  _getFilesFromFolders disk_res_extra (constructor "/ws") 3
    [Some "res-extra"] false = Ok items
  /\ In it items
  /\ exists p,
       resourceUri it = Some p
       /\ _fccwPath it = None
       /\ if is_directory disk_res_extra p
          then exists cs, it = directory_node (label it) p cs
          else it = file_node (label it) p.
Proof.
  intros it items.
  assert (Hin : In it items) by (right; left; reflexivity).
  split; [reflexivity|]. split; [exact Hin|].
  exact (node_kind_follows_its_path disk_res_extra (constructor "/ws") 3
           [Some "res-extra"] false items it eq_refl Hin).
Defined.

(** ** The node of a directory that several roots have *)

(** C1, counterexample: a name that two or more roots have as a directory
    gets no node with the merge of these directories as children, in two
    ways.  On the first disk [n] is a directory under two of the three
    roots and a file under the root scanned first.  On the second disk [m]
    is a directory under both roots, the first included, and the merge
    still returns nothing: it throws over [n], listed beside [m]. *)
Lemma file_before_two_directories_no_node :
  let this := constructor "/ws" in
  (let roots := [Some "r1"; Some "r2"; Some "r3"] in
   contributing_paths disk_file_then_two_dirs this false "n" roots
   = ["/ws/r2/n"; "/ws/r3/n"]
   /\ first_root_with disk_file_then_two_dirs this false "n" roots
      = Some "/ws/r1"
   /\ is_file disk_file_then_two_dirs "/ws/r1/n" = true
   /\ forall fuel,
        _getFilesFromFolders disk_file_then_two_dirs this (S fuel) roots false
        = Throw TypeError
        /\ ~ exists items it cs,
               _getFilesFromFolders disk_file_then_two_dirs this fuel roots
                 false = Ok items
               /\ filter (fun i => label i =? "n") items = [it]
               /\ children it = Some cs)
  /\ (let roots := [Some "r1"; Some "r2"] in
      contributing_paths disk_dirs_beside_clash this false "m" roots
      = ["/ws/r1/m"; "/ws/r2/m"]
      /\ first_root_with disk_dirs_beside_clash this false "m" roots
         = Some "/ws/r1"
      /\ is_directory disk_dirs_beside_clash "/ws/r1/m" = true
      /\ forall fuel,
           _getFilesFromFolders disk_dirs_beside_clash this (S fuel) roots
             false = Throw TypeError
           /\ ~ exists items it cs,
                  _getFilesFromFolders disk_dirs_beside_clash this fuel roots
                    false = Ok items
                  /\ filter (fun i => label i =? "m") items = [it]
                  /\ children it = Some cs).
Proof.
  intros this. split.
  - split; [reflexivity|]. split; [reflexivity|]. split; [reflexivity|].
    intros fuel. split; [reflexivity|].
    intros [items [it [cs [H _]]]]. destruct fuel; discriminate.
  - split; [reflexivity|]. split; [reflexivity|]. split; [reflexivity|].
    intros fuel. split; [reflexivity|].
    intros [items [it [cs [H _]]]]. destruct fuel; discriminate.
Qed.

(** C1, amended: on a disk whose listings hold well-formed, distinct names,
    take a name that two or more of the roots have as a directory, the first
    root that lists it among them.  Whenever the merge returns, it returns
    exactly one node of that name: the directory node whose path is the name
    under that first root, and whose children are the merge of the paths of
    all these directories, in the order of the roots. *)
Theorem same_named_directories_are_merged :
  forall disk this fuel (roots : list (option string)) isFullPath items name r,
    wf_disk disk = true ->
    first_root_with disk this isFullPath name roots = Some r ->
    is_directory disk (path_join [r; name]) = true ->
    2 <= length (contributing_paths disk this isFullPath name roots) ->
    _getFilesFromFolders disk this (S fuel) roots isFullPath = Ok items ->
    exists cs,
      filter (fun i => label i =? name) items
      = [directory_node name (path_join [r; name]) cs]
      /\ forall fuel', fuel <= fuel' ->
           _getFilesFromFolders disk this fuel'
             (map Some (contributing_paths disk this isFullPath name roots))
             true
           = Ok cs.
Proof.
  intros disk this fuel roots isFullPath items name r Hwf Hfirst Hdir Hk H.
  assert (Hne : contributing_paths disk this isFullPath name roots <> []).
  { intros E. rewrite E in Hk. simpl in Hk. lia. }
  destruct (merged_directory_children _ _ _ _ _ _ _ Hwf H Hne)
    as [it [cs [Hf [Hc Hm]]]].
  assert (Hit : In it (filter (fun i => label i =? name) items))
    by (rewrite Hf; now left).
  apply filter_In in Hit. destruct Hit as [Hit Hlabel].
  apply String.eqb_eq in Hlabel.
  destruct (node_path_under_first_root _ _ _ _ _ _ _ H Hit) as [r' [Hr' Huri]].
  rewrite Hlabel, Hfirst in Hr'. inversion Hr'; subst r'. rewrite Hlabel in Huri.
  assert (Hshape : it = directory_node name (path_join [r; name]) cs).
  { destruct (node_shape _ _ _ _ _ _ _ H Hit)
      as [p [[_ [ps [cs' [_ Hv]]]]|[Hfile Hv]]]; rewrite Hlabel in Hv.
    - rewrite Hv in Huri, Hc. simpl in Huri, Hc. congruence.
    - rewrite Hv in Huri. simpl in Huri. congruence. }
  exists cs. split; [now rewrite Hf, Hshape|].
  intros fuel' Hle. eapply _getFilesFromFolders_more_fuel; eauto.
Qed.

Lemma same_named_directories_are_merged_witness :
  let roots := [Some "web-src"; Some "res"] in
  let this := constructor "/ws" in
  wf_disk disk_two_roots = true
  /\ first_root_with disk_two_roots this false "a" roots = Some "/ws/web-src"
  /\ is_directory disk_two_roots "/ws/web-src/a" = true
  /\ contributing_paths disk_two_roots this false "a" roots
     = ["/ws/web-src/a"; "/ws/res/a"]
  /\ exists items cs,
       _getFilesFromFolders disk_two_roots this 3 roots false = Ok items
       /\ filter (fun i => label i =? "a") items
          = [directory_node "a" "/ws/web-src/a" cs]
       /\ forall fuel', 2 <= fuel' ->
            _getFilesFromFolders disk_two_roots this fuel'
              (map Some (contributing_paths disk_two_roots this false "a" roots))
              true
            = Ok cs.
Proof.
  intros roots this. split; [reflexivity|]. split; [reflexivity|].
  split; [reflexivity|]. split; [reflexivity|].
  pose (items :=
          [directory_node "a" "/ws/web-src/a"
             [file_node "x.txt" "/ws/web-src/a/x.txt";
              file_node "y.txt" "/ws/res/a/y.txt"]]).
  destruct (same_named_directories_are_merged disk_two_roots this 2 roots
              false items "a" "/ws/web-src" eq_refl eq_refl eq_refl (le_n 2)
              eq_refl) as [cs [Hf Hm]].
  exists items, cs. split; [reflexivity|]. split; [exact Hf|exact Hm].
Defined.

(** ** The search for configuration files *)

Lemma forEach_ext {A S : Type} (f g : S -> A -> result S) :
  (forall s a, f s a = g s a) ->
  forall l s, forEach f l s = forEach g l s.
Proof.
  intros H l. induction l as [|a l IH]; intros s; simpl; [reflexivity|].
  rewrite H. destruct (g s a); simpl; auto.
Qed.

(** A loop that appends what each element gives. *)
Lemma forEach_accumulate {A B : Type} (g : A -> result (list B)) (l : list A) :
  forall acc res,
    forEach (fun acc a => c <- g a ;; Ok (acc ++ c)) l acc = Ok res ->
    exists cs,
      Forall2 (fun a c => g a = Ok c) l cs /\ res = acc ++ concat cs.
Proof.
  induction l as [|a l IH]; intros acc res H; simpl in H.
  - inversion H; subst. exists []. split; [constructor|].
    simpl. now rewrite app_nil_r.
  - destruct (g a) as [c| |] eqn:Hg; simpl in H; try discriminate.
    destruct (IH _ _ H) as [cs [Hcs Hres]].
    exists (c :: cs). split; [now constructor|].
    simpl. now rewrite Hres, app_assoc.
Qed.

Lemma Forall2_In_left {A B : Type} (R : A -> B -> Prop) l cs a :
  Forall2 R l cs -> In a l -> exists c, In c cs /\ R a c.
Proof.
  induction 1 as [|x y l cs Hxy _ IH]; simpl; [tauto|].
  intros [->|Hin]; [eauto|].
  destruct (IH Hin) as [c [Hc Hr]]. eauto.
Qed.

Lemma Forall2_In_right {A B : Type} (R : A -> B -> Prop) l cs c :
  Forall2 R l cs -> In c cs -> exists a, In a l /\ R a c.
Proof.
  induction 1 as [|x y l cs Hxy _ IH]; simpl; [tauto|].
  intros [->|Hin]; [eauto|].
  destruct (IH Hin) as [a [Ha Hr]]. eauto.
Qed.

Lemma _findFCCWFiles_contributions disk fuel dir files :
  _findFCCWFiles disk (S fuel) dir = Ok files ->
  exists es cs,
    fs_lookup disk dir = Some (Dir es)
    /\ Forall2 (fun item c =>
                  fccw_found (_findFCCWFiles disk fuel) dir item = Ok c)
         (map dirent_of es) cs
    /\ files = concat cs.
Proof.
  rewrite _findFCCWFiles_S.
  destruct (readdirSync_withFileTypes disk dir) as [items| |] eqn:Hrd;
    cbn [bind]; try discriminate.
  apply readdirSync_withFileTypes_Ok in Hrd. destruct Hrd as [es [Hdir ->]].
  intros H. exists es.
  rewrite (forEach_ext _
             (fun acc item =>
                c <- fccw_found (_findFCCWFiles disk fuel) dir item ;;
                Ok (acc ++ c))) in H.
  - destruct (forEach_accumulate _ _ _ _ H) as [cs [Hcs Hres]]. eauto.
  - intros acc item. unfold fccw_found.
    destruct (dirent_isFile item && endsWith (dirent_name item) ".fccw");
      [reflexivity|].
    destruct (dirent_isDirectory item); [reflexivity|].
    simpl. now rewrite app_nil_r.
Qed.

Lemma nodup_find_child n e es :
  nodup_strings (map fst es) = true -> In (n, e) es -> find_child n es = Some e.
Proof.
  induction es as [|[n' e'] es IH]; simpl; [tauto|].
  rewrite Bool.andb_true_iff, Bool.negb_true_iff. intros [Hn' Hnd] [H|H].
  - inversion H; subst. now rewrite String.eqb_refl.
  - destruct (n' =? n) eqn:E; [|now apply IH].
    apply String.eqb_eq in E. subst n'. exfalso.
    assert (Hin : In n (map fst es)) by (apply in_map_iff; now exists (n, e)).
    apply mem_string_In in Hin. congruence.
Qed.

(** What a listed entry is, looked up by its joined path. *)
Lemma listed_entry disk dir es n e :
  wf_disk disk = true ->
  fs_lookup disk dir = Some (Dir es) ->
  In (n, e) es ->
  valid_name n = true /\ fs_lookup disk (path_join [dir; n]) = Some e.
Proof.
  intros Hwf Hdir Hin.
  pose proof (lookup_wf _ _ _ Hwf Hdir) as Hes.
  assert (Hn : In n (map fst es)) by (apply in_map_iff; now exists (n, e)).
  pose proof (names_valid _ _ Hes Hn) as Hv. split; [exact Hv|].
  rewrite fs_lookup_join by exact Hv. rewrite Hdir.
  apply nodup_find_child; [now apply names_nodup|exact Hin].
Qed.

Lemma string_of_chars_app l1 l2 :
  string_of_chars (l1 ++ l2)
  = (string_of_chars l1 ++ string_of_chars l2)%string.
Proof. induction l1 as [|c l1 IH]; simpl; [reflexivity|now rewrite IH]. Qed.

Lemma prefix_weaken (x s t : string) :
  String.prefix x s = true -> String.prefix x (s ++ t) = true.
Proof.
  intros H. apply prefix_split in H. destruct H as [b ->].
  rewrite append_assoc. apply prefix_append.
Qed.

Lemma endsWith_append (a s suf : string) :
  endsWith s suf = true -> endsWith (a ++ s) suf = true.
Proof.
  unfold endsWith. intros H.
  rewrite chars_of_string_append, rev_app_distr, string_of_chars_app.
  now apply prefix_weaken.
Qed.

Lemma endsWith_join dir n suf :
  valid_name n = true -> endsWith n suf = true ->
  endsWith (path_join [dir; n]) suf = true.
Proof.
  intros Hv H. rewrite path_join_name by exact Hv.
  rewrite <- append_assoc. now apply endsWith_append.
Qed.

Lemma found_files_are_configurations disk :
  wf_disk disk = true ->
  forall fuel dir files p,
    _findFCCWFiles disk fuel dir = Ok files ->
    In p files ->
    is_file disk p = true
    /\ endsWith p ".fccw" = true
    /\ exists names,
         names <> []
         /\ resolve_segments p = resolve_segments dir ++ names.
Proof.
  intros Hwf. induction fuel as [|fuel IH]; intros dir files p H Hp;
    [discriminate|].
  destruct (_findFCCWFiles_contributions _ _ _ _ H)
    as [es [cs [Hdir [Hcs Hfiles]]]].
  subst files. apply in_concat in Hp. destruct Hp as [c [Hc Hpc]].
  destruct (Forall2_In_right _ _ _ _ Hcs Hc) as [item [Hitem Hfound]].
  apply in_map_iff in Hitem. destruct Hitem as [[n e] [Hitem Hin]].
  subst item.
  destruct (listed_entry _ _ _ _ _ Hwf Hdir Hin) as [Hv Hlook].
  unfold fccw_found, dirent_of in Hfound. destruct e as [text|ces];
    simpl in Hfound.
  - destruct (endsWith n ".fccw") eqn:Hend; inversion Hfound; subst c;
      [|contradiction].
    destruct Hpc as [Hpc|[]]. subst p. split; [|split].
    + unfold is_file. now rewrite Hlook.
    + now apply endsWith_join.
    + exists [n]. split; [discriminate|]. now apply resolve_segments_join.
  - destruct (IH _ _ _ Hfound Hpc) as [Hf [Hend [names [Hne Hsegs]]]].
    split; [exact Hf|]. split; [exact Hend|].
    exists (n :: names). split; [discriminate|].
    rewrite Hsegs, resolve_segments_join by exact Hv.
    now rewrite <- app_assoc.
Qed.

(** X4: every path the search returns is a regular file on the disk, ends
    in [.fccw], and lies below the directory searched. *)
Theorem found_configurations_are_fccw_files :
  forall disk fuel dir files p,
    wf_disk disk = true ->
    _findFCCWFiles disk fuel dir = Ok files ->
    In p files ->
    is_file disk p = true
    /\ endsWith p ".fccw" = true
    /\ exists names,
         names <> []
         /\ resolve_segments p = resolve_segments dir ++ names.
Proof.
  intros disk fuel dir files p Hwf. now apply found_files_are_configurations.
Qed.

Lemma found_configurations_are_fccw_files_witness :
  let p := "/ws/sub/b.fccw" in
  _findFCCWFiles disk_two_configs 3 "/ws" = Ok ["/ws/a.fccw"; p]
  /\ is_file disk_two_configs p = true
  /\ endsWith p ".fccw" = true
  /\ exists names,
       names <> []
       /\ resolve_segments p = resolve_segments "/ws" ++ names.
Proof.
  intros p. split; [reflexivity|].
  exact (found_configurations_are_fccw_files disk_two_configs 3 "/ws"
           ["/ws/a.fccw"; p] p eq_refl eq_refl
           (or_intror (or_introl eq_refl))).
Defined.

Lemma every_configuration_is_found_below disk :
  wf_disk disk = true ->
  forall names fuel dir e files text,
    _findFCCWFiles disk fuel dir = Ok files ->
    fs_lookup disk dir = Some e ->
    walk e names = Some (File text) ->
    endsWith (last names "") ".fccw" = true ->
    In (descend dir names) files.
Proof.
  intros Hwf. induction names as [|n rest IH];
    intros fuel dir e files text H Hdir Hwalk Hend.
  - (* the directory searched is itself a file: the search throws *)
    simpl in Hwalk. inversion Hwalk; subst e.
    destruct fuel as [|fuel]; [discriminate|].
    destruct (_findFCCWFiles_contributions _ _ _ _ H) as [es [_ [Hdir' _]]].
    congruence.
  - destruct fuel as [|fuel]; [discriminate|].
    destruct (_findFCCWFiles_contributions _ _ _ _ H)
      as [es [cs [Hdir' [Hcs Hfiles]]]].
    rewrite Hdir in Hdir'. inversion Hdir'; subst e. clear Hdir'.
    simpl in Hwalk.
    destruct (find_child n es) as [c1|] eqn:Hchild; [|discriminate].
    apply find_child_In in Hchild.
    destruct (listed_entry _ _ _ _ _ Hwf Hdir Hchild) as [Hv Hlook].
    assert (Hitem : In (dirent_of (n, c1)) (map dirent_of es))
      by now apply in_map.
    destruct (Forall2_In_left _ _ _ _ Hcs Hitem) as [c [Hc Hfound]].
    assert (Hincl : forall q, In q c -> In q files).
    { intros q Hq. subst files. apply in_concat. eauto. }
    unfold fccw_found, dirent_of in Hfound.
    destruct c1 as [t|ces]; simpl in Hfound.
    + destruct rest as [|r rest']; [|discriminate].
      simpl in Hend. rewrite Hend in Hfound. inversion Hfound; subst c.
      apply Hincl. now left.
    + destruct rest as [|r rest']; [discriminate|].
      apply Hincl.
      exact (IH _ _ _ _ _ Hfound Hlook Hwalk Hend).
Qed.

(** X5: the search misses no configuration file: every regular file whose
    name ends in [.fccw], at any depth below the directory searched, is
    among the paths returned, under the path made by joining the names that
    lead to it. *)
Theorem every_configuration_file_is_found :
  forall disk fuel dir e files names text,
    wf_disk disk = true ->
    _findFCCWFiles disk fuel dir = Ok files ->
    fs_lookup disk dir = Some e ->
    walk e names = Some (File text) ->
    endsWith (last names "") ".fccw" = true ->
    In (descend dir names) files.
Proof.
  intros disk fuel dir e files names text Hwf.
  now apply every_configuration_is_found_below.
Qed.

Lemma every_configuration_file_is_found_witness :
  exists files,
    _findFCCWFiles disk_two_configs 3 "/ws" = Ok files
    /\ descend "/ws" ["sub"; "b.fccw"] = "/ws/sub/b.fccw"
    /\ In (descend "/ws" ["sub"; "b.fccw"]) files.
Proof.
  eexists. split; [reflexivity|]. split; [reflexivity|].
  eapply (every_configuration_file_is_found disk_two_configs 3 "/ws"
            _ _ ["sub"; "b.fccw"] "custom");
    reflexivity.
Defined.

(** ** What the file commands do to the disk *)

Lemma find_child_set_same s c c' es :
  find_child s es = Some c -> find_child s (set_child s c' es) = Some c'.
Proof.
  induction es as [|[n e] es IH]; simpl; [discriminate|].
  destruct (n =? s) eqn:E; simpl; rewrite E; auto.
Qed.

Lemma find_child_set_other o s c' es :
  o <> s -> find_child o (set_child s c' es) = find_child o es.
Proof.
  intros Hne. induction es as [|[n e] es IH]; simpl; [reflexivity|].
  destruct (n =? s) eqn:E; simpl.
  - apply String.eqb_eq in E. subst n.
    assert (Hso : (s =? o) = false) by (apply String.eqb_neq; congruence).
    now rewrite Hso.
  - destruct (n =? o); [reflexivity|exact IH].
Qed.

Lemma find_child_app_new s c es :
  find_child s es = None -> find_child s (es ++ [(s, c)]) = Some c.
Proof.
  induction es as [|[n e] es IH]; simpl.
  - now rewrite String.eqb_refl.
  - destruct (n =? s); [discriminate|exact IH].
Qed.

Lemma find_child_app_old o x es l :
  find_child o es = Some x -> find_child o (es ++ l) = Some x.
Proof.
  induction es as [|[n e] es IH]; simpl; [discriminate|].
  destruct (n =? o); auto.
Qed.

Lemma find_child_remove_other o s es :
  o <> s -> find_child o (remove_child s es) = find_child o es.
Proof.
  intros Hne. induction es as [|[n e] es IH]; simpl; [reflexivity|].
  destruct (n =? s) eqn:E; simpl.
  - apply String.eqb_eq in E. subst n.
    assert (Hso : (s =? o) = false) by (apply String.eqb_neq; congruence).
    now rewrite Hso.
  - destruct (n =? o); [reflexivity|exact IH].
Qed.

Lemma find_child_not_listed s es :
  mem_string s (map fst es) = false -> find_child s es = None.
Proof.
  induction es as [|[n e] es IH]; simpl; [reflexivity|].
  rewrite Bool.orb_false_iff. intros [Hn Hrest]. rewrite Hn. now apply IH.
Qed.

Lemma find_child_None_not_listed s es :
  find_child s es = None -> mem_string s (map fst es) = false.
Proof.
  induction es as [|[n e] es IH]; simpl; [reflexivity|].
  destruct (n =? s); [discriminate|]. simpl. exact IH.
Qed.

Lemma find_child_remove_same s es :
  nodup_strings (map fst es) = true ->
  find_child s (remove_child s es) = None.
Proof.
  induction es as [|[n e] es IH]; simpl; [reflexivity|].
  rewrite Bool.andb_true_iff, Bool.negb_true_iff. intros [Hn Hnd].
  destruct (n =? s) eqn:E; simpl.
  - apply String.eqb_eq in E. subst n. now apply find_child_not_listed.
  - rewrite E. now apply IH.
Qed.

Lemma same_kind_refl x : same_kind x x.
Proof. destruct x; simpl; auto. Qed.

(** [writeFileSync] leaves a file with the text written. *)
Lemma write_segments_lookup segs : forall e text e',
  write_segments e segs text = Ok e' -> walk e' segs = Some (File text).
Proof.
  induction segs as [|s segs IH]; intros e text e' H; simpl in H.
  - destruct e; inversion H. reflexivity.
  - destruct e as [|es]; [discriminate|].
    destruct (find_child s es) as [c|] eqn:Hc.
    + destruct (write_segments c segs text) as [c'| |] eqn:Hw; simpl in H;
        try discriminate.
      inversion H; subst e'. simpl.
      rewrite (find_child_set_same _ _ c' _ Hc). eapply IH; eauto.
    + destruct segs; [|discriminate]. inversion H; subst e'. simpl.
      now rewrite find_child_app_new.
Qed.

(** [writeFileSync] touches nothing but the file written. *)
Lemma write_segments_frame segs : forall e text e' other x,
  write_segments e segs text = Ok e' ->
  walk e other = Some x -> other <> segs ->
  exists x', walk e' other = Some x' /\ same_kind x x'.
Proof.
  induction segs as [|s segs IH]; intros e text e' other x H Hwalk Hne;
    simpl in H.
  - destruct e as [c|]; [|discriminate].
    destruct other as [|o other]; [congruence|discriminate].
  - destruct e as [|es]; [discriminate|].
    assert (Hdir : exists es', e' = Dir es').
    { destruct (find_child s es).
      - destruct (write_segments e segs text); simpl in H; try discriminate.
        inversion H; eauto.
      - destruct segs; [|discriminate]. inversion H; eauto. }
    destruct other as [|o other].
    { simpl in Hwalk. inversion Hwalk; subst x.
      destruct Hdir as [es' ->]. exists (Dir es'). simpl. auto. }
    simpl in Hwalk.
    destruct (find_child o es) as [y|] eqn:Hy; [|discriminate].
    destruct (find_child s es) as [c|] eqn:Hc.
    + destruct (write_segments c segs text) as [c'| |] eqn:Hw; simpl in H;
        try discriminate.
      inversion H; subst e'. simpl.
      destruct (string_dec o s) as [->|Hos].
      * rewrite (find_child_set_same _ _ c' _ Hc).
        rewrite Hc in Hy. inversion Hy; subst y.
        eapply IH; eauto. congruence.
      * rewrite find_child_set_other by exact Hos. rewrite Hy.
        exists x. split; [exact Hwalk|apply same_kind_refl].
    + destruct segs; [|discriminate]. inversion H; subst e'. simpl.
      rewrite (find_child_app_old _ _ _ _ Hy).
      exists x. split; [exact Hwalk|apply same_kind_refl].
Qed.

(** [mkdirSync] with [recursive] only adds directories. *)
Lemma mkdir_segments_frame segs : forall e e' other x,
  mkdir_segments e segs = Ok e' ->
  walk e other = Some x ->
  exists x', walk e' other = Some x' /\ same_kind x x'.
Proof.
  induction segs as [|s segs IH]; intros e e' other x H Hwalk; simpl in H.
  - destruct e; inversion H; subst.
    exists x. split; [exact Hwalk|apply same_kind_refl].
  - destruct e as [|es]; [discriminate|].
    assert (Hdir : exists es', e' = Dir es').
    { destruct (find_child s es).
      - destruct (mkdir_segments e segs); simpl in H; try discriminate.
        inversion H; eauto.
      - destruct (mkdir_segments (Dir []) segs); simpl in H; try discriminate.
        inversion H; eauto. }
    destruct other as [|o other].
    { simpl in Hwalk. inversion Hwalk; subst x.
      destruct Hdir as [es' ->]. exists (Dir es'). simpl. auto. }
    simpl in Hwalk.
    destruct (find_child o es) as [y|] eqn:Hy; [|discriminate].
    destruct (find_child s es) as [c|] eqn:Hc.
    + destruct (mkdir_segments c segs) as [c'| |] eqn:Hm; simpl in H;
        try discriminate.
      inversion H; subst e'. simpl.
      destruct (string_dec o s) as [->|Hos].
      * rewrite (find_child_set_same _ _ c' _ Hc).
        rewrite Hc in Hy. inversion Hy; subst y. eapply IH; eauto.
      * rewrite find_child_set_other by exact Hos. rewrite Hy.
        exists x. split; [exact Hwalk|apply same_kind_refl].
    + destruct (mkdir_segments (Dir []) segs) as [c'| |]; simpl in H;
        try discriminate.
      inversion H; subst e'. simpl.
      rewrite (find_child_app_old _ _ _ _ Hy).
      exists x. split; [exact Hwalk|apply same_kind_refl].
Qed.

Lemma same_kind_trans x y z : same_kind x y -> same_kind y z -> same_kind x z.
Proof. destruct x, y, z; simpl; try tauto; congruence. Qed.

(** What a creation that returns normally has done. *)
Lemma createFilePrompt_returns w element type name w' :
  name <> "" ->
  createFilePrompt w element type (Some name) = (w', Ok tt) ->
  exists targetDir d1 d2,
    targetDir_of (disk_of w) (treeProvider w) element type = Ok targetDir
    /\ mkdirSync_recursive (disk_of w)
         (path_dirname (targetPath_of targetDir name)) = Ok d1
    /\ writeFileSync d1 (targetPath_of targetDir name) "" = Ok d2
    /\ w' = refresh
              (showInformationMessage (with_disk w d2)
                 (type_string type ++ " file created: "
                  ++ targetPath_of targetDir name)%string).
Proof.
  intros Hname H. unfold createFilePrompt in H.
  apply String.eqb_neq in Hname. rewrite Hname in H.
  destruct (targetDir_of (disk_of w) (treeProvider w) element type)
    as [targetDir| |]; try (inversion H; fail).
  destruct (mkdirSync_recursive (disk_of w) _) as [d1| |] eqn:Hm;
    try (inversion H; fail).
  destruct (writeFileSync d1 _ "") as [d2| |] eqn:Hw; try (inversion H; fail).
  exists targetDir, d1, d2. injection H as H.
  split; [reflexivity|]. split; [exact Hm|]. split; [exact Hw|].
  symmetry. exact H.
Qed.

(** X6: a creation that returns normally leaves an empty regular file at the
    target path, whether or not a file was there before (its text is then
    lost), shows one message naming the category and the path, fires one
    change event and leaves the provider as it was. *)
Theorem created_file_is_empty_and_announced :
  forall w element type name w',
    name <> "" ->
    createFilePrompt w element type (Some name) = (w', Ok tt) ->
    exists targetDir,
      targetDir_of (disk_of w) (treeProvider w) element type = Ok targetDir
      /\ fs_lookup (disk_of w') (path_join [targetDir; name]) = Some (File "")
      /\ messages w'
         = messages w
           ++ [(type_string type ++ " file created: "
                ++ path_join [targetDir; name])%string]
      /\ fired w' = S (fired w)
      /\ treeProvider w' = treeProvider w.
Proof.
  intros w element type name w' Hname H.
  destruct (createFilePrompt_returns _ _ _ _ _ Hname H)
    as [targetDir [d1 [d2 [Htd [_ [Hw Hw']]]]]].
  exists targetDir. split; [exact Htd|]. subst w'. simpl.
  repeat split. apply writeFileSync_Ok in Hw.
  apply write_segments_lookup in Hw. exact Hw.
Qed.

Lemma created_file_is_empty_and_announced_witness :
  let w := {| disk_of := disk_with_text; treeProvider := constructor "/ws";
              messages := []; fired := 0 |} in
  exists w',
    "notes.txt" <> ""
    /\ fs_lookup (disk_of w) "/ws/res/notes.txt" = Some (File "hello")
    /\ createFilePrompt w None resource (Some "notes.txt") = (w', Ok tt)
    /\ exists targetDir,
         targetDir_of (disk_of w) (treeProvider w) None resource = Ok targetDir
         /\ fs_lookup (disk_of w') (path_join [targetDir; "notes.txt"])
            = Some (File "")
         /\ messages w'
            = messages w
              ++ [(type_string resource ++ " file created: "
                   ++ path_join [targetDir; "notes.txt"])%string]
         /\ fired w' = S (fired w)
         /\ treeProvider w' = treeProvider w.
Proof.
  intros w.
  assert (Hname : "notes.txt" <> "") by discriminate.
  eexists. split; [exact Hname|]. split; [reflexivity|].
  split; [reflexivity|].
  exact (created_file_is_empty_and_announced w None resource "notes.txt" _
           Hname eq_refl).
Defined.

(** X7: a creation that returns normally removes nothing and changes no
    other file: whatever a path other than the target led to before, it
    leads to a directory if that was a directory, and to a file with the same
    text if that was a file. *)
Theorem creation_keeps_everything_else :
  forall w element type name w' targetDir q x,
    name <> "" ->
    createFilePrompt w element type (Some name) = (w', Ok tt) ->
    targetDir_of (disk_of w) (treeProvider w) element type = Ok targetDir ->
    fs_lookup (disk_of w) q = Some x ->
    resolve_segments q <> resolve_segments (path_join [targetDir; name]) ->
    exists x', fs_lookup (disk_of w') q = Some x' /\ same_kind x x'.
Proof.
  intros w element type name w' targetDir q x Hname H Htd Hq Hne.
  destruct (createFilePrompt_returns _ _ _ _ _ Hname H)
    as [td [d1 [d2 [Htd' [Hm [Hw Hw']]]]]].
  rewrite Htd in Htd'. inversion Htd'; subst td. subst w'. simpl.
  apply mkdirSync_recursive_Ok in Hm. apply writeFileSync_Ok in Hw.
  unfold fs_lookup in *.
  destruct (mkdir_segments_frame _ _ _ _ _ Hm Hq) as [x1 [Hx1 Hk1]].
  destruct (write_segments_frame _ _ _ _ _ _ Hw Hx1 Hne) as [x2 [Hx2 Hk2]].
  exists x2. split; [exact Hx2|]. eapply same_kind_trans; eauto.
Qed.

Lemma creation_keeps_everything_else_witness :
  let w := {| disk_of := disk_with_text; treeProvider := constructor "/ws";
              messages := []; fired := 0 |} in
  exists w',
    createFilePrompt w None source (Some "new.html") = (w', Ok tt)
    /\ exists x',
         fs_lookup (disk_of w') "/ws/res/notes.txt" = Some x'
         /\ same_kind (File "hello") x'.
Proof.
  intros w. eexists. split; [reflexivity|].
  eapply (creation_keeps_everything_else w None source "new.html" _
            "/ws/web-src" "/ws/res/notes.txt" (File "hello"));
    try reflexivity; discriminate.
Defined.

(** Removal leaves nothing at the path removed, nor below it. *)
Lemma remove_segments_lookup wantDir segs : forall e e' more,
  wf_entry e = true ->
  remove_segments wantDir e segs = Ok e' ->
  walk e' (segs ++ more) = None.
Proof.
  induction segs as [|s segs IH]; intros e e' more Hwf H; simpl in H;
    [discriminate|].
  destruct e as [|es]; [discriminate|].
  destruct (find_child s es) as [c|] eqn:Hc; [|discriminate].
  destruct segs as [|s2 segs'].
  - assert (He' : e' = Dir (remove_child s es)).
    { destruct c; destruct wantDir; inversion H; reflexivity. }
    subst e'. simpl.
    now rewrite find_child_remove_same by (now apply names_nodup).
  - destruct (remove_segments wantDir c (s2 :: segs')) as [c'| |] eqn:Hr;
      simpl in H; try discriminate.
    inversion H; subst e'.
    change (walk (Dir (set_child s c' es)) ((s :: s2 :: segs') ++ more))
      with (match find_child s (set_child s c' es) with
            | Some c0 => walk c0 ((s2 :: segs') ++ more)
            | None => None
            end).
    rewrite (find_child_set_same _ _ c' _ Hc).
    eapply IH; [|exact Hr].
    eapply child_wf; [|exact Hwf]. apply find_child_In. exact Hc.
Qed.

(** Removal touches nothing that is not at or below the path removed. *)
Lemma remove_segments_frame wantDir segs : forall e e' other x,
  remove_segments wantDir e segs = Ok e' ->
  walk e other = Some x ->
  ~ (exists more, other = segs ++ more) ->
  exists x', walk e' other = Some x' /\ same_kind x x'.
Proof.
  induction segs as [|s segs IH]; intros e e' other x H Hwalk Hout;
    simpl in H; [discriminate|].
  destruct e as [|es]; [discriminate|].
  destruct (find_child s es) as [c|] eqn:Hc; [|discriminate].
  assert (Hdir : exists es', e' = Dir es').
  { destruct segs.
    - destruct c; destruct wantDir; inversion H; eauto.
    - destruct (remove_segments wantDir c (s0 :: segs)); simpl in H;
        try discriminate.
      inversion H; eauto. }
  destruct other as [|o other].
  { simpl in Hwalk. inversion Hwalk; subst x.
    destruct Hdir as [es' ->]. exists (Dir es'). simpl. auto. }
  simpl in Hwalk.
  destruct (find_child o es) as [y|] eqn:Hy; [|discriminate].
  destruct segs as [|s2 segs'].
  - assert (He' : e' = Dir (remove_child s es)).
    { destruct c; destruct wantDir; inversion H; reflexivity. }
    subst e'. simpl.
    assert (Hos : o <> s).
    { intros ->. apply Hout. now exists other. }
    rewrite find_child_remove_other by exact Hos. rewrite Hy.
    exists x. split; [exact Hwalk|apply same_kind_refl].
  - destruct (remove_segments wantDir c (s2 :: segs')) as [c'| |] eqn:Hr;
      simpl in H; try discriminate.
    inversion H; subst e'. simpl.
    destruct (string_dec o s) as [->|Hos].
    + rewrite (find_child_set_same _ _ c' _ Hc).
      rewrite Hc in Hy. inversion Hy; subst y.
      eapply IH; eauto.
      intros [more Hmore]. apply Hout. exists more. simpl. now rewrite Hmore.
    + rewrite find_child_set_other by exact Hos. rewrite Hy.
      exists x. split; [exact Hwalk|apply same_kind_refl].
Qed.

(** What a confirmed deletion that returns normally has done. *)
Lemma deleteFilePrompt_returns w el p w' :
  resourceUri el = Some p ->
  deleteFilePrompt w (Some el) (Some "Delete") = (w', Ok tt) ->
  exists wantDir d,
    remove_segments wantDir (disk_of w) (resolve_segments p) = Ok d
    /\ w' = refresh
              (showInformationMessage (with_disk w d) (p ++ " deleted.")%string).
Proof.
  intros Huri H. unfold deleteFilePrompt in H. rewrite Huri in H.
  simpl in H.
  destruct (statSync (disk_of w) p) as [stats| |]; try (inversion H; fail).
  destruct (stats_isDirectory stats).
  - destruct (rmdirSync_recursive (disk_of w) p) as [d| |] eqn:Hd;
      try (inversion H; fail).
    exists true, d. injection H as H.
    split; [now apply rmdirSync_recursive_Ok|now symmetry].
  - destruct (unlinkSync (disk_of w) p) as [d| |] eqn:Hd;
      try (inversion H; fail).
    exists false, d. injection H as H.
    split; [now apply unlinkSync_Ok|now symmetry].
Qed.

(** X8: after a confirmed deletion that returns normally, nothing exists at
    the node's path or below it; one message names the path, one change
    event is fired and the provider is as it was. *)
Theorem deleted_path_is_gone :
  forall w el p w',
    wf_disk (disk_of w) = true ->
    resourceUri el = Some p ->
    deleteFilePrompt w (Some el) (Some "Delete") = (w', Ok tt) ->
    (forall q, below p q -> existsSync (disk_of w') q = false)
    /\ messages w' = messages w ++ [(p ++ " deleted.")%string]
    /\ fired w' = S (fired w)
    /\ treeProvider w' = treeProvider w.
Proof.
  intros w el p w' Hwf Huri H.
  destruct (deleteFilePrompt_returns _ _ _ _ Huri H) as [wantDir [d [Hd Hw']]].
  subst w'. simpl. repeat split.
  intros q [more Hq]. apply lookup_None_existsSync.
  unfold fs_lookup. rewrite Hq.
  exact (remove_segments_lookup _ _ _ _ more (wf_disk_entry _ Hwf) Hd).
Qed.

Lemma deleted_path_is_gone_witness :
  let w := {| disk_of := disk_with_text; treeProvider := constructor "/ws";
              messages := []; fired := 0 |} in
  let el := directory_node "img" "/ws/res/img" [] in
  exists w',
    wf_disk (disk_of w) = true
    /\ existsSync (disk_of w) "/ws/res/img/icons/x.png" = true
    /\ deleteFilePrompt w (Some el) (Some "Delete") = (w', Ok tt)
    /\ below "/ws/res/img" "/ws/res/img/icons/x.png"
    /\ existsSync (disk_of w') "/ws/res/img/icons/x.png" = false.
Proof.
  intros w el.
  assert (Hbelow : below "/ws/res/img" "/ws/res/img/icons/x.png")
    by (exists ["icons"; "x.png"]; reflexivity).
  eexists. split; [reflexivity|]. split; [reflexivity|].
  split; [reflexivity|]. split; [exact Hbelow|].
  exact (proj1 (deleted_path_is_gone w el "/ws/res/img" _
                  eq_refl eq_refl eq_refl)
           "/ws/res/img/icons/x.png" Hbelow).
Defined.

(** X9: a confirmed deletion that returns normally leaves everything that
    is not at or below the node's path: each such path leads to a directory
    if it did, and to a file with the same text if it did. *)
Theorem deletion_keeps_everything_else :
  forall w el p w' q x,
    resourceUri el = Some p ->
    deleteFilePrompt w (Some el) (Some "Delete") = (w', Ok tt) ->
    fs_lookup (disk_of w) q = Some x ->
    ~ below p q ->
    exists x', fs_lookup (disk_of w') q = Some x' /\ same_kind x x'.
Proof.
  intros w el p w' q x Huri H Hq Hout.
  destruct (deleteFilePrompt_returns _ _ _ _ Huri H) as [wantDir [d [Hd Hw']]].
  subst w'. simpl. unfold fs_lookup in *.
  eapply remove_segments_frame; eauto.
Qed.

Lemma deletion_keeps_everything_else_witness :
  let w := {| disk_of := disk_with_text; treeProvider := constructor "/ws";
              messages := []; fired := 0 |} in
  let el := directory_node "img" "/ws/res/img" [] in
  exists w',
    deleteFilePrompt w (Some el) (Some "Delete") = (w', Ok tt)
    /\ ~ below "/ws/res/img" "/ws/res/notes.txt"
    /\ exists x',
         fs_lookup (disk_of w') "/ws/res/notes.txt" = Some x'
         /\ same_kind (File "hello") x'.
Proof.
  intros w el.
  assert (Hout : ~ below "/ws/res/img" "/ws/res/notes.txt").
  { intros [more Hmore]. discriminate. }
  eexists. split; [reflexivity|]. split; [exact Hout|].
  exact (deletion_keeps_everything_else w el "/ws/res/img" _
           "/ws/res/notes.txt" (File "hello") eq_refl eq_refl eq_refl Hout).
Defined.

Lemma walk_error_cases segs : forall e,
  walk e segs = None ->
  (walk_error e segs = ENOTDIR
   /\ exists pre more c,
        segs = pre ++ more /\ more <> [] /\ walk e pre = Some (File c))
  \/ (walk_error e segs = ENOENT
      /\ forall pre more c,
           segs = pre ++ more -> more <> [] -> walk e pre <> Some (File c)).
Proof.
  induction segs as [|s segs IH]; intros e H; simpl in H; [discriminate|].
  destruct e as [text|es]; simpl.
  - left. split; [reflexivity|]. exists [], (s :: segs), text.
    repeat split. discriminate.
  - destruct (find_child s es) as [c|] eqn:Hc.
    + destruct (IH c H) as [[He [pre [more [t [Hsegs [Hmore Hpre]]]]]]|[He Hno]].
      * left. split; [exact He|]. exists (s :: pre), more, t.
        subst segs. repeat split; [exact Hmore|]. simpl. now rewrite Hc.
      * right. split; [exact He|]. intros pre more t Hsegs Hmore Hpre.
        destruct pre as [|s' pre]; [discriminate|].
        simpl in Hsegs. inversion Hsegs; subst s' segs.
        simpl in Hpre. rewrite Hc in Hpre. exact (Hno pre more t eq_refl Hmore Hpre).
    + right. split; [reflexivity|]. intros pre more t Hsegs Hmore Hpre.
      destruct pre as [|s' pre]; [discriminate|].
      simpl in Hsegs. inversion Hsegs; subst s' segs.
      simpl in Hpre. rewrite Hc in Hpre. discriminate.
Qed.

(** What [fs.statSync] throws on a path that does not exist. *)
Lemma statSync_missing disk p :
  existsSync disk p = false ->
  exists e,
    statSync disk p = Throw e
    /\ (file_in_the_way disk p -> e = ENOTDIR)
    /\ (~ file_in_the_way disk p -> e = ENOENT).
Proof.
  unfold existsSync, statSync, fs_stat, file_in_the_way.
  destruct (p =? "") eqn:Hp.
  - intros _. exists ENOENT. split; [reflexivity|]. split; [|reflexivity].
    apply String.eqb_eq in Hp. subst p. unfold fs_lookup.
    change (resolve_segments "") with (@nil string).
    intros [[segs [more [c [Hsegs [Hmore _]]]]]|[c [_ Ht]]]; [|discriminate].
    symmetry in Hsegs. apply app_eq_nil in Hsegs. tauto.
  - destruct (fs_lookup disk p) as [[c|es]|] eqn:Hlook.
    + destruct (trailingSeparator p) eqn:Ht; [|discriminate].
      intros _. exists ENOTDIR. split; [reflexivity|]. split; [reflexivity|].
      intros Hno. exfalso. apply Hno. right. eauto.
    + discriminate.
    + intros _. exists (walk_error disk (resolve_segments p)).
      split; [reflexivity|].
      destruct (walk_error_cases _ _ Hlook) as [[He Hyes]|[He Hno]].
      * split; [intros _; exact He|].
        intros Hn. exfalso. apply Hn. left.
        destruct Hyes as [pre [more [c [H1 [H2 H3]]]]]. eauto 6.
      * split; [|intros _; exact He].
        intros [[segs [more [c [H1 [H2 H3]]]]]|[c [Hc _]]];
          [|discriminate].
        exfalso. exact (Hno segs more c H1 H2 H3).
Qed.

(** X10: a command on a node whose path is no longer on the disk throws
    what [fs.statSync] throws on that path, and changes nothing: no file or
    directory is made or removed, no message is shown and no change event is
    fired. *)
Theorem stale_node_commands_throw :
  forall w el p type name,
    resourceUri el = Some p ->
    existsSync (disk_of w) p = false ->
    name <> "" ->
    exists e,
      statSync (disk_of w) p = Throw e
      /\ createFilePrompt w (Some el) type (Some name) = (w, Throw e)
      /\ deleteFilePrompt w (Some el) (Some "Delete") = (w, Throw e).
Proof.
  intros w el p type name Huri Hgone Hname.
  destruct (statSync_missing _ _ Hgone) as [e [Hstat _]].
  exists e. apply String.eqb_neq in Hname. split; [exact Hstat|]. split.
  - unfold createFilePrompt, targetDir_of. now rewrite Hname, Huri, Hstat.
  - unfold deleteFilePrompt. rewrite Huri. simpl. now rewrite Hstat.
Qed.

Lemma stale_node_commands_throw_witness :
  let w := {| disk_of := disk_with_text; treeProvider := constructor "/ws";
              messages := []; fired := 0 |} in
  let gone := file_node "old.txt" "/ws/res/old.txt" in
  let under_file := file_node "x" "/ws/res/notes.txt/x" in
  (existsSync (disk_of w) "/ws/res/old.txt" = false
   /\ createFilePrompt w (Some gone) source (Some "z.txt") = (w, Throw ENOENT)
   /\ deleteFilePrompt w (Some gone) (Some "Delete") = (w, Throw ENOENT))
  /\ (existsSync (disk_of w) "/ws/res/notes.txt/x" = false
      /\ createFilePrompt w (Some under_file) source (Some "z.txt")
         = (w, Throw ENOTDIR)
      /\ deleteFilePrompt w (Some under_file) (Some "Delete")
         = (w, Throw ENOTDIR)).
Proof.
  intros w gone under_file. split.
  - split; [reflexivity|].
    destruct (stale_node_commands_throw w gone "/ws/res/old.txt" source "z.txt"
                eq_refl eq_refl ltac:(discriminate))
      as [e [Hs [Hc Hd]]].
    assert (He : e = ENOENT) by (vm_compute in Hs; congruence).
    subst e. split; assumption.
  - split; [reflexivity|].
    destruct (stale_node_commands_throw w under_file "/ws/res/notes.txt/x"
                source "z.txt" eq_refl eq_refl ltac:(discriminate))
      as [e [Hs [Hc Hd]]].
    assert (He : e = ENOTDIR) by (vm_compute in Hs; congruence).
    subst e. split; assumption.
Defined.

(** ** Nodes without a path, and nodes with their children *)

Lemma sections_have_no_path disk this fuel j sections it :
  _getFoldersFromConfig disk this fuel j = Ok sections ->
  In it sections ->
  resourceUri it = None /\ _fccwPath it = None.
Proof.
  intros H Hit. unfold _getFoldersFromConfig in H.
  destruct (truthy (json.sourceDirectory j) || truthy (json.resourcesDirectory j)).
  - destruct (_getFilesFromFolders disk this fuel
                [json.sourceDirectory j; json.resourcesDirectory j] false);
      simpl in H; try discriminate.
    destruct (truthy (json.includeDirectory j)).
    + destruct (_getFilesFromFolders disk this fuel [json.includeDirectory j] false);
        simpl in H; try discriminate.
      inversion H; subst sections.
      destruct Hit as [<-|[<-|[]]]; split; reflexivity.
    + inversion H; subst sections. destruct Hit as [<-|[]]; split; reflexivity.
  - simpl in H. destruct (truthy (json.includeDirectory j)).
    + destruct (_getFilesFromFolders disk this fuel [json.includeDirectory j] false);
        simpl in H; try discriminate.
      inversion H; subst sections. destruct Hit as [<-|[]]; split; reflexivity.
    + inversion H; subst sections. destruct Hit.
Qed.

Lemma sections_of_file_no_path disk JSON_parse this fuel file sections it :
  sections_of_file disk JSON_parse this fuel file = Ok sections ->
  In it sections ->
  resourceUri it = None.
Proof.
  unfold sections_of_file. intros H Hit.
  destruct (readFileSync disk file); simpl in H; try discriminate.
  destruct (JSON_parse a); simpl in H; try discriminate.
  eapply sections_have_no_path; eauto.
Qed.

Lemma top_level_items_no_path disk JSON_parse this fuel element items it :
  (element = None \/ exists file, element = Some (config_item file)) ->
  getChildren disk JSON_parse this fuel element = Ok items ->
  In it items ->
  resourceUri it = None.
Proof.
  intros Hel H Hit. unfold getChildren in H.
  destruct (workspaceRoot this =? "");
    [inversion H; subst; destruct Hit|].
  destruct Hel as [->|[file ->]].
  - destruct (_findFCCWFiles disk fuel (workspaceRoot this))
      as [files| |]; simpl in H; try discriminate.
    destruct files as [|f1 [|f2 files]].
    + inversion H; subst. destruct Hit as [<-|[]]. reflexivity.
    + eapply sections_of_file_no_path; eauto.
    + inversion H; subst.
      change (In it (map config_item (f1 :: f2 :: files))) in Hit.
      apply in_map_iff in Hit. destruct Hit as [f [<- _]]. reflexivity.
  - simpl in H. destruct (file =? ""); simpl in H.
    + inversion H; subst. destruct Hit.
    + eapply sections_of_file_no_path; eauto.
Qed.

(** X11: the items at the root of the tree (the notice, the configuration
    items, the sections) and the sections under a configuration item carry
    no path.  With one of them selected, a deletion returns at once, even
    when confirmed, and a creation targets the root directory of the
    requested category. *)
Theorem items_without_path_are_inert :
  forall disk JSON_parse this fuel element items it,
    (element = None \/ exists file, element = Some (config_item file)) ->
    getChildren disk JSON_parse this fuel element = Ok items ->
    In it items ->
    resourceUri it = None
    /\ (forall w confirm, deleteFilePrompt w (Some it) confirm = (w, Ok tt))
    /\ (forall d tp type,
          targetDir_of d tp (Some it) type = Ok (baseDir_of tp type)).
Proof.
  intros disk JSON_parse this fuel element items it Hel H Hit.
  pose proof (top_level_items_no_path _ _ _ _ _ _ _ Hel H Hit) as Huri.
  split; [exact Huri|]. split.
  - intros w confirm. unfold deleteFilePrompt. now rewrite Huri.
  - intros d tp type. unfold targetDir_of. now rewrite Huri.
Qed.

Lemma items_without_path_are_inert_witness :
  let this := constructor "/ws" in
  let w := {| disk_of := disk_custom_config; treeProvider := this;
              messages := []; fired := 0 |} in
  exists items it,
    getChildren disk_custom_config sample_JSON_parse this 3 None = Ok items
    /\ In it items
    /\ label it = "Combined source"
    /\ deleteFilePrompt w (Some it) (Some "Delete") = (w, Ok tt)
    /\ targetDir_of disk_custom_config this (Some it) source
       = Ok "/ws/web-src".
Proof.
  intros this w. eexists. eexists. split; [reflexivity|].
  assert (Hin : forall (a b : TreeItem), In a [a; b]) by (intros; now left).
  split; [apply Hin|]. split; [reflexivity|].
  destruct (items_without_path_are_inert disk_custom_config sample_JSON_parse
              this 3 None _ _ (or_introl eq_refl) eq_refl (Hin _ _))
    as [_ [Hdel Htarget]].
  split; [apply Hdel|apply Htarget].
Defined.

(** X12: asking for the children of a node the merge returned reads
    nothing: whatever the disk has become, the answer is the list of children
    computed when the node was built, and the empty list for a file node. *)
Theorem merged_nodes_answer_from_their_snapshot :
  forall disk this fuel (roots : list (option string)) isFullPath items it
         disk' JSON_parse this' fuel',
    _getFilesFromFolders disk this fuel roots isFullPath = Ok items ->
    In it items ->
    workspaceRoot this' <> "" ->
    getChildren disk' JSON_parse this' fuel' (Some it)
    = Ok (match children it with Some cs => cs | None => [] end)
    /\ (children it = None <-> collapsibleState it = CollapsibleNone).
Proof.
  intros disk this fuel roots isFullPath items it disk' JSON_parse this' fuel'
    H Hit Hroot.
  destruct fuel as [|fuel]; [discriminate|].
  apply String.eqb_neq in Hroot. unfold getChildren. rewrite Hroot.
  destruct (node_shape _ _ _ _ _ _ _ H Hit)
    as [p [[_ [ps [cs [_ Hv]]]]|[_ Hv]]]; rewrite Hv; simpl.
  - split; [reflexivity|]. split; discriminate.
  - split; [reflexivity|]. split; reflexivity.
Qed.

Lemma merged_nodes_answer_from_their_snapshot_witness :
  exists items it cs,
    _getFilesFromFolders disk_two_roots (constructor "/ws") 3
      [Some "web-src"; Some "res"] false = Ok items
    /\ In it items
    /\ "/ws" <> ""
    /\ children it = Some cs
    /\ map label cs = ["x.txt"; "y.txt"]
    /\ getChildren (Dir []) sample_JSON_parse (constructor "/ws") 0 (Some it)
       = Ok cs.
Proof.
  assert (Hroot : "/ws" <> "") by discriminate.
  eexists. eexists. eexists. split; [reflexivity|].
  split; [left; reflexivity|]. split; [exact Hroot|].
  split; [reflexivity|]. split; [reflexivity|].
  exact (proj1 (merged_nodes_answer_from_their_snapshot disk_two_roots
                  (constructor "/ws") 3 [Some "web-src"; Some "res"] false
                  _ _ (Dir []) sample_JSON_parse (constructor "/ws") 0
                  eq_refl (or_introl eq_refl) Hroot)).
Defined.

(** ** One node per name *)

Lemma first_occurrences_step acc names :
  NoDup acc ->
  NoDup (fold_left
           (fun acc n => if mem_string n acc then acc else acc ++ [n])
           names acc)
  /\ forall x,
       In x (fold_left
               (fun acc n => if mem_string n acc then acc else acc ++ [n])
               names acc)
       <-> In x acc \/ In x names.
Proof.
  revert acc. induction names as [|n names IH]; intros acc Hnd; simpl.
  - split; [exact Hnd|]. intros x. tauto.
  - destruct (mem_string n acc) eqn:Hmem.
    + destruct (IH acc Hnd) as [H1 H2]. split; [exact H1|].
      intros x. rewrite H2. apply mem_string_In in Hmem.
      intuition (subst; auto).
    + assert (Hnd' : NoDup (acc ++ [n])).
      { apply NoDup_app; [exact Hnd|repeat constructor; auto|].
        intros a Ha [<-|[]]. apply mem_string_In in Ha. congruence. }
      destruct (IH (acc ++ [n]) Hnd') as [H1 H2]. split; [exact H1|].
      intros x. rewrite H2, in_app_iff. simpl. tauto.
Qed.

(** X13: the nodes the merge returns have distinct names, and these are
    exactly the names listed under the roots that were scanned. *)
Theorem one_node_per_listed_name :
  forall disk this fuel (roots : list (option string)) isFullPath items,
    _getFilesFromFolders disk this fuel roots isFullPath = Ok items ->
    NoDup (map label items)
    /\ forall name,
         In name (map label items)
         <-> In name (scanned_names disk this isFullPath roots).
Proof.
  intros disk this fuel roots isFullPath items H.
  destruct fuel as [|fuel]; simpl in H; [discriminate|].
  destruct (forEach (scan_folder disk this isFullPath) roots [])
    as [merged| |] eqn:Hscan; simpl in H; try discriminate.
  destruct (mapM _ merged) as [merged'| |] eqn:Hexp; simpl in H;
    try discriminate.
  injection H as H. rewrite <- H.
  destruct (expanded_keys _ _ _ Hexp) as [_ Hl]. rewrite Hl.
  rewrite (scanned_labels _ _ _ _ _ Hscan), (scanned_keys _ _ _ _ _ Hscan).
  destruct (first_occurrences_step []
              (scanned_names disk this isFullPath roots) (NoDup_nil _))
    as [H1 H2].
  split; [exact H1|]. intros name. unfold first_occurrences.
  rewrite H2. simpl. tauto.
Qed.

Lemma one_node_per_listed_name_witness :
  exists items,
    _getFilesFromFolders disk_two_roots (constructor "/ws") 3
      [Some "web-src"; Some "res"] false = Ok items
    /\ scanned_names disk_two_roots (constructor "/ws") false
         [Some "web-src"; Some "res"] = ["a"; "a"]
    /\ map label items = ["a"]
    /\ NoDup (map label items).
Proof.
  eexists. split; [reflexivity|]. split; [reflexivity|].
  split; [reflexivity|].
  exact (proj1 (one_node_per_listed_name disk_two_roots (constructor "/ws") 3
                  [Some "web-src"; Some "res"] false _ eq_refl)).
Defined.

(** ** The commands, then the tree again *)

Lemma folderPath_nonempty this isFullPath r :
  r <> "" -> folderPath_of this isFullPath r <> "".
Proof.
  intros Hr. unfold folderPath_of.
  destruct isFullPath; [exact Hr|apply path_join_nonempty].
Qed.

Lemma listed_name_is_scanned disk this isFullPath roots r es name :
  In (Some r) roots -> r <> "" ->
  fs_lookup disk (folderPath_of this isFullPath r) = Some (Dir es) ->
  In name (map fst es) ->
  root_lists disk this isFullPath name (Some r) = true
  /\ In name (scanned_names disk this isFullPath roots).
Proof.
  intros Hin Hr Hlook Hname.
  pose proof (folderPath_nonempty this isFullPath r Hr) as Hfp.
  pose proof (existsSync_Dir _ _ _ Hfp Hlook) as Hex.
  pose proof (readdirSync_Dir _ _ _ Hfp Hlook) as Hrd.
  apply String.eqb_neq in Hr.
  assert (Hlist : In name (listing disk (folderPath_of this isFullPath r))).
  { unfold listing. now rewrite Hrd. }
  split.
  - unfold root_lists. rewrite Hr, Hex. simpl. now apply mem_string_In.
  - unfold scanned_names. apply in_map_iff.
    exists (folderPath_of this isFullPath r, name). split; [reflexivity|].
    apply in_flat_map. exists (Some r). split; [exact Hin|].
    unfold sightings_of. rewrite Hr, Hex. simpl.
    unfold sightings_in. apply in_map_iff. eauto.
Qed.

Lemma scanned_name_is_listed disk this isFullPath roots name :
  In name (scanned_names disk this isFullPath roots) ->
  exists r es,
    In (Some r) roots /\ r <> ""
    /\ fs_lookup disk (folderPath_of this isFullPath r) = Some (Dir es)
    /\ In name (map fst es).
Proof.
  unfold scanned_names. intros H. apply in_map_iff in H.
  destruct H as [[fp n] [Hn H]]. simpl in Hn. subst n.
  apply in_flat_map in H. destruct H as [[r|] [Hin H]]; [|destruct H].
  unfold sightings_of in H.
  destruct (negb (r =? "")) eqn:Hr; simpl in H; [|destruct H].
  destruct (existsSync disk (folderPath_of this isFullPath r)); [|destruct H].
  unfold sightings_in in H. apply in_map_iff in H.
  destruct H as [f [Hf H]]. inversion Hf; subst f fp.
  apply In_listing in H. destruct H as [es [Hlook Hname]].
  exists r, es. repeat split; try assumption.
  intros ->. discriminate.
Qed.

Lemma merged_labels disk this fuel roots isFullPath items :
  _getFilesFromFolders disk this fuel roots isFullPath = Ok items ->
  forall name,
    In name (map label items)
    <-> In name (scanned_names disk this isFullPath roots).
Proof.
  intros H. destruct fuel as [|fuel]; simpl in H; [discriminate|].
  destruct (forEach (scan_folder disk this isFullPath) roots [])
    as [merged| |] eqn:Hscan; simpl in H; try discriminate.
  destruct (mapM _ merged) as [merged'| |] eqn:Hexp; simpl in H;
    try discriminate.
  injection H as H. rewrite <- H.
  destruct (expanded_keys _ _ _ Hexp) as [_ Hl]. rewrite Hl.
  rewrite (scanned_labels _ _ _ _ _ Hscan), (scanned_keys _ _ _ _ _ Hscan).
  destruct (first_occurrences_step []
              (scanned_names disk this isFullPath roots) (NoDup_nil _))
    as [_ H2].
  intros name. unfold first_occurrences. rewrite H2. simpl. tauto.
Qed.

(** X14: after a creation that returns normally, every merge that scans the
    target directory as one of its roots and returns has a node of the new
    file's name.  The node belongs to the first root that lists the name;
    when that root is the target directory, the node is the leaf that opens
    the path created, and otherwise the new file is hidden behind the entry
    of the same name of an earlier root. *)
Theorem created_file_has_a_node :
  forall w element type name w' targetDir fuel roots isFullPath r items,
    valid_name name = true ->
    createFilePrompt w element type (Some name) = (w', Ok tt) ->
    targetDir_of (disk_of w) (treeProvider w) element type = Ok targetDir ->
    In (Some r) roots -> r <> "" ->
    folderPath_of (treeProvider w') isFullPath r = targetDir ->
    _getFilesFromFolders (disk_of w') (treeProvider w') fuel roots isFullPath
    = Ok items ->
    exists it r0,
      In it items /\ label it = name
      /\ first_root_with (disk_of w') (treeProvider w') isFullPath name roots
         = Some r0
      /\ resourceUri it = Some (path_join [r0; name])
      /\ (r0 = targetDir -> it = file_node name (path_join [targetDir; name])).
Proof.
  intros w element type name w' targetDir fuel roots isFullPath r items
    Hname H Htd Hin Hr Hfolder Hmerge.
  destruct (createFilePrompt_returns _ _ _ _ _ (valid_name_nonempty _ Hname) H)
    as [td [d1 [d2 [Htd' [_ [Hw Hw']]]]]].
  rewrite Htd in Htd'. inversion Htd'; subst td. clear Htd'.
  assert (Hdisk : disk_of w' = d2) by (subst w'; reflexivity).
  apply writeFileSync_Ok, write_segments_lookup in Hw.
  change (fs_lookup d2 (path_join [targetDir; name]) = Some (File "")) in Hw.
  rewrite <- Hdisk in Hw. clear Hdisk Hw' d1 d2 H.
  set (disk' := disk_of w') in *. set (this' := treeProvider w') in *.
  pose proof Hw as Hfile.
  rewrite (fs_lookup_join _ _ _ Hname) in Hw.
  destruct (fs_lookup disk' targetDir) as [[c|es]|] eqn:Hdir; try discriminate.
  rewrite <- Hfolder in Hdir.
  assert (Hlisted : In name (map fst es)).
  { apply find_child_In in Hw. apply in_map_iff. now exists (name, File ""). }
  destruct (listed_name_is_scanned _ _ _ _ _ _ _ Hin Hr Hdir Hlisted)
    as [_ Hscanned].
  apply (merged_labels _ _ _ _ _ _ Hmerge) in Hscanned.
  apply in_map_iff in Hscanned. destruct Hscanned as [it [Hlabel Hit]].
  destruct (node_path_under_first_root _ _ _ _ _ _ _ Hmerge Hit)
    as [r0 [Hr0 Huri]].
  rewrite Hlabel in Hr0, Huri.
  exists it, r0. repeat split; try assumption.
  intros ->. destruct fuel as [|fuel]; [discriminate|].
  destruct (node_shape _ _ _ _ _ _ _ Hmerge Hit)
    as [p [[Hd [ps [cs [_ Hv]]]]|[_ Hv]]]; rewrite Hlabel in Hv;
    rewrite Hv in Huri; simpl in Huri; inversion Huri; subst p.
  - unfold is_directory in Hd. rewrite Hfile in Hd. discriminate.
  - exact Hv.
Qed.

Lemma created_file_has_a_node_witness :
  let w := {| disk_of := disk_with_text; treeProvider := constructor "/ws";
              messages := []; fired := 0 |} in
  let roots := [Some "web-src"; Some "res"] in
  (exists w' items,
     createFilePrompt w None source (Some "new.html") = (w', Ok tt)
     /\ _getFilesFromFolders (disk_of w') (treeProvider w') 5 roots false
        = Ok items
     /\ In (file_node "new.html" "/ws/web-src/new.html") items)
  /\ (exists w' items it,
        createFilePrompt w None resource (Some "index.html") = (w', Ok tt)
        /\ is_file (disk_of w') "/ws/res/index.html" = true
        /\ _getFilesFromFolders (disk_of w') (treeProvider w') 5 roots false
           = Ok items
        /\ In it items /\ label it = "index.html"
        /\ resourceUri it = Some "/ws/web-src/index.html").
Proof.
  intros w roots. split.
  - eexists. eexists. split; [reflexivity|]. split; [reflexivity|].
    destruct (created_file_has_a_node w None source "new.html" _ "/ws/web-src"
                5 roots false "web-src" _ eq_refl eq_refl eq_refl
                (or_introl eq_refl) ltac:(discriminate) eq_refl eq_refl)
      as [it [r0 [Hit [_ [Hr0 [_ Hleaf]]]]]].
    injection Hr0 as Hr0. rewrite (Hleaf (eq_sym Hr0)) in Hit. exact Hit.
  - eexists. eexists.
    destruct (created_file_has_a_node w None resource "index.html" _ "/ws/res"
                5 roots false "res" _ eq_refl eq_refl eq_refl
                (or_intror (or_introl eq_refl)) ltac:(discriminate)
                eq_refl eq_refl)
      as [it [r0 [Hit [Hlabel [Hr0 [Huri _]]]]]].
    exists it. split; [reflexivity|]. split; [reflexivity|].
    split; [reflexivity|]. split; [exact Hit|]. split; [exact Hlabel|].
    injection Hr0 as Hr0. rewrite <- Hr0 in Huri. exact Huri.
Defined.

(** X15: after a confirmed deletion that returns normally of the entry
    [name] of the directory [dir], a merge that returns has a node called
    [name] only through a root other than [dir] that lists the name; and it
    does have one whenever one of its roots had an entry of that name that
    is not at or below the path deleted, as with a directory merged from
    several roots, of which the deletion removes the first only. *)
Theorem deleted_node_shows_through_other_roots_only :
  forall w el name dir w' fuel roots isFullPath items,
    wf_disk (disk_of w) = true ->
    valid_name name = true ->
    resourceUri el = Some (path_join [dir; name]) ->
    deleteFilePrompt w (Some el) (Some "Delete") = (w', Ok tt) ->
    _getFilesFromFolders (disk_of w') (treeProvider w') fuel roots isFullPath
    = Ok items ->
    (In name (map label items) ->
       exists r,
         In (Some r) roots
         /\ resolve_segments (folderPath_of (treeProvider w') isFullPath r)
            <> resolve_segments dir
         /\ root_lists (disk_of w') (treeProvider w') isFullPath name (Some r)
            = true)
    /\ (forall r x,
          In (Some r) roots -> r <> "" ->
          fs_lookup (disk_of w)
            (path_join [folderPath_of (treeProvider w') isFullPath r; name])
          = Some x ->
          ~ below (path_join [dir; name])
              (path_join [folderPath_of (treeProvider w') isFullPath r; name]) ->
          In name (map label items)).
Proof.
  intros w el name dir w' fuel roots isFullPath items Hwf Hname Huri H Hmerge.
  destruct (deleteFilePrompt_returns _ _ _ _ Huri H) as [wantDir [d [Hd Hw']]].
  assert (Hdisk : disk_of w' = d) by (subst w'; reflexivity).
  rewrite Hdisk in *. clear Hdisk Hw' H.
  set (this' := treeProvider w') in *.
  split.
  - intros Hshown. apply (merged_labels _ _ _ _ _ _ Hmerge) in Hshown.
    destruct (scanned_name_is_listed _ _ _ _ _ Hshown)
      as [r [es [Hin [Hr [Hlook Hlisted]]]]].
    exists r. split; [exact Hin|]. split.
    + intros Hsame.
      pose proof (remove_segments_lookup _ _ _ _ [] (wf_disk_entry _ Hwf) Hd)
        as Hgone.
      rewrite app_nil_r, resolve_segments_join in Hgone by exact Hname.
      rewrite <- Hsame, walk_app in Hgone.
      unfold fs_lookup in Hlook. rewrite Hlook in Hgone. simpl in Hgone.
      destruct (In_find_child _ _ Hlisted) as [c Hc]. rewrite Hc in Hgone.
      discriminate.
    + exact (proj1 (listed_name_is_scanned _ _ _ _ _ _ _ Hin Hr Hlook Hlisted)).
  - intros r x Hin Hr Hx Hout.
    destruct (remove_segments_frame _ _ _ _ _ _ Hd Hx Hout) as [x' [Hx' _]].
    change (fs_lookup d (path_join [folderPath_of this' isFullPath r; name])
            = Some x') in Hx'.
    rewrite (fs_lookup_join _ _ _ Hname) in Hx'.
    destruct (fs_lookup d (folderPath_of this' isFullPath r))
      as [[c|es]|] eqn:Hlook; try discriminate.
    apply (merged_labels _ _ _ _ _ _ Hmerge).
    refine (proj2 (listed_name_is_scanned _ _ _ _ _ _ _ Hin Hr Hlook _)).
    apply find_child_In in Hx'. apply in_map_iff. now exists (name, x').
Qed.

Lemma deleted_node_shows_through_other_roots_only_witness :
  let w := {| disk_of := disk_two_roots; treeProvider := constructor "/ws";
              messages := []; fired := 0 |} in
  let el := directory_node "a" (path_join ["/ws/web-src"; "a"]) [] in
  exists w',
    deleteFilePrompt w (Some el) (Some "Delete") = (w', Ok tt)
    /\ existsSync (disk_of w') "/ws/web-src/a" = false
    /\ (exists items,
          _getFilesFromFolders (disk_of w') (treeProvider w') 4
            [Some "web-src"; Some "res"] false = Ok items
          /\ In "a" (map label items))
    /\ (exists items,
          _getFilesFromFolders (disk_of w') (treeProvider w') 4
            [Some "web-src"] false = Ok items
          /\ ~ In "a" (map label items)).
Proof.
  intros w el. eexists. split; [reflexivity|]. split; [reflexivity|]. split.
  - eexists. split; [reflexivity|].
    refine (proj2 (deleted_node_shows_through_other_roots_only w el "a"
                     "/ws/web-src" _ 4 [Some "web-src"; Some "res"] false _
                     eq_refl eq_refl eq_refl eq_refl eq_refl)
              "res" (Dir [("y.txt", File "")])
              (or_intror (or_introl eq_refl)) ltac:(discriminate) eq_refl _).
    intros [more Hmore]. discriminate.
  - eexists. split; [reflexivity|]. intros Hshown.
    destruct (proj1 (deleted_node_shows_through_other_roots_only w el "a"
                       "/ws/web-src" _ 4 [Some "web-src"] false _
                       eq_refl eq_refl eq_refl eq_refl eq_refl) Hshown)
      as [r [[Hr|[]] [Hother _]]].
    inversion Hr; subst r. now apply Hother.
Defined.

(** ** Where the merge cannot clash *)

Lemma walk_error_kind segs : forall e,
  walk_error e segs = ENOENT \/ walk_error e segs = ENOTDIR.
Proof.
  induction segs as [|s segs IH]; intros e; simpl; [now left|].
  destruct e as [|es]; [now right|].
  destruct (find_child s es); [apply IH|now left].
Qed.

Lemma fs_stat_throws disk p e :
  fs_stat disk p = Throw e -> e <> TypeError.
Proof.
  unfold fs_stat. destruct (p =? ""); [intros H; inversion H; discriminate|].
  destruct (fs_lookup disk p) as [[c|es]|].
  - destruct (trailingSeparator p); intros H; inversion H; discriminate.
  - discriminate.
  - intros H. inversion H.
    destruct (walk_error_kind (resolve_segments p) disk) as [-> | ->];
      discriminate.
Qed.

Lemma statSync_throws disk p e : statSync disk p = Throw e -> e <> TypeError.
Proof.
  unfold statSync. destruct (fs_stat disk p) as [[c|es]|e'|] eqn:E;
    simpl; try discriminate.
  intros H. inversion H; subst. eapply fs_stat_throws; eauto.
Qed.

Lemma readdirSync_throws disk p e :
  readdirSync disk p = Throw e -> e <> TypeError.
Proof.
  unfold readdirSync. destruct (fs_stat disk p) as [[c|es]|e'|] eqn:E;
    simpl; try discriminate.
  - intros H. inversion H. discriminate.
  - intros H. inversion H; subst. eapply fs_stat_throws; eauto.
Qed.

Lemma map_set_absent m k v :
  map_get m k = None -> map_set m k v = m ++ [(k, v)].
Proof.
  induction m as [|[k' v'] m IH]; simpl; [reflexivity|].
  destruct (k' =? k); [discriminate|]. intros H. now rewrite IH.
Qed.

Lemma map_get_absent m k : ~ In k (map fst m) -> map_get m k = None.
Proof.
  induction m as [|[k' v'] m IH]; simpl; [reflexivity|].
  intros H. destruct (k' =? k) eqn:E.
  - apply String.eqb_eq in E. exfalso. apply H. now left.
  - apply IH. intros Hin. apply H. now right.
Qed.

Lemma nodup_strings_NoDup l : nodup_strings l = true -> NoDup l.
Proof.
  induction l as [|x l IH]; simpl; [constructor|].
  rewrite Bool.andb_true_iff, Bool.negb_true_iff. intros [Hx Hl].
  constructor; [|now apply IH].
  intros Hin. apply mem_string_In in Hin. congruence.
Qed.

Lemma _getFilesFromFolders_S disk this fuel roots isFullPath :
  _getFilesFromFolders disk this (S fuel) roots isFullPath
  = (merged <- forEach (scan_folder disk this isFullPath) roots [] ;;
     merged <- mapM (expand_item (_getFilesFromFolders disk this fuel)) merged ;;
     Ok (map_values merged)).
Proof. reflexivity. Qed.

(** The scan of names that are all new never reaches the push of line 207. *)
Lemma scan_new_names disk fp :
  forall files acc,
    NoDup (map fst acc ++ files) ->
    (forall k v, In (k, v) acc -> at_most_one_path v) ->
    forEach (scan_file disk fp) files acc <> Throw TypeError
    /\ forall merged,
         forEach (scan_file disk fp) files acc = Ok merged ->
         map fst merged = map fst acc ++ files
         /\ forall k v, In (k, v) merged -> at_most_one_path v.
Proof.
  induction files as [|f files IH]; intros acc Hnd Hone; simpl.
  - split; [discriminate|]. intros merged H. inversion H; subst.
    now rewrite app_nil_r.
  - assert (Hnew : map_get acc f = None).
    { apply map_get_absent. intros Hin.
      apply NoDup_remove_2 in Hnd. apply Hnd, in_or_app. now left. }
    unfold scan_file at 1 3. rewrite Hnew.
    destruct (statSync disk (path_join [fp; f])) as [st|e|] eqn:Hst;
      cbn [bind].
    + rewrite map_set_absent by exact Hnew.
      set (item := new_file_item f (path_join [fp; f]) (stats_isDirectory st)).
      destruct (IH (acc ++ [(f, item)])) as [Hno Hok].
      * rewrite map_app, <- app_assoc. exact Hnd.
      * intros k v Hin. apply in_app_iff in Hin.
        destruct Hin as [Hin|[Heq|[]]]; [now apply (Hone k)|].
        inversion Heq; subst k v. unfold item, new_file_item.
        destruct (stats_isDirectory st); [right; now eexists|now left].
      * split; [exact Hno|]. intros merged H.
        destruct (Hok merged H) as [Hkeys Hall]. split; [|exact Hall].
        rewrite Hkeys, map_app, <- app_assoc. reflexivity.
    + split; [|discriminate].
      intros H. inversion H; subst. now apply (statSync_throws _ _ _ Hst).
    + split; discriminate.
Qed.

Lemma scan_folders_new_names disk this isFullPath :
  forall roots acc,
    NoDup (map fst acc ++ scanned_names disk this isFullPath roots) ->
    (forall k v, In (k, v) acc -> at_most_one_path v) ->
    forEach (scan_folder disk this isFullPath) roots acc <> Throw TypeError
    /\ forall merged,
         forEach (scan_folder disk this isFullPath) roots acc = Ok merged ->
         forall k v, In (k, v) merged -> at_most_one_path v.
Proof.
  induction roots as [|r roots IH]; intros acc Hnd Hone.
  - simpl. split; [discriminate|]. intros merged H. now inversion H; subst.
  - change (scanned_names disk this isFullPath (r :: roots))
      with (map snd (sightings_of disk this isFullPath r
                     ++ flat_map (sightings_of disk this isFullPath) roots))
      in Hnd.
    rewrite map_app in Hnd.
    change (map snd (flat_map (sightings_of disk this isFullPath) roots))
      with (scanned_names disk this isFullPath roots) in Hnd.
    cbn [forEach].
    assert (Hskip : sightings_of disk this isFullPath r = [] ->
              forEach (scan_folder disk this isFullPath) roots acc
              <> Throw TypeError
              /\ forall merged,
                   forEach (scan_folder disk this isFullPath) roots acc
                   = Ok merged ->
                   forall k v, In (k, v) merged -> at_most_one_path v).
    { intros Hs. rewrite Hs in Hnd. simpl in Hnd. now apply IH. }
    unfold scan_folder at 1 3. unfold sightings_of in Hnd, Hskip.
    destruct r as [n|]; [|cbn [bind]; now apply Hskip].
    destruct (n =? "") eqn:Hn; simpl in Hnd, Hskip;
      [cbn [bind]; now apply Hskip|].
    destruct (existsSync disk (folderPath_of this isFullPath n)) eqn:Hex;
      simpl in Hnd, Hskip; [|cbn [bind]; now apply Hskip].
    clear Hskip. unfold listing in Hnd.
    destruct (readdirSync disk (folderPath_of this isFullPath n))
      as [files|e|] eqn:Hrd; cbn [bind].
    + rewrite sightings_in_names, app_assoc in Hnd.
      destruct (scan_new_names disk (folderPath_of this isFullPath n)
                  files acc) as [Hno Hok].
      * now apply NoDup_app_remove_r in Hnd.
      * exact Hone.
      * destruct (forEach (scan_file disk (folderPath_of this isFullPath n))
                    files acc) as [m1|e|] eqn:Hscan; cbn [bind].
        -- destruct (Hok m1 eq_refl) as [Hkeys Hall].
           apply IH; [|exact Hall]. now rewrite Hkeys.
        -- split; [|discriminate]. intros H. inversion H; subst.
           now apply Hno.
        -- split; discriminate.
    + split; [|discriminate]. intros H. inversion H; subst.
      now apply (readdirSync_throws _ _ _ Hrd).
    + split; discriminate.
Qed.

Lemma expand_single_paths
  (recur : list (option string) -> bool -> result (list TreeItem)) :
  (forall p, recur [Some p] true <> Throw TypeError) ->
  forall merged,
    (forall k v, In (k, v) merged -> at_most_one_path v) ->
    mapM (expand_item recur) merged <> Throw TypeError.
Proof.
  intros Hrec. induction merged as [|[k v] merged IH]; intros Hone; simpl;
    [discriminate|].
  assert (Hkv : expand_item recur (k, v) <> Throw TypeError).
  { unfold expand_item. simpl.
    destruct (Hone k v (or_introl eq_refl)) as [Hmp|[p Hmp]]; rewrite Hmp;
      [discriminate|].
    simpl. pose proof (Hrec p) as Hp.
    destruct (recur [Some p] true); simpl; [discriminate|congruence|discriminate]. }
  destruct (expand_item recur (k, v)) as [kv'|e|]; cbn [bind];
    [|congruence|discriminate].
  assert (Hrest : mapM (expand_item recur) merged <> Throw TypeError).
  { apply IH. intros k0 v0 Hin. apply (Hone k0). now right. }
  destruct (mapM (expand_item recur) merged); cbn [bind];
    [discriminate|congruence|discriminate].
Qed.

(** X3: the [TypeError] of the merge needs a name that two of the scanned
    roots list.  On a disk whose listings hold distinct names, a merge of
    roots whose listed names are all different, the merge of a single root
    among them, does not throw it, at this level or at any level below;
    what it can still throw is an error of the file system. *)
Theorem merge_without_shared_names_has_no_clash :
  forall disk this fuel (roots : list (option string)) isFullPath,
    wf_disk disk = true ->
    NoDup (scanned_names disk this isFullPath roots) ->
    _getFilesFromFolders disk this fuel roots isFullPath <> Throw TypeError.
Proof.
  intros disk this fuel roots isFullPath Hwf.
  revert roots isFullPath.
  induction fuel as [|fuel IH]; intros roots isFullPath Hnd;
    [discriminate|].
  rewrite _getFilesFromFolders_S.
  destruct (scan_folders_new_names disk this isFullPath roots [])
    as [Hno Hok]; [exact Hnd|intros k v []|].
  destruct (forEach (scan_folder disk this isFullPath) roots [])
    as [merged|e|]; cbn [bind]; [|congruence|discriminate].
  assert (Hexp : mapM (expand_item (_getFilesFromFolders disk this fuel)) merged
                 <> Throw TypeError).
  { apply expand_single_paths; [|now apply Hok].
    intros p. apply IH. unfold scanned_names. simpl. rewrite app_nil_r.
    unfold sightings_of.
    change (folderPath_of this true p) with p.
    destruct (negb (p =? "") && existsSync disk p); [|apply NoDup_nil].
    rewrite sightings_in_names.
    apply nodup_strings_NoDup. now apply listing_nodup. }
  destruct (mapM _ merged); cbn [bind]; [discriminate|congruence|discriminate].
Qed.

Lemma merge_without_shared_names_has_no_clash_witness :
  let this := constructor "/ws" in
  scanned_names disk_with_text this false [Some "res"; Some "web-src"]
  = ["notes.txt"; "img"; "index.html"]
  /\ _getFilesFromFolders disk_with_text this 5 [Some "res"; Some "web-src"]
       false <> Throw TypeError
  /\ _getFilesFromFolders disk_file_then_dir this 5 [Some "res"] false
     <> Throw TypeError.
Proof.
  intros this. split; [reflexivity|]. split.
  - apply (merge_without_shared_names_has_no_clash disk_with_text this 5
             [Some "res"; Some "web-src"] false eq_refl).
    repeat constructor; simpl; intuition discriminate.
  - apply (merge_without_shared_names_has_no_clash disk_file_then_dir this 5
             [Some "res"] false eq_refl).
    repeat constructor; simpl; intuition discriminate.
Defined.
